(** * etherscan-v2-sdk: transport and reliability layer

    A shallow embedding of the request path of the SDK
    ([src/core/transport.ts] with the cache and validator modules it is
    bundled with, [src/core/errors.ts], [src/core/types.ts],
    [src/resources/account.ts]) and the properties of its cache,
    deduplicator, limiter registry, retry loop, envelope handling and
    numeric schemas.

    Conventions.  A JavaScript [number] that the code uses as a count or
    a duration is a [Z]; [Map<string, V>] is a [gmap string V]; a
    [Set<string>], whose iteration order the code relies on, is a
    duplicate-free [list string] in insertion order; [Date.now()] is an
    explicit argument or a field of the world. *)

From Stdlib Require Import ZArith Lia List String Ascii Bool DecimalString.
From stdpp Require Import base gmap strings list fin_maps sorting.

Import ListNotations.
Local Open Scope string_scope.
Local Open Scope list_scope.
Local Open Scope Z_scope.

(** ** JavaScript strings, numbers and values

    A [string] stands for a JavaScript string whose code units are all
    below 256, one [ascii] per code unit. *)

Module Js.

(** [if (s)] on a value of type [string | undefined]. *)
Definition truthy_string (s : string) : bool :=
  negb (String.eqb s "").

Definition truthy_opt_string (o : option string) : bool :=
  match o with
  | Some s => truthy_string s
  | None => false
  end.

(** *** Characters *)

Definition code (c : ascii) : Z := Z.of_N (N_of_ascii c).

Definition between (lo hi : Z) (c : ascii) : bool :=
  (lo <=? code c) && (code c <=? hi).

Definition is_digit (c : ascii) : bool := between 48 57 c.

(** WhiteSpace and LineTerminator code units below 256: TAB, LF, VT, FF,
    CR, SP and NBSP. *)
Definition is_space (c : ascii) : bool :=
  between 9 13 c || (code c =? 32) || (code c =? 160).

(** What [.] of a regular expression does not match. *)
Definition is_line_terminator (c : ascii) : bool :=
  (code c =? 10) || (code c =? 13).

Definition to_lower (c : ascii) : ascii :=
  if between 65 90 c then ascii_of_N (N_of_ascii c + 32) else c.

(** The value of a digit in a radix up to 16, when it is one. *)
Definition digit_value (radix : Z) (c : ascii) : option Z :=
  let v := if between 48 57 c then Some (code c - 48)
           else if between 97 102 c then Some (code c - 87)
           else if between 65 70 c then Some (code c - 55)
           else None in
  match v with
  | Some d => if d <? radix then Some d else None
  | None => None
  end.

(** *** Strings *)

Fixpoint map_string (f : ascii -> ascii) (s : string) : string :=
  match s with
  | EmptyString => EmptyString
  | String c r => String (f c) (map_string f r)
  end.

(** The case folding of the [i] flag, on letters below 128 *)
Definition foldCase (s : string) : string := map_string to_lower s.

Fixpoint drop_string (n : nat) (s : string) : string :=
  match n, s with
  | O, _ => s
  | S n', String _ r => drop_string n' r
  | S _, EmptyString => EmptyString
  end.

(** [hay.includes(needle)] *)
Fixpoint includes (needle hay : string) : bool :=
  String.prefix needle hay ||
  match hay with
  | EmptyString => false
  | String _ r => includes needle r
  end.

Fixpoint trimStart (s : string) : string :=
  match s with
  | String c r => if is_space c then trimStart r else s
  | EmptyString => EmptyString
  end.

Fixpoint trimEnd (s : string) : string :=
  match s with
  | EmptyString => EmptyString
  | String c r =>
      match trimEnd r with
      | EmptyString => if is_space c then EmptyString else String c EmptyString
      | r' => String c r'
      end
  end.

(** [s.trim()] *)
Definition trim (s : string) : string := trimEnd (trimStart s).

(** [s.split(',')] for a one-character separator: [cur] is the piece
    being read, reversed. *)
Fixpoint split_go (sep : ascii) (cur : string) (s : string) : list string :=
  match s with
  | EmptyString => [String.rev cur]
  | String c r =>
      if Ascii.eqb c sep then String.rev cur :: split_go sep EmptyString r
      else split_go sep (String c cur) r
  end.

Definition split (sep : ascii) (s : string) : list string :=
  split_go sep EmptyString s.

(** [parts.join(sep)] *)
Definition join (sep : string) (parts : list string) : string :=
  String.concat sep parts.

(** [String.prototype.length] *)
Definition strlen (s : string) : Z := Z.of_nat (String.length s).

(** *** Regular expressions of the transport

    The three patterns are literal texts, two of them with [.*] in the
    middle, under the [i] flag; their letters are below 128, where the
    flag matches a code unit exactly when its lower-case form is the
    pattern's. *)

(** [/needle/i.test(s)] for a lower-case literal [needle] *)
Definition test_literal_i (needle s : string) : bool :=
  includes needle (foldCase s).

(** Whether [b] starts somewhere on the rest of the current line. *)
Fixpoint later_on_line (b s : string) : bool :=
  String.prefix b s ||
  match s with
  | EmptyString => false
  | String c r => if is_line_terminator c then false else later_on_line b r
  end.

Fixpoint test_span (a b s : string) : bool :=
  (String.prefix a s && later_on_line b (drop_string (String.length a) s)) ||
  match s with
  | EmptyString => false
  | String _ r => test_span a b r
  end.

(** [/a.*b/i.test(s)] for lower-case literals [a] and [b] *)
Definition test_span_i (a b s : string) : bool :=
  test_span a b (foldCase s).

(** *** Integers in decimal *)

Definition string_of_Z (z : Z) : string :=
  NilZero.string_of_int (Z.to_int z).

(** The value of a digit sequence read left to right; [None] when a
    character is not a digit of the radix. *)
Fixpoint digits_value (radix : Z) (acc : Z) (s : string) : option Z :=
  match s with
  | EmptyString => Some acc
  | String c r =>
      match digit_value radix c with
      | Some d => digits_value radix (acc * radix + d) r
      | None => None
      end
  end.

(** One digit at least. *)
Definition nonempty_digits_value (radix : Z) (s : string) : option Z :=
  match s with
  | EmptyString => None
  | _ => digits_value radix 0 s
  end.

(** The radix prefix of a NonDecimalIntegerLiteral and what follows it. *)
Definition radix_prefix (s : string) : option (Z * string) :=
  match s with
  | String "0" (String c r) =>
      if (code c =? 120) || (code c =? 88) then Some (16, r)
      else if (code c =? 111) || (code c =? 79) then Some (8, r)
      else if (code c =? 98) || (code c =? 66) then Some (2, r)
      else None
  | _ => None
  end.

(** [BigInt(s)] on a string (StringToBigInt): [None] is the
    [SyntaxError] it throws. *)
Definition BigInt (s : string) : option Z :=
  let t := trim s in
  match t with
  | EmptyString => Some 0
  | String c r =>
      match radix_prefix t with
      | Some (radix, body) => nonempty_digits_value radix body
      | None =>
          if code c =? 45 then Z.opp <$> nonempty_digits_value 10 r
          else if code c =? 43 then nonempty_digits_value 10 r
          else nonempty_digits_value 10 t
      end
  end.

(** *** Numbers

    A Number is kept as the exact decimal value of the literal or
    integer it came from; rounding to binary64 is not modelled. *)

Inductive number :=
  | NaN
  | Infinity (negative : bool)
  | Dec (negative : bool) (mantissa : Z) (exponent : Z).

Definition zero : number := Dec false 0 0.

(** [isNaN(n)] *)
Definition isNaN (n : number) : bool :=
  match n with
  | NaN => true
  | _ => false
  end.

Fixpoint span_digits (radix : Z) (s : string) : string * string :=
  match s with
  | String c r =>
      match digit_value radix c with
      | Some _ => let '(d, rest) := span_digits radix r in (String c d, rest)
      | None => (EmptyString, s)
      end
  | EmptyString => (EmptyString, EmptyString)
  end.

(** Nothing, or an ExponentPart: [e] or [E], a sign or none, digits. *)
Definition exponent_part (s : string) : option Z :=
  match s with
  | EmptyString => Some 0
  | String c r =>
      if (code c =? 101) || (code c =? 69) then
        match r with
        | String sg r' =>
            if code sg =? 45 then Z.opp <$> nonempty_digits_value 10 r'
            else if code sg =? 43 then nonempty_digits_value 10 r'
            else nonempty_digits_value 10 r
        | EmptyString => None
        end
      else None
  end.

(** StrUnsignedDecimalLiteral *)
Definition unsigned_decimal (neg : bool) (s : string) : number :=
  if String.eqb s "Infinity" then Infinity neg
  else
    let '(ip, rest) := span_digits 10 s in
    let '(fp, rest') :=
      match rest with
      | String c r => if code c =? 46 then span_digits 10 r else (EmptyString, rest)
      | EmptyString => (EmptyString, rest)
      end in
    if String.eqb ip "" && String.eqb fp "" then NaN
    else
      match exponent_part rest', digits_value 10 0 (ip +:+ fp) with
      | Some e, Some m => Dec neg m (e - strlen fp)
      | _, _ => NaN
      end.

(** [Number(s)] on a string (StringToNumber) *)
Definition Number (s : string) : number :=
  let t := trim s in
  match t with
  | EmptyString => zero
  | String c r =>
      match radix_prefix t with
      | Some (radix, body) =>
          match nonempty_digits_value radix body with
          | Some v => Dec false v 0
          | None => NaN
          end
      | None =>
          if code c =? 45 then unsigned_decimal true r
          else if code c =? 43 then unsigned_decimal false r
          else unsigned_decimal false t
      end
  end.

(** [parseInt(s)] with no radix; [None] is [NaN]. *)
Definition parseInt (s : string) : option Z :=
  let t := trimStart s in
  let '(neg, t1) :=
    match t with
    | String c r =>
        if code c =? 45 then (true, r)
        else if code c =? 43 then (false, r)
        else (false, t)
    | EmptyString => (false, t)
    end in
  let '(radix, t2) :=
    match t1 with
    | String "0" (String c r) =>
        if (code c =? 120) || (code c =? 88) then (16, r) else (10, t1)
    | _ => (10, t1)
    end in
  match fst (span_digits radix t2) with
  | EmptyString => None
  | ds => (fun v => if neg then - v else v) <$> digits_value radix 0 ds
  end.

Fixpoint strip_zeros (s : string) : string :=
  match s with
  | String c r => if code c =? 48 then strip_zeros r else s
  | EmptyString => EmptyString
  end.

Fixpoint take_string (n : nat) (s : string) : string :=
  match n, s with
  | S n', String c r => String c (take_string n' r)
  | _, _ => EmptyString
  end.

Fixpoint zeros (n : nat) : string :=
  match n with
  | O => EmptyString
  | S n' => String "0" (zeros n')
  end.

(** [Number::toString(x)], radix 10, from the shortest digit string [s]
    of [x], its length [k] and the position [n] of the decimal point. *)
Definition number_toString (x : number) : string :=
  match x with
  | NaN => "NaN"
  | Infinity neg => (if neg then "-" else "") +:+ "Infinity"
  | Dec neg m e =>
      if m <=? 0 then "0"
      else
        let ds := string_of_Z m in
        let s := String.rev (strip_zeros (String.rev ds)) in
        let k := strlen s in
        let n := strlen ds + e in
        let body :=
          if (k <=? n) && (n <=? 21) then s +:+ zeros (Z.to_nat (n - k))
          else if (0 <? n) && (n <=? 21) then
            take_string (Z.to_nat n) s +:+ "." +:+ drop_string (Z.to_nat n) s
          else if (-6 <? n) && (n <=? 0) then "0." +:+ zeros (Z.to_nat (- n)) +:+ s
          else
            let ex := (if n - 1 <? 0 then "-" else "+") +:+ string_of_Z (Z.abs (n - 1)) in
            if k =? 1 then s +:+ "e" +:+ ex
            else take_string 1 s +:+ "." +:+ drop_string 1 s +:+ "e" +:+ ex in
        (if neg then "-" else "") +:+ body
  end.

(** *** Values *)

#[warnings="-register-all"]
Inductive value :=
  | VUndefined
  | VNull
  | VBool (b : bool)
  | VNum (n : number)
  | VBigInt (z : Z)
  | VStr (s : string)
  | VArr (items : list value)
  | VObj (fields : list (string * value)).

(** [String(v)] *)
Fixpoint toString (v : value) : string :=
  match v with
  | VUndefined => "undefined"
  | VNull => "null"
  | VBool b => if b then "true" else "false"
  | VNum n => number_toString n
  | VBigInt z => string_of_Z z
  | VStr s => s
  | VArr items =>
      join "," (List.map (fun x => match x with
                                   | VUndefined | VNull => ""
                                   | _ => toString x
                                   end) items)
  | VObj _ => "[object Object]"
  end.

(** ToBoolean *)
Definition truthy (v : value) : bool :=
  match v with
  | VUndefined | VNull => false
  | VBool b => b
  | VNum NaN => false
  | VNum (Infinity _) => true
  | VNum (Dec _ m _) => negb (m =? 0)
  | VBigInt z => negb (z =? 0)
  | VStr s => truthy_string s
  | VArr _ | VObj _ => true
  end.

(** [a || b] *)
Definition or_else (a b : value) : value :=
  if truthy a then a else b.

(** [v === s] for a string literal [s] *)
Definition strict_eq_string (v : value) (s : string) : bool :=
  match v with
  | VStr t => String.eqb t s
  | _ => false
  end.

Fixpoint assoc (k : string) (fields : list (string * value)) : option value :=
  match fields with
  | [] => None
  | (k', v) :: rest => if String.eqb k' k then Some v else assoc k rest
  end.

(** [v.k] on a value that came from [JSON.parse]: [None] is the
    [TypeError] of a property read on [null] or [undefined]; on an
    array, [k] is never an index or [length] here. *)
Definition getProp (v : value) (k : string) : option value :=
  match v with
  | VUndefined | VNull => None
  | VObj fields => Some (default VUndefined (assoc k fields))
  | _ => Some VUndefined
  end.

End Js.

(** ** An insertion-ordered [Set<string>] *)

Module OrderedSet.

Definition t := list string.

Definition empty : t := [].

(** [Set.prototype.delete] *)
Definition delete (k : string) (s : t) : t :=
  List.filter (fun x => negb (String.eqb x k)) s.

Definition has (k : string) (s : t) : bool :=
  existsb (String.eqb k) s.

(** [Set.prototype.add]: a member keeps its place, a new one goes last. *)
Definition add (k : string) (s : t) : t :=
  if has k s then s else s ++ [k].

(** [s.values().next().value] *)
Definition first (s : t) : option string := head s.

End OrderedSet.

(** ** [LRUCache] ([src/core/transport.ts], the module [./cache]) *)

Module LRUCache.

Section WithValue.

Context {T : Type}.

Record CacheEntry := mkEntry {
  data : T;
  timestamp : Z;
  ttl : Z
}.

Record CacheConfig := mkConfig {
  maxSize : Z;
  defaultTtl : Z;
  enabled : bool
}.

(** [Partial<CacheConfig>] *)
Record PartialConfig := mkPartial {
  p_maxSize : option Z;
  p_defaultTtl : option Z;
  p_enabled : option bool
}.

Record t := mkCache {
  cache : gmap string CacheEntry;
  accessOrder : OrderedSet.t;
  config : CacheConfig
}.

Definition defaultConfig : CacheConfig :=
  {| maxSize := 1000; defaultTtl := 5 * 60 * 1000; enabled := true |}.

(** [{ ...base, ...over }] *)
Definition mergeConfig (base : CacheConfig) (over : PartialConfig) : CacheConfig :=
  {| maxSize := default (maxSize base) (p_maxSize over);
     defaultTtl := default (defaultTtl base) (p_defaultTtl over);
     enabled := default (enabled base) (p_enabled over) |}.

Definition noOverrides : PartialConfig :=
  {| p_maxSize := None; p_defaultTtl := None; p_enabled := None |}.

(** [new LRUCache(config)] *)
Definition create (over : PartialConfig) : t :=
  {| cache := ∅; accessOrder := OrderedSet.empty;
     config := mergeConfig defaultConfig over |}.

(** [this.cache.size] *)
Definition size (c : t) : Z := Z.of_nat (base.size (cache c)).

(** [delete(key)]: the flag is what [Map.prototype.delete] returned. *)
Definition delete (key : string) (c : t) : bool * t :=
  match cache c !! key with
  | Some _ =>
      (true, {| cache := base.delete key (cache c);
                accessOrder := OrderedSet.delete key (accessOrder c);
                config := config c |})
  | None => (false, c)
  end.

(** The recency refresh shared by [get] and [set]:
    [accessOrder.delete(key); accessOrder.add(key)]. *)
Definition touch (key : string) (s : OrderedSet.t) : OrderedSet.t :=
  OrderedSet.add key (OrderedSet.delete key s).

(** [now - entry.timestamp > entry.ttl] *)
Definition expired (now : Z) (e : CacheEntry) : bool :=
  now - timestamp e >? ttl e.

(** [get(key)] at time [now]; [None] is the [null] of a miss. *)
Definition get (now : Z) (key : string) (c : t) : option T * t :=
  if negb (enabled (config c)) then (None, c)
  else
    match cache c !! key with
    | None => (None, c)
    | Some entry =>
        if expired now entry then (None, snd (delete key c))
        else (Some (data entry),
              {| cache := cache c;
                 accessOrder := touch key (accessOrder c);
                 config := config c |})
    end.

(** The eviction step of [set] and of the loop in [updateConfig]:
    [const lruKey = accessOrder.values().next().value; if (lruKey) ...]. *)
Definition evictInSet (c : t) : t :=
  match OrderedSet.first (accessOrder c) with
  | Some lruKey =>
      if Js.truthy_string lruKey then
        {| cache := base.delete lruKey (cache c);
           accessOrder := OrderedSet.delete lruKey (accessOrder c);
           config := config c |}
      else c
  | None => c
  end.

(** [set(key, value, ttl?)] at time [now]. *)
Definition set (now : Z) (key : string) (value : T) (ttl' : option Z) (c : t) : t :=
  if negb (enabled (config c)) then c
  else
    let entry := {| data := value; timestamp := now;
                    ttl := default (defaultTtl (config c)) ttl' |} in
    match cache c !! key with
    | Some _ =>
        {| cache := <[key := entry]> (cache c);
           accessOrder := touch key (accessOrder c);
           config := config c |}
    | None =>
        let c1 := if size c >=? maxSize (config c) then evictInSet c else c in
        {| cache := <[key := entry]> (cache c1);
           accessOrder := OrderedSet.add key (accessOrder c1);
           config := config c1 |}
    end.

(** [clear()] *)
Definition clear (c : t) : t :=
  {| cache := ∅; accessOrder := OrderedSet.empty; config := config c |}.

(** [cleanup()] at time [now]: every expired entry is deleted. *)
Definition cleanup (now : Z) (c : t) : t :=
  fold_right (fun kv acc => if expired now kv.2 then snd (delete kv.1 acc) else acc)
             c (map_to_list (cache c)).

(** [stats()] *)
Definition stats (c : t) : Z * Z * bool :=
  (size c, maxSize (config c), enabled (config c)).

(** The body of the [while] loop of [updateConfig]. *)
Definition evictStep (c : t) : t :=
  match OrderedSet.first (accessOrder c) with
  | Some lruKey =>
      if Js.truthy_string lruKey then snd (delete lruKey c) else c
  | None => c
  end.

(** [while (this.cache.size > this.config.maxSize) { ... }]; [None] when
    the loop is still running after [fuel] iterations. *)
Fixpoint evictLoop (fuel : nat) (c : t) : option t :=
  if size c >? maxSize (config c) then
    match fuel with
    | O => None
    | S fuel' => evictLoop fuel' (evictStep c)
    end
  else Some c.

(** [updateConfig(config)] *)
Definition updateConfig (fuel : nat) (over : PartialConfig) (c : t) : option t :=
  let c1 := {| cache := cache c; accessOrder := accessOrder c;
               config := mergeConfig (config c) over |} in
  let c2 := if negb (enabled (config c1)) then clear c1 else c1 in
  evictLoop fuel c2.

(** The calls a client makes on the cache.  [updateConfig] is given as
    many turns of its loop as the cache has entries: a turn removes an
    entry or changes nothing, so more turns would not end a loop that
    these do not end. *)
Inductive op :=
  | Set_ (now : Z) (key : string) (value : T) (ttl' : option Z)
  | Get (now : Z) (key : string)
  | Delete (key : string)
  | Clear
  | Cleanup (now : Z)
  | UpdateConfig (over : PartialConfig).

Definition applyOp (c : t) (o : op) : option t :=
  match o with
  | Set_ now key value ttl' => Some (set now key value ttl' c)
  | Get now key => Some (snd (get now key c))
  | Delete key => Some (snd (delete key c))
  | Clear => Some (clear c)
  | Cleanup now => Some (cleanup now c)
  | UpdateConfig over => updateConfig (base.size (cache c)) over c
  end.

Fixpoint runOps (ops : list op) (c : t) : option t :=
  match ops with
  | [] => Some c
  | o :: rest =>
      match applyOp c o with
      | Some c' => runOps rest c'
      | None => None
      end
  end.

(** Calls that name a non-empty key and keep [maxSize] at one or more *)
Definition admissible (o : op) : Prop :=
  match o with
  | Set_ _ key _ _ => key <> ""
  | UpdateConfig over => forall m, p_maxSize over = Some m -> 1 <= m
  | _ => True
  end.

(** The two structures of the cache hold the same keys, each once, and
    none of them empty. *)
Definition consistent (c : t) : Prop :=
  NoDup (accessOrder c)
  /\ (forall k, k ∈ accessOrder c <-> is_Some (cache c !! k))
  /\ "" ∉ accessOrder c.

(** The bound of the specification, on a cache that can hold an entry *)
Definition withinBound (c : t) : Prop :=
  consistent c /\ size c <= maxSize (config c) /\ 1 <= maxSize (config c).

End WithValue.

Arguments CacheEntry : clear implicits.
Arguments t : clear implicits.
Arguments op : clear implicits.

End LRUCache.

(** ** The error classes ([src/core/errors.ts]) *)

Module Errors.

(** What a rejected [fetch] or a built-in throws: an [Error] object, by
    its [name] and [message], or some other value. *)
Inductive thrown :=
  | ThrownError (name message : string)
  | ThrownValue (v : Js.value).

(** What the SDK raises.  [APIError] keeps the message it was built
    from; [PlanUpgradeRequired] is built from the two arguments the
    transport passes; [Native] is a built-in error that reaches the
    caller as it is. *)
Inductive error :=
  | EtherscanError (message : string) (status : Z) (code : string)
  | APIError (message : string) (result : Js.value)
  | RateLimitError
  | UnsupportedChainError (chainId : Z) (feature : string)
  | ValidationError (message : string)
  | PlanUpgradeRequired (message result : Js.value)
  | Native (t : thrown).

(** [e instanceof EtherscanError] *)
Definition isEtherscanError (e : error) : bool :=
  match e with
  | Native _ => false
  | _ => true
  end.

(** [e instanceof ValidationError] *)
Definition isValidationError (e : error) : bool :=
  match e with
  | ValidationError _ => true
  | _ => false
  end.

(** [e instanceof RateLimitError] *)
Definition isRateLimitError (e : error) : bool :=
  match e with
  | RateLimitError => true
  | _ => false
  end.

(** [e instanceof APIError] *)
Definition isAPIError (e : error) : bool :=
  match e with
  | APIError _ _ => true
  | _ => false
  end.

(** [e.status] and [e.code], as the constructors set them. *)
Definition status (e : error) : option Z :=
  match e with
  | EtherscanError _ st _ => Some st
  | APIError _ _ => Some 200
  | RateLimitError => Some 429
  | UnsupportedChainError _ _ => Some 400
  | ValidationError _ => Some 500
  | PlanUpgradeRequired _ _ => None
  | Native _ => None
  end.

Definition code (e : error) : option string :=
  match e with
  | EtherscanError _ _ c => Some c
  | APIError _ _ => Some "API_LOGIC_ERROR"
  | RateLimitError => Some "RATE_LIMIT_EXCEEDED"
  | UnsupportedChainError _ _ => Some "UNSUPPORTED_CHAIN"
  | ValidationError _ => Some "SCHEMA_VALIDATION_ERROR"
  | PlanUpgradeRequired _ _ => None
  | Native _ => None
  end.

(** The outcome of a call that may throw. *)
Inductive outcome (A : Type) :=
  | Returns (a : A)
  | Throws (e : error).

Arguments Returns {A} a.
Arguments Throws {A} e.

End Errors.

(** ** Schemas ([zod], and [src/core/types.ts]) *)

Module Zod.

Record issue := mkIssue {
  issue_code : string;
  issue_path : list string;
  issue_message : string
}.

(** [SafeParseReturnType] *)
Inductive result :=
  | Success (data : Js.value)
  | Failure (issues : list issue).

(** A schema, by its [safeParse]. *)
Record schema := mkSchema { safeParse : Js.value -> result }.

(** [result.success] *)
Definition success (r : result) : bool :=
  match r with
  | Success _ => true
  | Failure _ => false
  end.

Definition dquote : string := String (ascii_of_N 34) EmptyString.

(** zod's name for the type of what it received *)
Definition parsedType (v : Js.value) : string :=
  match v with
  | Js.VUndefined => "undefined"
  | Js.VNull => "null"
  | Js.VBool _ => "boolean"
  | Js.VNum Js.NaN => "nan"
  | Js.VNum _ => "number"
  | Js.VBigInt _ => "bigint"
  | Js.VStr _ => "string"
  | Js.VArr _ => "array"
  | Js.VObj _ => "object"
  end.

Definition invalid_type (expected : string) (v : Js.value) : issue :=
  {| issue_code := "invalid_type"; issue_path := [];
     issue_message :=
       match v with
       | Js.VUndefined => "Required"
       | _ => "Expected " +:+ expected +:+ ", received " +:+ parsedType v
       end |}.

Definition under (k : string) (i : issue) : issue :=
  {| issue_code := issue_code i; issue_path := k :: issue_path i;
     issue_message := issue_message i |}.

(** [z.string()] *)
Definition string : schema :=
  {| safeParse := fun v =>
       match v with
       | Js.VStr _ => Success v
       | _ => Failure [invalid_type "string" v]
       end |}.

(** [inner.transform((val, ctx) => ...)]: the function returns the new
    value, or the issue it added before returning [z.NEVER]. *)
Definition transform (inner : schema) (f : Js.value -> Js.value + issue) : schema :=
  {| safeParse := fun v =>
       match safeParse inner v with
       | Success d =>
           match f d with
           | inl d' => Success d'
           | inr i => Failure [i]
           end
       | Failure errs => Failure errs
       end |}.

(** [z.string().regex(re, message)], [re] given by its [test] *)
Definition string_regex (test : String.string -> bool) (message : String.string) : schema :=
  {| safeParse := fun v =>
       match v with
       | Js.VStr s =>
           if test s then Success v
           else Failure [{| issue_code := "invalid_string"; issue_path := [];
                            issue_message := message |}]
       | _ => Failure [invalid_type "string" v]
       end |}.

(** The elements of an array, each under its index. *)
Fixpoint parse_items (inner : schema) (i : nat) (items : list Js.value)
  : list Js.value * list issue :=
  match items with
  | [] => ([], [])
  | x :: rest =>
      let '(outs, errs) := parse_items inner (S i) rest in
      match safeParse inner x with
      | Success d => (d :: outs, errs)
      | Failure xs => (outs, List.map (under (Js.string_of_Z (Z.of_nat i))) xs ++ errs)
      end
  end.

(** [z.array(inner)] *)
Definition array (inner : schema) : schema :=
  {| safeParse := fun v =>
       match v with
       | Js.VArr items =>
           match parse_items inner 0 items with
           | (outs, []) => Success (Js.VArr outs)
           | (_, errs) => Failure errs
           end
       | _ => Failure [invalid_type "array" v]
       end |}.

(** The keys of an object shape, each read from the input. *)
Fixpoint parse_shape (shape : list (String.string * schema)) (fields : list (String.string * Js.value))
  : list (String.string * Js.value) * list issue :=
  match shape with
  | [] => ([], [])
  | (k, sch) :: rest =>
      let '(outs, errs) := parse_shape rest fields in
      match safeParse sch (default Js.VUndefined (Js.assoc k fields)) with
      | Success d => ((k, d) :: outs, errs)
      | Failure xs => (outs, List.map (under k) xs ++ errs)
      end
  end.

(** [z.object(shape)]: unknown keys are stripped. *)
Definition object (shape : list (String.string * schema)) : schema :=
  {| safeParse := fun v =>
       match v with
       | Js.VObj fields =>
           match parse_shape shape fields with
           | (outs, []) => Success (Js.VObj outs)
           | (_, errs) => Failure errs
           end
       | _ => Failure [invalid_type "object" v]
       end |}.

(** [inner.nullable()] *)
Definition nullable (inner : schema) : schema :=
  {| safeParse := fun v =>
       match v with
       | Js.VNull => Success Js.VNull
       | _ => safeParse inner v
       end |}.

End Zod.

Module Types.

(** [BigIntSchema] *)
Definition BigIntSchema : Zod.schema :=
  Zod.transform Zod.string (fun val =>
    match val with
    | Js.VStr s =>
        match Js.BigInt s with
        | Some z => inl (Js.VBigInt z)
        | None =>
            inr {| Zod.issue_code := "custom"; Zod.issue_path := [];
                   Zod.issue_message :=
                     "Invalid BigInt value: " +:+ Zod.dquote +:+ s +:+ Zod.dquote |}
        end
    | _ => inl val
    end).

(** [/^0x[a-fA-F0-9]{n}$/.test(s)] *)
Definition is_hex (c : ascii) : bool :=
  match Js.digit_value 16 c with
  | Some _ => true
  | None => false
  end.

Fixpoint all_chars (p : ascii -> bool) (s : string) : bool :=
  match s with
  | EmptyString => true
  | String c r => p c && all_chars p r
  end.

Definition test_0x_hex (n : nat) (s : string) : bool :=
  String.prefix "0x" s &&
  Nat.eqb (String.length s) (2 + n) &&
  all_chars is_hex (Js.drop_string 2 s).

(** [AddressSchema] and [HashSchema] *)
Definition AddressSchema : Zod.schema :=
  Zod.string_regex (test_0x_hex 40) "Invalid Ethereum Address".

Definition HashSchema : Zod.schema :=
  Zod.string_regex (test_0x_hex 64) "Invalid Transaction Hash".

(** [NumberStringSchema] *)
Definition NumberStringSchema : Zod.schema :=
  Zod.transform Zod.string (fun val =>
    match val with
    | Js.VStr s =>
        let num := Js.Number s in
        inl (Js.VNum (if Js.isNaN num then Js.zero else num))
    | _ => inl val
    end).

(** [BlockCountdownSchema] *)
Definition BlockCountdownSchema : Zod.schema :=
  Zod.object [("CurrentBlock", Zod.string);
              ("CountdownBlock", Zod.string);
              ("RemainingBlock", NumberStringSchema);
              ("EstimateTimeInSec", Zod.string)].

(** [EvmChainId], as far as the capabilities name it *)
Definition MAINNET : Z := 1.
Definition SEPOLIA : Z := 11155111.
Definition HOLESKY : Z := 17000.

Record ChainCapabilities := mkCapabilities {
  hasBeaconChain : bool;
  hasTokenApprovals : bool
}.

(** [keyof ChainCapabilities] *)
Inductive capability :=
  | HasBeaconChain
  | HasTokenApprovals.

Definition capabilityName (c : capability) : string :=
  match c with
  | HasBeaconChain => "hasBeaconChain"
  | HasTokenApprovals => "hasTokenApprovals"
  end.

(** [capabilities[capability]] *)
Definition readCapability (caps : ChainCapabilities) (c : capability) : bool :=
  match c with
  | HasBeaconChain => hasBeaconChain caps
  | HasTokenApprovals => hasTokenApprovals caps
  end.

(** [CHAIN_CAPABILITIES]; the entry under [0] is the default. *)
Definition CHAIN_CAPABILITIES : list (Z * ChainCapabilities) :=
  [(MAINNET, {| hasBeaconChain := true; hasTokenApprovals := true |});
   (SEPOLIA, {| hasBeaconChain := true; hasTokenApprovals := true |});
   (HOLESKY, {| hasBeaconChain := true; hasTokenApprovals := true |});
   (0, {| hasBeaconChain := false; hasTokenApprovals := true |})].

(** [CHAIN_CAPABILITIES[chainId]] *)
Definition chainCapabilities (chainId : Z) : option ChainCapabilities :=
  snd <$> List.find (fun entry => fst entry =? chainId) CHAIN_CAPABILITIES.

(** [requireCapability(chainId, capability, methodName)]: an entry is an
    object, so [||] falls back to the default only where there is
    none. *)
Definition requireCapability (chainId : Z) (c : capability) (methodName : string)
  : Errors.outcome unit :=
  let capabilities :=
    match chainCapabilities chainId with
    | Some caps => Some caps
    | None => chainCapabilities 0
    end in
  match capabilities with
  | None => Errors.Throws (Errors.Native (Errors.ThrownError "TypeError" ""))
  | Some caps =>
      if negb (readCapability caps c) then
        Errors.Throws (Errors.Native (Errors.ThrownError "Error"
          ("Method " +:+ methodName +:+ " is not supported on chain " +:+
           Js.string_of_Z chainId +:+ " (missing " +:+ capabilityName c +:+ " capability)")))
      else Errors.Returns tt
  end.

End Types.

(** ** [GlobalRateLimiterRegistry] ([src/core/transport.ts])

    [Bottleneck] limiters are objects shared by reference: they live in
    a heap, and a registry entry holds the index of its limiter. *)

Module GlobalRateLimiterRegistry.

(** The options the registry passes to [new Bottleneck]; [minTime] is
    [None] when [1000 / reqPerSec] is not finite. *)
Record BottleneckOptions := mkOptions {
  minTime : option Z;
  maxConcurrent : Z;
  reservoir : Z;
  reservoirRefreshAmount : Z;
  reservoirRefreshInterval : Z
}.

(** A limiter: its options, and the argument of [stop] once it was
    called ([dropWaitingJobs]). *)
Record Bottleneck := mkLimiter {
  options : BottleneckOptions;
  stopped : option bool
}.

Record entry := mkEntry {
  limiter : nat;
  refCount : Z
}.

Record state := mkState {
  limiters : gmap string entry;
  heap : list Bottleneck
}.

Definition empty : state := {| limiters := ∅; heap := [] |}.

(** [Math.ceil(1000 / reqPerSec)] for an integer [reqPerSec] *)
Definition ceilPerSecond (reqPerSec : Z) : option Z :=
  if reqPerSec =? 0 then None else Some (- ((- 1000) / reqPerSec)).

(** [limiter.stop({ dropWaitingJobs })] on the limiter at index [l] *)
Definition stop (l : nat) (dropWaitingJobs : bool) (h : list Bottleneck) : list Bottleneck :=
  match h !! l with
  | Some b => <[l := {| options := options b; stopped := Some dropWaitingJobs |}]> h
  | None => h
  end.

Section WithHash.

(** [createHash('sha256').update(key).digest('hex')] *)
Variable hashKey : string -> string.

(** [getLimiter(apiKey, reqPerSec, reservoir, reservoirRefreshInterval)] *)
Definition getLimiter (apiKey : string) (reqPerSec : Z) (reservoir' : Z)
    (reservoirRefreshInterval' : Z) (st : state) : nat * state :=
  let keyHash := hashKey apiKey in
  let '(e, h) :=
    match limiters st !! keyHash with
    | Some e => (e, heap st)
    | None =>
        let b := {| options := {| minTime := ceilPerSecond reqPerSec;
                                  maxConcurrent := 2;
                                  reservoir := reservoir';
                                  reservoirRefreshAmount := reservoir';
                                  reservoirRefreshInterval := reservoirRefreshInterval' |};
                    stopped := None |} in
        ({| limiter := length (heap st); refCount := 0 |}, heap st ++ [b])
    end in
  (limiter e,
   {| limiters := <[keyHash := {| limiter := limiter e; refCount := refCount e + 1 |}]> (limiters st);
      heap := h |}).

(** [cleanup(apiKey)] *)
Definition cleanup (apiKey : string) (st : state) : state :=
  let keyHash := hashKey apiKey in
  match limiters st !! keyHash with
  | Some e =>
      let e' := {| limiter := limiter e; refCount := refCount e - 1 |} in
      if refCount e' <=? 0 then
        {| limiters := delete keyHash (limiters st);
           heap := stop (limiter e') false (heap st) |}
      else
        {| limiters := <[keyHash := e']> (limiters st); heap := heap st |}
  | None => st
  end.

(** The calls clients make on the registry. *)
Inductive call :=
  | Acquire (apiKey : string) (reqPerSec reservoir' reservoirRefreshInterval' : Z)
  | Release (apiKey : string).

(** The credential a call is made for. *)
Definition credential (c : call) : string :=
  match c with
  | Acquire apiKey _ _ _ => apiKey
  | Release apiKey => apiKey
  end.

Definition step (st : state) (c : call) : state :=
  match c with
  | Acquire k r q i => snd (getLimiter k r q i st)
  | Release k => cleanup k st
  end.

(** The states the registry goes through, from its initial empty map. *)
Definition run (calls : list call) : state := fold_left step calls empty.

(** Every entry counts one holder at least and its limiter runs; two
    entries never hold the same limiter; every key is the hash of a
    credential. *)
Definition sound (st : state) : Prop :=
  (forall h e, limiters st !! h = Some e ->
     1 <= refCount e /\ exists b, heap st !! limiter e = Some b /\ stopped b = None)
  /\ (forall h1 h2 e1 e2, limiters st !! h1 = Some e1 -> limiters st !! h2 = Some e2 ->
        limiter e1 = limiter e2 -> h1 = h2)
  /\ (forall h, is_Some (limiters st !! h) -> exists k, h = hashKey k).

End WithHash.

End GlobalRateLimiterRegistry.

(** ** [RequestDeduplicator] ([src/core/transport.ts], the module [./cache])

    Promises are objects with identity: a promise is its index in the
    list of the promises [deduplicate] created.  Each is recorded with
    the key its [finally] callback closes over and, once settled, with
    how it settled.  [invocations] lists the keys [requestFn] was called
    for.  One [deduplicate] call runs without suspension, so calls and
    settlements are the atomic steps of the event loop. *)

Module RequestDeduplicator.

Section WithResult.

(** How a promise settled: fulfilled with a value or rejected. *)
Context {R : Type}.

Record t := mkDedup {
  pendingRequests : gmap string nat;
  promises : list (string * option R);
  invocations : list string
}.

Definition create : t :=
  {| pendingRequests := ∅; promises := []; invocations := [] |}.

(** [deduplicate(key, requestFn)].  The method is [async]: what it
    hands back is resolved with the registered promise and settles as
    that one does; the model returns the registered promise. *)
Definition deduplicate (key : string) (d : t) : nat * t :=
  match pendingRequests d !! key with
  | Some existing => (existing, d)
  | None =>
      let promise := length (promises d) in
      (promise,
       {| pendingRequests := <[key := promise]> (pendingRequests d);
          promises := promises d ++ [(key, None)];
          invocations := invocations d ++ [key] |})
  end.

(** The promise [p] settles with [r]: its [finally] callback deletes
    the key it was created for.  A promise settles once. *)
Definition settle (p : nat) (r : R) (d : t) : t :=
  match promises d !! p with
  | Some (key, None) =>
      {| pendingRequests := delete key (pendingRequests d);
         promises := <[p := (key, Some r)]> (promises d);
         invocations := invocations d |}
  | _ => d
  end.


(** [clear()], [destroy()] and [size()] *)
Definition clear (d : t) : t :=
  {| pendingRequests := ∅; promises := promises d; invocations := invocations d |}.

Definition destroy (d : t) : t := clear d.

Definition size (d : t) : Z := Z.of_nat (base.size (pendingRequests d)).


(** The steps of the event loop on the deduplicator: the calls of its
    methods, and the settlements of the promises it created. *)
Inductive event :=
  | Call (key : string)
  | Settle (p : nat) (r : R)
  | Clear
  | Destroy.

Definition step (d : t) (e : event) : t :=
  match e with
  | Call key => snd (deduplicate key d)
  | Settle p r => settle p r d
  | Clear => clear d
  | Destroy => destroy d
  end.

Definition run (events : list event) : t := fold_left step events create.

(** [clear()] and [destroy()], the steps that empty the registry *)
Definition resets (e : event) : bool :=
  match e with
  | Clear | Destroy => true
  | _ => false
  end.

(** The registry holds exactly the promises that have not settled,
    each under the key it was created for. *)
Definition registered (d : t) : Prop :=
  forall key p,
    pendingRequests d !! key = Some p <-> promises d !! p = Some (key, None).


End WithResult.

Arguments t : clear implicits.
Arguments event : clear implicits.

End RequestDeduplicator.

(** ** [InterceptorManager] ([src/core/transport.ts], the module [./cache]) *)

Module InterceptorManager.

(** [Record<string, string | number | boolean | undefined>], in the
    order [Object.entries] lists it. *)
Definition Params := list (string * Js.value).

Record t := mkInterceptors {
  requestInterceptors : list (Params -> Params);
  responseInterceptors : list (Js.value -> Js.value)
}.

Definition create : t :=
  {| requestInterceptors := []; responseInterceptors := [] |}.

Definition addRequestInterceptor (f : Params -> Params) (m : t) : t :=
  {| requestInterceptors := requestInterceptors m ++ [f];
     responseInterceptors := responseInterceptors m |}.

Definition addResponseInterceptor (f : Js.value -> Js.value) (m : t) : t :=
  {| requestInterceptors := requestInterceptors m;
     responseInterceptors := responseInterceptors m ++ [f] |}.

(** [requestInterceptors.reduce((acc, f) => f(acc), params)] *)
Definition applyRequestInterceptors (m : t) (params : Params) : Params :=
  fold_left (fun acc f => f acc) (requestInterceptors m) params.

(** [responseInterceptors.reduce((acc, f) => f(acc), response)] *)
Definition applyResponseInterceptors (m : t) (response : Js.value) : Js.value :=
  fold_left (fun acc f => f acc) (responseInterceptors m) response.

Definition clear (m : t) : t := create.

End InterceptorManager.

(** ** [Transport] ([src/core/transport.ts]) *)

Module Transport.

Import Errors.

Definition V2_ENDPOINT : string := "https://api.etherscan.io/v2/api".

Definition MAX_RESPONSE_SIZE : Z := 50 * 1024 * 1024.

(** The built-ins of the platform the transport calls: [new URL(s)]
    with the [protocol] and [origin] it exposes ([None] when it throws),
    the text of a URL after pairs were appended to its [searchParams],
    and [JSON.parse] ([None] when it throws). *)
Class Platform := mkPlatform {
  parseURL : string -> option (string * string);
  serializeURL : string -> list (string * string) -> string;
  parseJSON : string -> option Js.value
}.

(** A [Response], as far as the transport reads it. *)
Record Response := mkResponse {
  ok : bool;
  status : Z;
  statusText : string;
  contentType : option string;
  contentLength : option string;
  text : string
}.

Inductive fetched :=
  | Resolves (r : Response)
  | Rejects (t : thrown).

Inductive event :=
  | Fetch (url : string)
  | Delay (ms : Z).

(** The world around one transport: the clock, the network, which
    answers the [n]-th [fetch] of the run by [network n url], and the
    fetches and timer waits so far. *)
Record World := mkWorld {
  now : Z;
  fetches : nat;
  network : nat -> string -> fetched;
  trace : list event
}.

(** [options] of [get] and [getWithUrl] *)
Record Options := mkRequestOptions {
  allowedContentTypes : option (list string)
}.

Record t := mkTransport {
  chainId : Z;
  apiKey : string;
  ALLOWED_BASE_URLS : list string;
  timeout : Z;
  maxRetries : Z;
  retryDelay : Z;
  cache : LRUCache.t Js.value;
  interceptors : InterceptorManager.t
}.

Definition withCache (tr : t) (c : LRUCache.t Js.value) : t :=
  {| chainId := chainId tr; apiKey := apiKey tr;
     ALLOWED_BASE_URLS := ALLOWED_BASE_URLS tr; timeout := timeout tr;
     maxRetries := maxRetries tr; retryDelay := retryDelay tr;
     cache := c; interceptors := interceptors tr |}.

(** The transport [tr] made for another chain and API key *)
Definition withCredentials (tr : t) (chain : Z) (key : string) : t :=
  {| chainId := chain; apiKey := key;
     ALLOWED_BASE_URLS := ALLOWED_BASE_URLS tr; timeout := timeout tr;
     maxRetries := maxRetries tr; retryDelay := retryDelay tr;
     cache := cache tr; interceptors := interceptors tr |}.

(** The engine's own errors; the text of their messages is not
    modelled. *)
Definition TypeError : thrown := ThrownError "TypeError" "".
Definition SyntaxError : thrown := ThrownError "SyntaxError" "".

(** [await fetch(url, { signal })] *)
Definition fetch (url : string) (w : World) : fetched * World :=
  (network w (fetches w) url,
   {| now := now w; fetches := S (fetches w); network := network w;
      trace := trace w ++ [Fetch url] |}).

(** [await this.delay(ms)] *)
Definition delay (ms : Z) (w : World) : World :=
  {| now := now w + Z.max 0 ms; fetches := fetches w; network := network w;
     trace := trace w ++ [Delay ms] |}.

(** [isRetryable(error)] *)
Definition isRetryable (error : thrown) : bool :=
  match error with
  | ThrownError name message =>
      String.eqb name "AbortError" ||
      Js.includes "ECONNRESET" message ||
      Js.includes "ETIMEDOUT" message ||
      Js.includes "ENOTFOUND" message ||
      Js.includes "ECONNREFUSED" message
  | ThrownValue _ => false
  end.

(** [fetchWithRetry(url, retries)], by recursion on the retries left:
    [budget] is [retries] as a natural number, so where it is [0] the
    test [retries > 0] of the source fails and the error is rethrown. *)
Fixpoint retryLoop (tr : t) (url : string) (budget : nat) (retries : Z) (w : World)
  : fetched * World :=
  let '(r, w1) := fetch url w in
  match r with
  | Resolves _ => (r, w1)
  | Rejects error =>
      match budget with
      | S budget' =>
          if (retries >? 0) && isRetryable error then
            retryLoop tr url budget' (retries - 1)
              (delay (retryDelay tr * (maxRetries tr - retries + 1)) w1)
          else (r, w1)
      | O => (r, w1)
      end
  end.

Definition fetchWithRetry (tr : t) (url : string) (retries : Z) (w : World)
  : fetched * World :=
  retryLoop tr url (Z.to_nat retries) retries w.

(** An answer after which [fetchWithRetry] stops, [left] retries being
    left: a response, an error that is not transient, or any error when
    nothing is left. *)
Definition final (left : Z) (r : fetched) : Prop :=
  match r with
  | Resolves _ => True
  | Rejects error => isRetryable error = false \/ left <= 0
  end.

Definition transient (r : fetched) : Prop :=
  exists error, r = Rejects error /\ isRetryable error = true.

(** The [try]/[catch] around [fetchWithRetry] in [getWithUrl] *)
Definition fetchOrFail (tr : t) (url : string) (w : World) : outcome Response * World :=
  match fetchWithRetry tr url (maxRetries tr) w with
  | (Resolves response, w') => (Returns response, w')
  | (Rejects err, w') =>
      (Throws match err with
              | ThrownError name _ =>
                  if String.eqb name "AbortError"
                  then EtherscanError "Request Timeout" 408 "TIMEOUT_ERROR"
                  else EtherscanError "Network Error" 0 "NETWORK_ERROR"
              | ThrownValue _ => EtherscanError "Network Error" 0 "NETWORK_ERROR"
              end, w')
  end.

(** [issues.map(i => `${i.path.join('.')}: ${i.message}`).join('; ')] *)
Definition formatIssues (issues : list Zod.issue) : string :=
  Js.join "; " (List.map (fun i => Js.join "." (Zod.issue_path i) +:+ ": " +:+ Zod.issue_message i)
                         issues).

(** [contentType?.includes(type)] *)
Definition headerIncludes (header : option string) (type : string) : bool :=
  match header with
  | Some h => Js.includes type h
  | None => false
  end.

(** [new APIError(message, result)]: the constructor lower-cases its
    message, which throws unless the message is a string. *)
Definition newAPIError (message result : Js.value) : error :=
  match message with
  | Js.VStr m => APIError m result
  | _ => Native TypeError
  end.

(** What the status-["0"] branch of the envelope does: return a value
    to the caller at once, or throw. *)
Definition failureStatus (schema : Zod.schema) (dataMessage dataResult : Js.value)
  : outcome Js.value :=
  if Js.strict_eq_string dataMessage "No transactions found" then
    if Zod.success (Zod.safeParse schema (Js.VArr [])) then Returns (Js.VArr [])
    else Returns Js.VNull
  else if Js.test_literal_i "rate limit" (Js.toString (Js.or_else dataResult (Js.VStr ""))) then
    Throws RateLimitError
  else
    let message := Js.or_else dataMessage (Js.VStr "") in
    let result := Js.or_else dataResult (Js.VStr "") in
    if Js.test_span_i "upgrade" "plan" (Js.toString message) ||
       Js.test_span_i "upgrade" "plan" (Js.toString result) ||
       Js.test_span_i "free" "not supported" (Js.toString result)
    then Throws (PlanUpgradeRequired message result)
    else Throws (newAPIError dataMessage dataResult).

Section WithPlatform.

Context `{Platform}.

(** The envelope branch of [getWithUrl], from [JSON.parse] to the
    value handed to validation: [inl] is an early [return] or [throw]. *)
Definition unwrapEnvelope (baseUrl : string) (schema : Zod.schema) (data : Js.value)
  : outcome Js.value + Zod.result :=
  if String.eqb baseUrl V2_ENDPOINT then
    match Js.getProp data "status" with
    | None => inl (Throws (Native TypeError))
    | Some dataStatus =>
        let dataMessage := default Js.VUndefined (Js.getProp data "message") in
        let dataResult := default Js.VUndefined (Js.getProp data "result") in
        if Js.strict_eq_string dataStatus "0" then
          inl (failureStatus schema dataMessage dataResult)
        else inr (Zod.safeParse schema dataResult)
    end
  else inr (Zod.safeParse schema data).

(** [getWithUrl] from the response on: the checks on the response, the
    envelope, validation, the cache write and the response
    interceptors.  [at] is [Date.now()] at the cache write. *)
Definition handleResponse (tr : t) (baseUrl : string) (schema : Zod.schema)
    (options : option Options) (cacheKey : string) (response : Response) (at_ : Z)
  : outcome Js.value * LRUCache.t Js.value :=
  let unchanged := cache tr in
  if negb (ok response) then
    (Throws (EtherscanError
               ("HTTP " +:+ Js.string_of_Z (status response) +:+ ": " +:+ statusText response)
               (status response) "UNKNOWN_ERROR"), unchanged)
  else
    let allowedTypes :=
      "application/json" :: default [] (options ≫= allowedContentTypes) in
    let isAllowedType := existsb (headerIncludes (contentType response)) allowedTypes in
    if negb isAllowedType then
      (Throws (EtherscanError
                 ("Invalid response content-type: " +:+ default "null" (contentType response)
                  +:+ ". Allowed: " +:+ Js.join ", " allowedTypes)
                 500 "INVALID_CONTENT_TYPE"), unchanged)
    else if Js.truthy_opt_string (contentLength response) &&
            match contentLength response ≫= Js.parseInt with
            | Some n => n >? MAX_RESPONSE_SIZE
            | None => false
            end
    then
      (Throws (EtherscanError "Response size exceeds maximum allowed" 413 "RESPONSE_TOO_LARGE"),
       unchanged)
    else if Js.strlen (text response) >? MAX_RESPONSE_SIZE then
      (Throws (EtherscanError "Response size exceeds maximum allowed" 413 "RESPONSE_TOO_LARGE"),
       unchanged)
    else if negb (headerIncludes (contentType response) "application/json") then
      match Zod.safeParse schema (Js.VStr (text response)) with
      | Zod.Failure issues =>
          (Throws (ValidationError ("Failed to parse response: " +:+ formatIssues issues)),
           unchanged)
      | Zod.Success validatedData =>
          (Returns (InterceptorManager.applyResponseInterceptors (interceptors tr) validatedData),
           LRUCache.set at_ cacheKey validatedData None (cache tr))
      end
    else
      match parseJSON (text response) with
      | None => (Throws (Native SyntaxError), unchanged)
      | Some data =>
          match unwrapEnvelope baseUrl schema data with
          | inl early => (early, unchanged)
          | inr (Zod.Failure issues) =>
              (Throws (ValidationError
                         ("Failed to parse Etherscan response: " +:+ formatIssues issues)),
               unchanged)
          | inr (Zod.Success validatedData) =>
              (Returns (InterceptorManager.applyResponseInterceptors (interceptors tr)
                          validatedData),
               LRUCache.set at_ cacheKey validatedData None (cache tr))
          end
      end.

(** The [chainid] and [apikey] pairs of the standard endpoint *)
Definition credentials (tr : t) (baseUrl : string) : list (string * string) :=
  if String.eqb baseUrl V2_ENDPOINT
  then [("chainid", Js.string_of_Z (chainId tr)); ("apikey", apiKey tr)]
  else [].

Fixpoint insertSorted (k : string) (l : list string) : list string :=
  match l with
  | [] => [k]
  | x :: r => if String.leb k x then k :: l else x :: insertSorted k r
  end.

(** [keys.sort()] *)
Definition sortKeys (keys : list string) : list string :=
  fold_right insertSorted [] keys.

(** The pairs appended for the given keys: [params[key]], unless it is
    [undefined], as [String(value)]. *)
Definition definedPairs (keys : list string) (params : InterceptorManager.Params)
  : list (string * string) :=
  flat_map (fun key =>
              match default Js.VUndefined (Js.assoc key params) with
              | Js.VUndefined => []
              | value => [(key, Js.toString value)]
              end) keys.

(** [createCacheKey(baseUrl, params)] *)
Definition createCacheKey (tr : t) (baseUrl : string) (params : InterceptorManager.Params)
  : string :=
  serializeURL baseUrl
    (credentials tr baseUrl ++ definedPairs (sortKeys (List.map fst params)) params).

(** The URL the scheduled job fetches *)
Definition requestUrl (tr : t) (baseUrl : string) (params : InterceptorManager.Params)
  : string :=
  serializeURL baseUrl
    (credentials tr baseUrl ++
     flat_map (fun '(key, value) =>
                 match value with
                 | Js.VUndefined => []
                 | _ => [(key, Js.toString value)]
                 end) params).

(** The job [getWithUrl] hands to the deduplicator and the limiter *)
Definition requestJob (tr : t) (baseUrl : string) (params : InterceptorManager.Params)
    (schema : Zod.schema) (options : option Options) (cacheKey : string) (w : World)
  : outcome Js.value * t * World :=
  match fetchOrFail tr (requestUrl tr baseUrl params) w with
  | (Throws e, w') => (Throws e, tr, w')
  | (Returns response, w') =>
      let '(r, c) := handleResponse tr baseUrl schema options cacheKey response (now w') in
      (r, withCache tr c, w')
  end.

(** [allowed => { try { ... origin === origin } catch { return false } }] *)
Definition sameOrigin (baseUrl allowed : string) : bool :=
  match parseURL allowed, parseURL baseUrl with
  | Some (_, allowedOrigin), Some (_, requestOrigin) => String.eqb requestOrigin allowedOrigin
  | _, _ => false
  end.

(** [getWithUrl(baseUrl, params, schema, options)], run on its own: no
    request with the same key is pending in the deduplicator, so the
    job is started, and the limiter, which is not stopped, runs it. *)
Definition getWithUrl (tr : t) (baseUrl : string) (params : InterceptorManager.Params)
    (schema : Zod.schema) (options : option Options) (w : World)
  : outcome Js.value * t * World :=
  if negb (existsb (sameOrigin baseUrl) (ALLOWED_BASE_URLS tr)) then
    (Throws (EtherscanError "Invalid API endpoint - URL not in allowlist" 400 "INVALID_ENDPOINT"),
     tr, w)
  else
    match parseURL baseUrl with
    | None => (Throws (Native TypeError), tr, w)
    | Some (protocol, _) =>
        if negb (String.eqb protocol "https:") then
          (Throws (EtherscanError "Insecure protocol detected - only HTTPS allowed" 400
                     "INSECURE_PROTOCOL"), tr, w)
        else
          let interceptedParams :=
            InterceptorManager.applyRequestInterceptors (interceptors tr) params in
          let cacheKey := createCacheKey tr baseUrl interceptedParams in
          let '(cachedResult, c) := LRUCache.get (now w) cacheKey (cache tr) in
          let tr1 := withCache tr c in
          match cachedResult with
          | Some Js.VNull | None =>
              requestJob tr1 baseUrl interceptedParams schema options cacheKey w
          | Some hit =>
              (Returns (InterceptorManager.applyResponseInterceptors (interceptors tr) hit),
               tr1, w)
          end
    end.

(** The response passes the checks [getWithUrl] makes before it reads
    the envelope, and its body is JSON text for [data]. *)
Definition jsonBody (response : Response) (data : Js.value) : Prop :=
  ok response = true
  /\ headerIncludes (contentType response) "application/json" = true
  /\ (Js.truthy_opt_string (contentLength response) &&
      match contentLength response ≫= Js.parseInt with
      | Some n => n >? MAX_RESPONSE_SIZE
      | None => false
      end) = false
  /\ (Js.strlen (text response) >? MAX_RESPONSE_SIZE) = false
  /\ parseJSON (text response) = Some data.

(** A call of [getWithUrl] on the standard endpoint at [w] goes to the
    network and is answered by
    [response], leaving the world at [w']: the standard endpoint is
    allowed and secure, the cache holds nothing for the request, and
    the fetch, retries included, resolves. *)
Definition answered (tr : t) (params : InterceptorManager.Params) (w : World)
    (response : Response) (w' : World) : Prop :=
  let interceptedParams :=
    InterceptorManager.applyRequestInterceptors (interceptors tr) params in
  existsb (sameOrigin V2_ENDPOINT) (ALLOWED_BASE_URLS tr) = true
  /\ (exists origin, parseURL V2_ENDPOINT = Some ("https:", origin))
  /\ match (LRUCache.get (now w) (createCacheKey tr V2_ENDPOINT interceptedParams)
              (cache tr)).1 with
     | Some Js.VNull | None => True
     | Some _ => False
     end
  /\ fetchOrFail tr (requestUrl tr V2_ENDPOINT interceptedParams) w = (Returns response, w').

(** [get(params, schema, options)] *)
Definition get (tr : t) (params : InterceptorManager.Params) (schema : Zod.schema)
    (options : option Options) (w : World) : outcome Js.value * t * World :=
  getWithUrl tr V2_ENDPOINT params schema options w.

End WithPlatform.

End Transport.

(** ** [Validators] ([src/core/transport.ts], the module [./validators]) *)

Module Validators.

Import Errors.

Definition MAX_STRING_LENGTH : Z := 10000.
Definition MAX_ADDRESSES : Z := 20.

(** [addressSchema(value, fieldName)] *)
Definition addressSchema (value : option string) (fieldName : string) : outcome unit :=
  if negb (Js.truthy_opt_string value) then Returns tt
  else
    let v := default "" value in
    if Js.strlen v >? MAX_STRING_LENGTH then
      Throws (ValidationError (fieldName +:+ " exceeds maximum length of " +:+
                               Js.string_of_Z MAX_STRING_LENGTH))
    else
      match Zod.safeParse Types.AddressSchema (Js.VStr v) with
      | Zod.Success _ => Returns tt
      | Zod.Failure _ => Throws (ValidationError ("Invalid " +:+ fieldName +:+ ": " +:+ v))
      end.

(** [address(value, fieldName)] *)
Definition address (value : option string) (fieldName : string) : outcome unit :=
  addressSchema value fieldName.

(** [list.forEach(check)], stopping at the first throw *)
Fixpoint forEach {A : Type} (check : nat -> A -> outcome unit) (i : nat) (l : list A)
  : outcome unit :=
  match l with
  | [] => Returns tt
  | x :: rest =>
      match check i x with
      | Returns _ => forEach check (S i) rest
      | Throws e => Throws e
      end
  end.

(** [addressList(value, fieldName)] *)
Definition addressList (value : option string) (fieldName : string) : outcome unit :=
  if negb (Js.truthy_opt_string value) then Returns tt
  else
    let v := default "" value in
    if Js.strlen v >? MAX_STRING_LENGTH then
      Throws (ValidationError (fieldName +:+ " exceeds maximum length"))
    else
      let addresses := List.map Js.trim (Js.split "," v) in
      if Z.of_nat (length addresses) >? MAX_ADDRESSES then
        Throws (ValidationError ("Too many addresses in " +:+ fieldName +:+ " (max: " +:+
                                 Js.string_of_Z MAX_ADDRESSES +:+ ")"))
      else forEach (fun _ addr => address (Some addr) fieldName) 0 addresses.

End Validators.

(** ** [Account.getBalance] ([src/resources/account.ts]) *)

Module Account.

Import Errors.

Section WithPlatform.

Context `{Transport.Platform}.

(** The object form of the argument: [{ address, tag? }] *)
Record BalanceParams := mkBalanceParams {
  address : string;
  tag : option string
}.

Definition optString (o : option string) : Js.value :=
  match o with
  | Some s => Js.VStr s
  | None => Js.VUndefined
  end.

(** [result[key] = v] on a plain object *)
Fixpoint setProp (key : string) (v : Js.value) (fields : list (string * Js.value))
  : list (string * Js.value) :=
  match fields with
  | [] => [(key, v)]
  | (k, x) :: rest =>
      if String.eqb k key then (k, v) :: rest else (k, x) :: setProp key v rest
  end.

(** [response.forEach(item => { result[item.account] = item.balance })];
    [None] is the [TypeError] of a read on [null] or [undefined]. *)
Fixpoint toRecord (items : list Js.value) (result : list (string * Js.value))
  : option (list (string * Js.value)) :=
  match items with
  | [] => Some result
  | item :: rest =>
      match Js.getProp item "account", Js.getProp item "balance" with
      | Some account, Some balance => toRecord rest (setProp (Js.toString account) balance result)
      | _, _ => None
      end
  end.

(** [address.split(',').map(addr => addr.trim()).filter(addr => addr.length > 0)] *)
Definition splitAddresses (address : string) : list string :=
  List.filter (fun addr => Js.strlen addr >? 0) (List.map Js.trim (Js.split "," address)).

(** [params] of [getBalance], from either form of its arguments *)
Definition balanceParams (addressOrParams : string + BalanceParams) (tag' : option string)
  : BalanceParams :=
  match addressOrParams with
  | inl a => {| address := a; tag := tag' |}
  | inr p => p
  end.

Definition BalanceMultiSchema : Zod.schema :=
  Zod.array (Zod.object [("account", Zod.string); ("balance", Types.BigIntSchema)]).

(** [getBalance(addressOrParams, tag)] on a client that is not
    disposed *)
Definition getBalance (tr : Transport.t) (addressOrParams : string + BalanceParams)
    (tag' : option string) (w : Transport.World)
  : outcome Js.value * Transport.t * Transport.World :=
  let params := balanceParams addressOrParams tag' in
  let addresses := splitAddresses (address params) in
  match addresses with
  | [single] =>
      match Validators.addressSchema (Some single) "address" with
      | Throws e => (Throws e, tr, w)
      | Returns _ =>
          Transport.get tr
            [("module", Js.VStr "account"); ("action", Js.VStr "balance");
             ("address", Js.VStr single); ("tag", optString (tag params))]
            Types.BigIntSchema None w
      end
  | [] => (Throws (Native (ThrownError "Error" "At least one address is required")), tr, w)
  | _ =>
      if Z.of_nat (length addresses) >? 20 then
        (Throws (Native (ThrownError "Error" "Cannot query more than 20 addresses at once")),
         tr, w)
      else
        match Validators.forEach
                (fun index addr =>
                   Validators.addressSchema (Some addr)
                     ("address[" +:+ Js.string_of_Z (Z.of_nat index) +:+ "]"))
                0 addresses with
        | Throws e => (Throws e, tr, w)
        | Returns _ =>
            match Transport.get tr
                    [("module", Js.VStr "account"); ("action", Js.VStr "balancemulti");
                     ("address", Js.VStr (Js.join "," addresses));
                     ("tag", Js.VStr (if Js.truthy_opt_string (tag params)
                                      then default "" (tag params) else "latest"))]
                    BalanceMultiSchema None w with
            | (Throws e, tr', w') => (Throws e, tr', w')
            | (Returns (Js.VArr items), tr', w') =>
                match toRecord items [] with
                | Some result => (Returns (Js.VObj result), tr', w')
                | None => (Throws (Native Transport.TypeError), tr', w')
                end
            | (Returns _, tr', w') => (Throws (Native Transport.TypeError), tr', w')
            end
        end
  end.

End WithPlatform.

End Account.

(** ** [EtherscanClient]

    A client owns a transport; the limiter and the deduplicator of that
    transport are kept beside it.  The registry of limiters is shared by
    all clients, so the constructor and [dispose] pass its state on.
    [validateChainId] only writes a warning and is left out. *)

Module EtherscanClient.

Import Errors.

Record ClientOptions := mkClientOptions {
  o_apiKey : option string;
  o_chain : option Z;
  o_rateLimit : option Z;
  o_timeout : option Z;
  o_maxRetries : option Z;
  o_retryDelay : option Z;
  o_allowedBaseUrls : option (list string);
  o_reservoir : option Z;
  o_reservoirRefreshInterval : option Z
}.

Definition noOptions : ClientOptions :=
  {| o_apiKey := None; o_chain := None; o_rateLimit := None; o_timeout := None;
     o_maxRetries := None; o_retryDelay := None; o_allowedBaseUrls := None;
     o_reservoir := None; o_reservoirRefreshInterval := None |}.

Record t := mkClient {
  transport : Transport.t;
  limiter : nat;
  deduplicator : RequestDeduplicator.t (outcome Js.value);
  disposed : bool
}.

Section WithHash.

Variable hashKey : string -> string.

(** [new EtherscanClient(options)], [env] being
    [process.env.ETHERSCAN_API_KEY]; the defaults are those of the
    parameters of [new Transport(...)]. *)
Definition create (options : ClientOptions) (env : option string)
    (st : GlobalRateLimiterRegistry.state)
  : outcome t * GlobalRateLimiterRegistry.state :=
  let apiKey := if Js.truthy_opt_string (o_apiKey options) then o_apiKey options else env in
  if negb (Js.truthy_opt_string apiKey) then
    (Throws (Native (ThrownError "Error" "API Key is required")), st)
  else
    let key := default "" apiKey in
    let '(l, st') :=
      GlobalRateLimiterRegistry.getLimiter hashKey key
        (default 3 (o_rateLimit options))
        (default 100000 (o_reservoir options))
        (default (24 * 60 * 60 * 1000) (o_reservoirRefreshInterval options)) st in
    (Returns
       {| transport :=
            {| Transport.chainId := default Types.MAINNET (o_chain options);
               Transport.apiKey := key;
               Transport.ALLOWED_BASE_URLS :=
                 default ["https://api.etherscan.io"] (o_allowedBaseUrls options);
               Transport.timeout := default 30000 (o_timeout options);
               Transport.maxRetries := default 3 (o_maxRetries options);
               Transport.retryDelay := default 1000 (o_retryDelay options);
               Transport.cache := LRUCache.create LRUCache.noOverrides;
               Transport.interceptors := InterceptorManager.create |};
          limiter := l;
          deduplicator := RequestDeduplicator.create;
          disposed := false |},
     st').

(** [dispose()], with [Transport.dispose()] in it *)
Definition dispose (c : t) (st : GlobalRateLimiterRegistry.state)
  : t * GlobalRateLimiterRegistry.state :=
  if disposed c then (c, st)
  else
    ({| transport :=
          Transport.withCache (transport c) (LRUCache.clear (Transport.cache (transport c)));
        limiter := limiter c;
        deduplicator := RequestDeduplicator.destroy (deduplicator c);
        disposed := true |},
     GlobalRateLimiterRegistry.cleanup hashKey (Transport.apiKey (transport c)) st).

End WithHash.

(** [checkDisposed()] *)
Definition checkDisposed (c : t) : outcome unit :=
  if disposed c then Throws (EtherscanError "Client has been disposed" 500 "CLIENT_DISPOSED")
  else Returns tt.

(** [getCacheStats()] *)
Definition getCacheStats (c : t) : outcome (Z * Z * bool) :=
  match checkDisposed c with
  | Throws e => Throws e
  | Returns _ => Returns (LRUCache.stats (Transport.cache (transport c)))
  end.

(** [clearCache()] *)
Definition clearCache (c : t) : outcome unit * t :=
  match checkDisposed c with
  | Throws e => (Throws e, c)
  | Returns _ =>
      (Returns tt,
       {| transport :=
            Transport.withCache (transport c) (LRUCache.clear (Transport.cache (transport c)));
          limiter := limiter c; deduplicator := deduplicator c; disposed := disposed c |})
  end.

Section WithPlatform.

Context `{Transport.Platform}.

(** [client.account.getBalance(addressOrParams, tag)]: the proxy made by
    [createDisposalCheckedInstance] calls [checkDisposed] before the
    method. *)
Definition accountGetBalance (c : t) (addressOrParams : string + Account.BalanceParams)
    (tag' : option string) (w : Transport.World)
  : outcome Js.value * t * Transport.World :=
  match checkDisposed c with
  | Throws e => (Throws e, c, w)
  | Returns _ =>
      let '(r, tr, w') := Account.getBalance (transport c) addressOrParams tag' w in
      (r, {| transport := tr; limiter := limiter c; deduplicator := deduplicator c;
             disposed := disposed c |}, w')
  end.

End WithPlatform.

End EtherscanClient.

(** ** A platform for examples

    URLs without escapes, and [JSON.parse] as the inverse of a small
    [JSON.stringify] on a table of bodies. *)

Module Mock.

Fixpoint hostOf (s : string) : string :=
  match s with
  | EmptyString => EmptyString
  | String c r =>
      if (Js.code c =? 47) || (Js.code c =? 63) || (Js.code c =? 35) then EmptyString
      else String c (hostOf r)
  end.

Definition parseURL (s : string) : option (string * string) :=
  if String.prefix "https://" s then
    Some ("https:", "https://" +:+ hostOf (Js.drop_string 8 s))
  else if String.prefix "http://" s then
    Some ("http:", "http://" +:+ hostOf (Js.drop_string 7 s))
  else None.

Definition serializeURL (base : string) (pairs : list (string * string)) : string :=
  match pairs with
  | [] => base
  | _ => base +:+ "?" +:+ Js.join "&" (List.map (fun '(k, v) => k +:+ "=" +:+ v) pairs)
  end.

Definition quoted (s : string) : string := Zod.dquote +:+ s +:+ Zod.dquote.

Fixpoint stringify (v : Js.value) : string :=
  match v with
  | Js.VUndefined => "undefined"
  | Js.VNull => "null"
  | Js.VBool b => if b then "true" else "false"
  | Js.VNum n => Js.number_toString n
  | Js.VBigInt z => Js.string_of_Z z
  | Js.VStr s => quoted s
  | Js.VArr items => "[" +:+ Js.join "," (List.map stringify items) +:+ "]"
  | Js.VObj fields =>
      "{" +:+ Js.join "," (List.map (fun kv => quoted kv.1 +:+ ":" +:+ stringify kv.2) fields)
      +:+ "}"
  end.

Definition envelope (status message : string) (result : Js.value) : Js.value :=
  Js.VObj [("status", Js.VStr status); ("message", Js.VStr message); ("result", result)].

(** The bodies the examples use. *)
Definition noTransactions : Js.value := envelope "0" "No transactions found" (Js.VStr "").
Definition rateLimitInResult : Js.value :=
  envelope "0" "NOTOK" (Js.VStr "Max rate limit reached, please use API Key for higher rate limit").
Definition rateLimitInMessage : Js.value :=
  envelope "0" "Max rate limit reached" (Js.VStr "").
Definition balanceOk : Js.value := envelope "1" "OK" (Js.VStr "1000000000000000000").

Definition bodies : list Js.value :=
  [noTransactions; rateLimitInResult; rateLimitInMessage; balanceOk].

Definition parseJSON (text : string) : option Js.value :=
  List.find (fun v => String.eqb (stringify v) text) bodies.

#[global] Instance platform : Transport.Platform :=
  {| Transport.parseURL := parseURL;
     Transport.serializeURL := serializeURL;
     Transport.parseJSON := parseJSON |}.

(** A [200] response with a JSON body *)
Definition jsonResponse (data : Js.value) : Transport.Response :=
  {| Transport.ok := true; Transport.status := 200; Transport.statusText := "OK";
     Transport.contentType := Some "application/json; charset=utf-8";
     Transport.contentLength := None;
     Transport.text := stringify data |}.

(** [new Transport(1, apiKey, ...)] with the given retry budget and
    interceptors, the other settings at their defaults *)
Definition transport (maxRetries : Z) (m : InterceptorManager.t) : Transport.t :=
  {| Transport.chainId := 1; Transport.apiKey := "KEY";
     Transport.ALLOWED_BASE_URLS := ["https://api.etherscan.io"];
     Transport.timeout := 30000; Transport.maxRetries := maxRetries;
     Transport.retryDelay := 1000;
     Transport.cache := LRUCache.create LRUCache.noOverrides;
     Transport.interceptors := m |}.

(** Twenty-one well-formed addresses, joined by commas *)
Definition twentyOneAddresses : string :=
  Js.join "," (List.repeat "0x0000000000000000000000000000000000000000" 21).

(** A world whose network answers fetch [n] with [answers !! n], and
    resets the connection once the list is used up. *)
Definition world (answers : list Transport.fetched) : Transport.World :=
  {| Transport.now := 0; Transport.fetches := 0;
     Transport.network := fun n _ =>
       default (Transport.Rejects (Errors.ThrownError "Error" "read ECONNRESET")) (answers !! n);
     Transport.trace := [] |}.

(** A cache of three entries at most, filled in the order a, b, c *)
Definition threeKeys : LRUCache.t nat :=
  LRUCache.set 2 "c" 3%nat None
    (LRUCache.set 1 "b" 2%nat None
       (LRUCache.set 0 "a" 1%nat None
          (LRUCache.create (LRUCache.mkPartial (Some 3) None None)))).

End Mock.

(** ** The words of the specification *)

Module Spec.

(** Follows the specification's words: the integer a string of decimal
    digits denotes, digit by digit with its power of ten. *)
Fixpoint decimalValue (s : string) : Z :=
  match s with
  | EmptyString => 0
  | String c r => (Js.code c - 48) * 10 ^ Z.of_nat (String.length r) + decimalValue r
  end.

(** A non-empty string of decimal digits *)
Definition isDecimal (s : string) : bool :=
  negb (String.eqb s "") && Types.all_chars Js.is_digit s.

(** What the specification calls a valid integer literal: one decimal
    digit or more, with a sign or without, or a radix prefix and one
    digit of that radix or more. *)
Definition isIntegerLiteral (s : string) : bool :=
  match Js.radix_prefix s with
  | Some (radix, body) =>
      negb (String.eqb body "") &&
      Types.all_chars (fun c => bool_decide (is_Some (Js.digit_value radix c))) body
  | None =>
      let digits :=
        match s with
        | String c r => if (Js.code c =? 45) || (Js.code c =? 43) then r else s
        | EmptyString => s
        end in
      isDecimal digits
  end.

(** The timer waits and fetches of [n] retries in a row, the first of
    them being retry number [k]: before retry [k] the transport waits
    [retryDelay * k]. *)
Fixpoint retrySchedule (url : string) (retryDelay : Z) (k : Z) (n : nat)
  : list Transport.event :=
  match n with
  | O => []
  | S n' =>
      Transport.Delay (retryDelay * k) :: Transport.Fetch url
        :: retrySchedule url retryDelay (k + 1) n'
  end.

(** The typed errors of a failed network call *)
Definition isNetworkOrTimeout (e : Errors.error) : bool :=
  match e with
  | Errors.EtherscanError "Request Timeout" 408 "TIMEOUT_ERROR" => true
  | Errors.EtherscanError "Network Error" 0 "NETWORK_ERROR" => true
  | _ => false
  end.

End Spec.

(** * Properties *)

(** ** The cache bound, where it holds *)

Section OrderedSetFacts.

Implicit Types (k x : string) (s : OrderedSet.t).

Lemma elem_of_OrderedSet_delete k s x :
  x ∈ OrderedSet.delete k s <-> x ∈ s /\ x <> k.
Proof.
  unfold OrderedSet.delete. rewrite !list_elem_of_In, filter_In, negb_true_iff.
  now rewrite String.eqb_neq.
Qed.

Lemma NoDup_OrderedSet_delete k s : NoDup s -> NoDup (OrderedSet.delete k s).
Proof.
  induction s as [|x s IH]; intros Hnd; [exact Hnd|].
  apply NoDup_cons in Hnd as [Hnotin Hnd].
  change (OrderedSet.delete k (x :: s))
    with (if negb (String.eqb x k) then x :: OrderedSet.delete k s else OrderedSet.delete k s).
  destruct (negb (String.eqb x k)); [|now apply IH].
  apply NoDup_cons. split; [|now apply IH].
  rewrite elem_of_OrderedSet_delete. tauto.
Qed.

Lemma OrderedSet_has_true k s : OrderedSet.has k s = true <-> k ∈ s.
Proof.
  unfold OrderedSet.has. rewrite existsb_exists, list_elem_of_In. split.
  - intros (x & Hin & Heq). apply String.eqb_eq in Heq. now subst.
  - intros Hin. exists k. split; [exact Hin|apply String.eqb_refl].
Qed.

Lemma elem_of_OrderedSet_add k s x :
  x ∈ OrderedSet.add k s <-> x ∈ s \/ x = k.
Proof.
  unfold OrderedSet.add. destruct (OrderedSet.has k s) eqn:E.
  - apply OrderedSet_has_true in E. split; [auto|]. intros [Hin| ->]; assumption.
  - rewrite elem_of_app, list_elem_of_singleton. reflexivity.
Qed.

Lemma NoDup_OrderedSet_add k s : NoDup s -> NoDup (OrderedSet.add k s).
Proof.
  intros Hnd. unfold OrderedSet.add. destruct (OrderedSet.has k s) eqn:E; [exact Hnd|].
  apply NoDup_app. split; [exact Hnd|]. split; [|apply NoDup_singleton].
  intros x Hx Hk. apply list_elem_of_singleton in Hk. subst x.
  apply OrderedSet_has_true in Hx. congruence.
Qed.

(** Deleting the head of a duplicate-free order leaves its tail. *)
Lemma OrderedSet_delete_head k s : NoDup (k :: s) -> OrderedSet.delete k (k :: s) = s.
Proof.
  intros Hnd. apply NoDup_cons in Hnd as [Hnotin _].
  unfold OrderedSet.delete. simpl. rewrite String.eqb_refl. simpl.
  induction s as [|x s IH]; simpl; [reflexivity|].
  destruct (String.eqb x k) eqn:E.
  - apply String.eqb_eq in E. subst. exfalso. apply Hnotin. left.
  - simpl. f_equal. apply IH. intros Hin. apply Hnotin. now right.
Qed.

Lemma OrderedSet_add_new k s : k ∉ s -> OrderedSet.add k s = s ++ [k].
Proof.
  intros Hnotin. unfold OrderedSet.add. destruct (OrderedSet.has k s) eqn:E; [|reflexivity].
  apply OrderedSet_has_true in E. contradiction.
Qed.

End OrderedSetFacts.

Section CacheFacts.

Import LRUCache.

Context {T : Type}.

Implicit Types (c : LRUCache.t T) (key : string).

Lemma consistent_length c :
  consistent c -> length (accessOrder c) = base.size (cache c).
Proof.
  intros (Hnd & Hkeys & _).
  rewrite <- (size_dom (D := gset string) (cache c)).
  rewrite <- (size_list_to_set (C := gset string) _ Hnd).
  f_equal. apply set_eq. intros k.
  rewrite elem_of_dom, elem_of_list_to_set. now rewrite Hkeys.
Qed.

Lemma consistent_delete c key : consistent c -> consistent (delete key c).2.
Proof.
  intros (Hnd & Hkeys & Hne). unfold delete.
  destruct (cache c !! key) eqn:E; simpl; [|exact (conj Hnd (conj Hkeys Hne))].
  unfold consistent; simpl.
  split; [now apply NoDup_OrderedSet_delete|]. split.
  - intros k. rewrite elem_of_OrderedSet_delete, Hkeys, lookup_delete_is_Some.
    split; intros []; split; congruence.
  - rewrite elem_of_OrderedSet_delete. tauto.
Qed.

Lemma config_delete c key : config (delete key c).2 = config c.
Proof. unfold delete. now destruct (cache c !! key). Qed.

Lemma size_delete c key : size (delete key c).2 <= size c.
Proof.
  unfold delete, size. destruct (cache c !! key) eqn:E; simpl; [|lia].
  rewrite map_size_delete, E. simpl. lia.
Qed.

Lemma size_delete_present c key :
  is_Some (cache c !! key) -> size (delete key c).2 = size c - 1.
Proof.
  intros [e E]. unfold delete, size. rewrite E. simpl.
  rewrite map_size_delete, E. simpl.
  assert (base.size (cache c) <> 0%nat) by (apply map_size_ne_0_lookup_2 with key; eauto).
  lia.
Qed.

Lemma withinBound_delete c key : withinBound c -> withinBound (delete key c).2.
Proof.
  intros (Hc & Hsize & Hmax). split; [now apply consistent_delete|].
  rewrite config_delete. split; [|exact Hmax].
  pose proof (size_delete c key). lia.
Qed.

(** Refreshing a key that is held keeps the keys as they are. *)
Lemma consistent_touch c key (e : CacheEntry T) :
  consistent c -> is_Some (cache c !! key) ->
  consistent {| cache := <[key := e]> (cache c);
                accessOrder := touch key (accessOrder c);
                config := config c |}.
Proof.
  intros (Hnd & Hkeys & Hne) Hheld. unfold touch, consistent; simpl.
  split; [now apply NoDup_OrderedSet_add, NoDup_OrderedSet_delete|]. split.
  - intros k. rewrite elem_of_OrderedSet_add, elem_of_OrderedSet_delete, Hkeys,
      lookup_insert_is_Some'.
    destruct (decide (k = key)) as [->|Hk]; [tauto|]. split.
    + intros [[Hs _]| ->]; [now right|congruence].
    + intros [->|Hs]; [congruence|now left].
  - rewrite elem_of_OrderedSet_add, elem_of_OrderedSet_delete.
    intros [[Hin _]|Heq]; [contradiction|].
    apply Hne. rewrite Heq. now apply Hkeys.
Qed.

(** Adding a new, non-empty key *)
Lemma consistent_add c key (e : CacheEntry T) :
  consistent c -> key <> "" ->
  consistent {| cache := <[key := e]> (cache c);
                accessOrder := OrderedSet.add key (accessOrder c);
                config := config c |}.
Proof.
  intros (Hnd & Hkeys & Hne) Hkey. unfold consistent; simpl.
  split; [now apply NoDup_OrderedSet_add|]. split.
  - intros k. rewrite elem_of_OrderedSet_add, Hkeys, lookup_insert_is_Some'.
    split; intros [|]; auto.
  - rewrite elem_of_OrderedSet_add. intros [Hin|Heq]; [contradiction|congruence].
Qed.

(** On a consistent cache that holds an entry, the eviction of [set]
    and the turn of [updateConfig]'s loop both delete the head of the
    access order. *)
Lemma evict_head c :
  consistent c -> 0 < size c ->
  exists lru rest,
    accessOrder c = lru :: rest
    /\ is_Some (cache c !! lru)
    /\ evictInSet c = (delete lru c).2
    /\ evictStep c = (delete lru c).2
    /\ accessOrder (delete lru c).2 = rest.
Proof.
  intros Hc Hsize. pose proof (consistent_length c Hc) as Hlen.
  destruct Hc as (Hnd & Hkeys & Hne).
  destruct (accessOrder c) as [|lru rest] eqn:Horder;
    [unfold size in Hsize; simpl in Hlen; lia|].
  assert (is_Some (cache c !! lru)) as Hheld by (apply Hkeys; left).
  assert (Js.truthy_string lru = true) as Htruthy.
  { unfold Js.truthy_string. apply negb_true_iff, String.eqb_neq.
    intros ->. apply Hne. left. }
  exists lru, rest. split; [reflexivity|]. split; [exact Hheld|].
  unfold evictInSet, evictStep, delete. rewrite Horder. simpl. rewrite Htruthy.
  destruct Hheld as [e He]. rewrite He. cbn [snd accessOrder].
  split; [reflexivity|]. split; [reflexivity|].
  change (OrderedSet.delete lru (lru :: rest) = rest). now apply OrderedSet_delete_head.
Qed.

End CacheFacts.

Section CacheBound.

Import LRUCache.

Context {T : Type}.

Implicit Types (c : LRUCache.t T) (key : string).

Lemma withinBound_set c now key (value : T) ttl' :
  withinBound c -> key <> "" -> withinBound (set now key value ttl' c).
Proof.
  intros (Hc & Hsize & Hmax) Hkey. unfold set.
  destruct (negb (enabled (config c))); [exact (conj Hc (conj Hsize Hmax))|].
  set (entry := {| data := value |}).
  destruct (cache c !! key) as [old|] eqn:E.
  - split; [apply consistent_touch; eauto|]. simpl. split; [|exact Hmax].
    unfold size in *. simpl. rewrite map_size_insert_Some by eauto. exact Hsize.
  - set (c1 := if size c >=? maxSize (config c) then evictInSet c else c).
    assert (consistent c1 /\ config c1 = config c /\ cache c1 !! key = None
            /\ size c1 + 1 <= maxSize (config c)) as (Hc1 & Hcfg & Hnone & Hroom).
    { subst c1. destruct (size c >=? maxSize (config c)) eqn:Hfull.
      - apply Z.geb_le in Hfull.
        destruct (evict_head c Hc ltac:(lia)) as (lru & rest & _ & Hheld & -> & _ & _).
        split; [now apply consistent_delete|]. split; [apply config_delete|]. split.
        + unfold delete. destruct Hheld as [e He]. rewrite He. simpl.
          apply lookup_delete_None. now right.
        + rewrite size_delete_present by exact Hheld. lia.
      - rewrite Z.geb_leb in Hfull. apply Z.leb_gt in Hfull.
        split; [exact Hc|]. split; [reflexivity|]. split; [exact E|lia]. }
    split; [now apply consistent_add|]. simpl. rewrite Hcfg. split; [|exact Hmax].
    unfold size in *. simpl. rewrite map_size_insert_None by exact Hnone. lia.
Qed.

Lemma withinBound_get c now key : withinBound c -> withinBound (get now key c).2.
Proof.
  intros Hb. unfold get.
  destruct (negb (enabled (config c))); [exact Hb|].
  destruct (cache c !! key) as [entry|] eqn:E; [|exact Hb].
  destruct (expired now entry); [now apply withinBound_delete|].
  destruct Hb as (Hc & Hsize & Hmax). simpl. split; [|split; assumption].
  pose proof (consistent_touch c key entry Hc ltac:(eauto)) as Htouch.
  now rewrite (insert_id _ _ _ E) in Htouch.
Qed.

Lemma withinBound_clear c : withinBound c -> withinBound (clear c).
Proof.
  intros (_ & _ & Hmax). unfold clear, withinBound, consistent, size; simpl.
  split; [|split; [rewrite map_size_empty; lia|exact Hmax]].
  split; [apply NoDup_nil_2|]. split.
  - intros k. rewrite lookup_empty, elem_of_nil. split; [tauto|]. intros []. discriminate.
  - apply not_elem_of_nil.
Qed.

Lemma withinBound_cleanup c now : withinBound c -> withinBound (cleanup now c).
Proof.
  intros Hb. unfold cleanup.
  induction (map_to_list (cache c)) as [|kv l IH]; simpl; [exact Hb|].
  destruct (expired now kv.2); [now apply withinBound_delete|exact IH].
Qed.

(** On a consistent cache with [maxSize >= 1], the loop of
    [updateConfig] ends within as many turns as the cache has entries;
    it drops the least recently used keys, as many as exceed the bound,
    and keeps the entries of the others. *)
Lemma evictLoop_consistent (n : nat) :
  forall c,
    consistent c -> 1 <= maxSize (config c) -> (base.size (cache c) <= n)%nat ->
    exists c',
      evictLoop n c = Some c'
      /\ withinBound c'
      /\ config c' = config c
      /\ accessOrder c' = drop (Z.to_nat (size c - maxSize (config c))) (accessOrder c)
      /\ (forall k, k ∈ accessOrder c' -> cache c' !! k = cache c !! k).
Proof.
  induction n as [|n IH]; intros c Hc Hmax Hn.
  - exists c. unfold evictLoop, size.
    replace (Z.of_nat (base.size (cache c)) >? maxSize (config c)) with false
      by (symmetry; rewrite Z.gtb_ltb; apply Z.ltb_ge; lia).
    replace (Z.to_nat (Z.of_nat (base.size (cache c)) - maxSize (config c))) with 0%nat by lia.
    split; [reflexivity|]. split; [|now repeat split].
    split; [exact Hc|]. split; [unfold size; lia|exact Hmax].
  - simpl. destruct (size c >? maxSize (config c)) eqn:Hover.
    + rewrite Z.gtb_ltb in Hover. apply Z.ltb_lt in Hover.
      destruct (evict_head c Hc ltac:(lia)) as (lru & rest & Horder & Hheld & _ & -> & Hrest).
      pose proof (size_delete_present c lru Hheld) as Hless.
      destruct (IH (delete lru c).2) as (c' & Hrun & Hb & Hcfg & Hdrop & Hkeep).
      * now apply consistent_delete.
      * now rewrite config_delete.
      * unfold size in Hless. lia.
      * exists c'. rewrite config_delete in *. split; [exact Hrun|]. split; [exact Hb|].
        split; [exact Hcfg|]. split.
        -- rewrite Hdrop, Hrest, Horder, Hless.
           replace (Z.to_nat (size c - maxSize (config c)))
             with (S (Z.to_nat (size c - 1 - maxSize (config c)))) by lia.
           reflexivity.
        -- intros k Hk. rewrite (Hkeep k Hk).
           unfold delete. destruct Hheld as [e He]. rewrite He. simpl.
           apply lookup_delete_ne. intros <-.
           rewrite Hdrop, Hrest in Hk. apply list_elem_of_lookup in Hk as [i Hi].
           rewrite lookup_drop in Hi. apply list_elem_of_lookup_2 in Hi.
           destruct Hc as (Hnd & _). rewrite Horder in Hnd.
           now apply NoDup_cons in Hnd as [Hnotin _].
    + rewrite Z.gtb_ltb in Hover. apply Z.ltb_ge in Hover.
      exists c. replace (Z.to_nat (size c - maxSize (config c))) with 0%nat by lia.
      split; [reflexivity|]. split; [|now repeat split].
      split; [exact Hc|]. split; [exact Hover|exact Hmax].
Qed.

End CacheBound.

Section CacheRuns.

Import LRUCache.

Context {T : Type}.

Implicit Types (c : LRUCache.t T) (key : string).

Lemma consistent_clear c : consistent (clear c).
Proof.
  unfold clear, consistent; simpl.
  split; [apply NoDup_nil_2|]. split.
  - intros k. rewrite lookup_empty, elem_of_nil. split; [tauto|]. intros []. discriminate.
  - apply not_elem_of_nil.
Qed.

Lemma updateConfig_withinBound c over :
  consistent c -> 1 <= maxSize (mergeConfig (config c) over) ->
  exists c',
    updateConfig (base.size (cache c)) over c = Some c'
    /\ withinBound c'
    /\ config c' = mergeConfig (config c) over.
Proof.
  intros Hc Hmax. unfold updateConfig.
  set (c1 := {| cache := cache c; accessOrder := accessOrder c;
                config := mergeConfig (config c) over |}).
  set (c2 := if negb (enabled (config c1)) then clear c1 else c1).
  assert (consistent c2 /\ config c2 = mergeConfig (config c) over
          /\ (base.size (cache c2) <= base.size (cache c))%nat) as (Hc2 & Hcfg & Hsize).
  { subst c2. destruct (negb (enabled (config c1))).
    - split; [apply consistent_clear|]. split; [reflexivity|].
      simpl. rewrite map_size_empty. lia.
    - split; [exact Hc|]. split; [reflexivity|simpl; lia]. }
  destruct (evictLoop_consistent (base.size (cache c)) c2 Hc2) as (c' & Hrun & Hb & Hcfg' & _).
  - now rewrite Hcfg.
  - exact Hsize.
  - exists c'. split; [exact Hrun|]. split; [exact Hb|congruence].
Qed.

Lemma applyOp_withinBound c (o : op T) :
  withinBound c -> admissible o ->
  exists c', applyOp c o = Some c' /\ withinBound c'.
Proof.
  intros Hb Hadm. destruct o as [now key value ttl'|now key|key| |now|over]; simpl in *.
  - eexists. split; [reflexivity|now apply withinBound_set].
  - eexists. split; [reflexivity|now apply withinBound_get].
  - eexists. split; [reflexivity|now apply withinBound_delete].
  - eexists. split; [reflexivity|now apply withinBound_clear].
  - eexists. split; [reflexivity|now apply withinBound_cleanup].
  - destruct Hb as (Hc & _ & Hmax).
    destruct (updateConfig_withinBound c over Hc) as (c' & Hrun & Hb' & _).
    + unfold mergeConfig; simpl. destruct (p_maxSize over) as [m|] eqn:Em; simpl; [|exact Hmax].
      now apply Hadm.
    + exists c'. split; assumption.
Qed.

Lemma runOps_withinBound (ops : list (op T)) :
  forall c, withinBound c -> Forall admissible ops ->
            exists c', runOps ops c = Some c' /\ withinBound c'.
Proof.
  induction ops as [|o ops IH]; intros c Hb Hall; simpl.
  - exists c. split; [reflexivity|exact Hb].
  - apply Forall_cons in Hall as [Ho Hall].
    destruct (applyOp_withinBound c o Hb Ho) as (c1 & -> & Hb1).
    now apply IH.
Qed.

(** The bound of C6 where it holds: a cache created with
    [maxSize >= 1] and used with non-empty keys, [maxSize] being kept at
    one or more, never holds more than [maxSize] entries, and
    [updateConfig] always returns. *)
Theorem LRUCache_bounded_on_nonempty_keys (over : PartialConfig) (ops : list (op T)) :
  1 <= maxSize (mergeConfig defaultConfig over) ->
  Forall admissible ops ->
  exists c, runOps ops (create over) = Some c /\ size c <= maxSize (config c).
Proof.
  intros Hmax Hall.
  destruct (runOps_withinBound ops (create over)) as (c & Hrun & _ & Hsize & _).
  - split; [exact (consistent_clear (create over))|].
    split; [|exact Hmax]. unfold mergeConfig, defaultConfig in *. simpl in *.
    unfold size; simpl. rewrite map_size_empty. lia.
  - exact Hall.
  - exists c. split; assumption.
Qed.

(** There, a [set] of a new key into a full cache evicts the head of
    the access order, the least recently used key, and nothing else. *)
Theorem set_at_capacity_evicts_lru c now key (value : T) ttl' lru rest :
  withinBound c -> enabled (config c) = true ->
  cache c !! key = None ->
  size c = maxSize (config c) ->
  accessOrder c = lru :: rest ->
  set now key value ttl' c =
  {| cache := <[key := {| data := value; timestamp := now;
                          ttl := default (defaultTtl (config c)) ttl' |}]>
                (base.delete lru (cache c));
     accessOrder := rest ++ [key];
     config := config c |}.
Proof.
  intros (Hc & _ & Hmax) Hon Hnew Hfull Horder. unfold set. rewrite Hon, Hnew. simpl.
  replace (size c >=? maxSize (config c)) with true by (symmetry; apply Z.geb_le; lia).
  destruct (evict_head c Hc ltac:(lia)) as (lru' & rest' & Horder' & Hheld & -> & _ & Hrest).
  rewrite Horder in Horder'. injection Horder' as <- <-.
  unfold delete in *. destruct Hheld as [e He]. rewrite He in *. simpl in *.
  f_equal. rewrite Hrest. apply OrderedSet_add_new.
  intros Hin. destruct Hc as (_ & Hkeys & _).
  assert (is_Some (cache c !! key)) as [x Hx] by (apply Hkeys; rewrite Horder; now right).
  congruence.
Qed.

(** On an enabled cache that holds no entry under the empty key (its
    access order lists the keys of the map, each once), lowering
    [maxSize] to [m], one or more and the number of entries at most,
    drops the least recently used keys at once, down to [m] entries,
    and keeps the others as they were. *)
Theorem updateConfig_shrinks_to_bound c (m : Z) :
  consistent c -> enabled (config c) = true -> 1 <= m <= size c ->
  exists c',
    updateConfig (base.size (cache c)) (mkPartial (Some m) None None) c = Some c'
    /\ size c' = m
    /\ maxSize (config c') = m
    /\ accessOrder c' = drop (Z.to_nat (size c - m)) (accessOrder c)
    /\ (forall k, k ∈ accessOrder c' -> cache c' !! k = cache c !! k).
Proof.
  intros Hc Hon [Hm Hsize]. unfold updateConfig. simpl. rewrite Hon. simpl.
  set (c1 := {| cache := cache c |}).
  destruct (evictLoop_consistent (base.size (cache c)) c1 Hc Hm ltac:(simpl; lia))
    as (c' & Hrun & Hb & Hcfg & Hdrop & Hkeep).
  exists c'. split; [exact Hrun|].
  assert (length (accessOrder c') = Z.to_nat m) as Hlen.
  { rewrite Hdrop, length_drop. simpl. rewrite (consistent_length c Hc).
    unfold size in *. simpl. lia. }
  split; [|split; [now rewrite Hcfg|split; [exact Hdrop|exact Hkeep]]].
  destruct Hb as (Hc' & _). rewrite (consistent_length c' Hc') in Hlen.
  unfold size. lia.
Qed.

End CacheRuns.

(** A turn that changes nothing, on a cache over its bound, is
    repeated for ever. *)
Lemma evictLoop_stuck {T : Type} (c : LRUCache.t T) :
  LRUCache.evictStep c = c ->
  (LRUCache.size c >? LRUCache.maxSize (LRUCache.config c)) = true ->
  forall fuel, LRUCache.evictLoop fuel c = None.
Proof.
  intros Hfix Hover fuel. induction fuel as [|fuel IH]; simpl; rewrite Hover.
  - reflexivity.
  - now rewrite Hfix.
Qed.

Section CacheLoop.

Import LRUCache.

Context {T : Type}.

Implicit Types (c : LRUCache.t T).

(** A turn of the loop changes nothing or removes one entry. *)
Lemma evictStep_progress c :
  evictStep c = c
  \/ (config (evictStep c) = config c
      /\ S (base.size (cache (evictStep c))) = base.size (cache c)).
Proof.
  unfold evictStep. destruct (OrderedSet.first (accessOrder c)) as [lruKey|]; [|now left].
  destruct (Js.truthy_string lruKey); [|now left].
  unfold delete. destruct (cache c !! lruKey) as [e|] eqn:E; [|now left].
  right. simpl. split; [reflexivity|].
  rewrite map_size_delete, E. simpl.
  assert (base.size (cache c) <> 0%nat) by (apply map_size_ne_0_lookup_2 with lruKey; eauto).
  lia.
Qed.

(** As many turns as the cache has entries decide the loop: with more,
    the outcome is the same.  So [None] there is a loop that never
    ends. *)
Lemma evictLoop_fuel (n : nat) :
  forall c fuel,
    (base.size (cache c) <= n)%nat -> (n <= fuel)%nat ->
    evictLoop fuel c = evictLoop n c.
Proof.
  induction n as [|n IH]; intros c fuel Hsize Hfuel.
  - destruct (size c >? maxSize (config c)) eqn:Hover.
    + rewrite (evictLoop_stuck c); [symmetry; apply evictLoop_stuck| |exact Hover].
      * destruct (evictStep_progress c) as [Hfix|[_ Hless]]; [exact Hfix|lia].
      * exact Hover.
      * destruct (evictStep_progress c) as [Hfix|[_ Hless]]; [exact Hfix|lia].
    + destruct fuel; simpl; now rewrite Hover.
  - destruct fuel as [|fuel]; [lia|]. simpl.
    destruct (size c >? maxSize (config c)) eqn:Hover; [|reflexivity].
    destruct (evictStep_progress c) as [Hfix|[_ Hless]].
    + rewrite Hfix. now rewrite !(evictLoop_stuck c Hfix Hover).
    + apply IH; lia.
Qed.

End CacheLoop.

(** ** The cache bound, where it breaks *)

(** C6, at the inputs where the cache departs from it.  With
    [maxSize = 1], after [set("", v)] a [set("a", v)] finds the cache at
    capacity, reads the empty key as the least recently used one, takes
    it for no key at all and evicts nothing: two entries are held.
    From there [updateConfig] never leaves its eviction loop.  With
    [maxSize = 0] a single [set] already holds one entry. *)
Theorem LRUCache_exceeds_maxSize :
  let v := Js.VStr "v" in
  let one := LRUCache.create (LRUCache.mkPartial (Some 1) None None) in
  let two := LRUCache.set 0 "a" v None (LRUCache.set 0 "" v None one) in
  let none := LRUCache.create (LRUCache.mkPartial (Some 0) None None) in
  LRUCache.stats two = (2, 1, true)
  /\ LRUCache.accessOrder two = [""; "a"]
  /\ (forall fuel, LRUCache.updateConfig fuel LRUCache.noOverrides two = None)
  /\ LRUCache.stats (LRUCache.set 0 "a" v None none) = (1, 0, true).
Proof.
  intros v one two none. split; [|split; [|split]].
  - vm_compute. reflexivity.
  - vm_compute. reflexivity.
  - intros fuel. unfold LRUCache.updateConfig.
    apply evictLoop_stuck; vm_compute; reflexivity.
  - vm_compute. reflexivity.
Qed.

(** ** The deduplicator *)

Section Deduplication.

Import RequestDeduplicator.

Context {R : Type}.

Implicit Types (d : RequestDeduplicator.t R) (key : string) (p : nat) (r : R).

Lemma registered_create : registered (@RequestDeduplicator.create R).
Proof.
  intros key p. unfold RequestDeduplicator.create; simpl.
  rewrite lookup_empty, lookup_nil. split; discriminate.
Qed.

Lemma registered_deduplicate d key :
  registered d -> registered (RequestDeduplicator.deduplicate key d).2.
Proof.
  intros Hreg. unfold RequestDeduplicator.deduplicate.
  destruct (RequestDeduplicator.pendingRequests d !! key) as [existing|] eqn:E; [exact Hreg|].
  intros k p; simpl. destruct (decide (key = k)) as [<-|Hne].
  - rewrite lookup_insert_eq. split.
    + intros [= <-]. now rewrite lookup_app_r, Nat.sub_diag by lia.
    + intros Hp. destruct (decide (p < length (RequestDeduplicator.promises d))%nat) as [Hlt|Hge].
      * rewrite lookup_app_l in Hp by exact Hlt. apply Hreg in Hp. congruence.
      * rewrite lookup_app_r in Hp by lia.
        destruct (p - length (RequestDeduplicator.promises d))%nat as [|n] eqn:En.
        -- f_equal. lia.
        -- simpl in Hp. now rewrite lookup_nil in Hp.
  - rewrite lookup_insert_ne by exact Hne. rewrite (Hreg k p). split.
    + intros Hp. rewrite lookup_app_l; [exact Hp|]. now apply lookup_lt_Some in Hp.
    + intros Hp. destruct (decide (p < length (RequestDeduplicator.promises d))%nat) as [Hlt|Hge].
      * now rewrite lookup_app_l in Hp by exact Hlt.
      * rewrite lookup_app_r in Hp by lia.
        destruct (p - length (RequestDeduplicator.promises d))%nat as [|n] eqn:En.
        -- simpl in Hp. congruence.
        -- simpl in Hp. now rewrite lookup_nil in Hp.
Qed.

Lemma registered_settle d p r :
  registered d -> registered (RequestDeduplicator.settle p r d).
Proof.
  intros Hreg. unfold RequestDeduplicator.settle.
  destruct (RequestDeduplicator.promises d !! p) as [[key [r0|]]|] eqn:E; try exact Hreg.
  intros k q; simpl. destruct (decide (k = key)) as [->|Hne].
  - rewrite lookup_delete_eq. split; [discriminate|].
    intros Hq. destruct (decide (q = p)) as [->|Hqp].
    + rewrite list_lookup_insert_eq in Hq by (now apply lookup_lt_Some in E). discriminate.
    + rewrite list_lookup_insert_ne in Hq by congruence.
      apply Hreg in Hq. apply Hreg in E. congruence.
  - rewrite lookup_delete_ne by congruence. rewrite (Hreg k q).
    destruct (decide (q = p)) as [->|Hqp].
    + rewrite list_lookup_insert_eq by (now apply lookup_lt_Some in E).
      rewrite E. split; intros [=]; congruence.
    + now rewrite list_lookup_insert_ne by congruence.
Qed.

Lemma registered_step d e :
  resets e = false -> registered d -> registered (RequestDeduplicator.step d e).
Proof.
  destruct e; simpl; try discriminate; intros _;
    [apply registered_deduplicate | apply registered_settle].
Qed.

(** Where [clear] and [destroy] are not called, the registry holds
    every promise that has not settled. *)
Lemma registered_run events :
  Forall (fun e => resets e = false) events ->
  registered (RequestDeduplicator.run (R := R) events).
Proof.
  unfold RequestDeduplicator.run. intros Hquiet.
  assert (forall d, registered d -> registered (fold_left RequestDeduplicator.step events d)) as Hgen.
  { induction Hquiet as [|e events He _ IH]; intros d Hd; simpl; [exact Hd|].
    apply IH, registered_step; assumption. }
  apply Hgen, registered_create.
Qed.




(** A pending request stays registered, under its key and with its
    promise, through every step but its own settlement. *)
Lemma pending_until_settled d (e : RequestDeduplicator.event R) key p :
  registered d ->
  pendingRequests d !! key = Some p ->
  resets e = false ->
  (forall r, e <> Settle p r) ->
  pendingRequests (step d e) !! key = Some p.
Proof.
  intros Hreg Hp Hquiet Hother. destruct e as [k|q r| |]; simpl; try discriminate.
  - unfold deduplicate. destruct (pendingRequests d !! k) eqn:E; [exact Hp|].
    simpl. rewrite lookup_insert_ne; [exact Hp|congruence].
  - unfold settle. destruct (promises d !! q) as [[k [r0|]]|] eqn:E; try exact Hp.
    simpl. rewrite lookup_delete_ne; [exact Hp|].
    intros ->. apply Hreg in E. rewrite E in Hp. injection Hp as ->.
    now apply (Hother r).
Qed.

End Deduplication.




(** ** The limiter registry *)

Section Registry.

Import GlobalRateLimiterRegistry.

Variable hashKey : string -> string.

Lemma sound_empty : sound hashKey empty.
Proof.
  unfold sound, empty; simpl. repeat split; intros *; rewrite ?lookup_empty; try discriminate.
  intros []; discriminate.
Qed.

Lemma sound_getLimiter st k r q i :
  sound hashKey st -> sound hashKey (getLimiter hashKey k r q i st).2.
Proof.
  intros (Hlive & Hdistinct & Hkeys). unfold getLimiter.
  destruct (limiters st !! hashKey k) as [e|] eqn:E; unfold sound; simpl.
  - split; [|split].
    + intros h e'. destruct (decide (hashKey k = h)) as [<-|Hne].
      * rewrite lookup_insert_eq. intros [= <-]; simpl.
        destruct (Hlive _ _ E) as [Hc Hb]. split; [lia|exact Hb].
      * rewrite lookup_insert_ne by exact Hne. apply Hlive.
    + intros h1 h2 e1 e2.
      destruct (decide (hashKey k = h1)) as [<-|Hne1];
        destruct (decide (hashKey k = h2)) as [<-|Hne2];
        rewrite ?lookup_insert_eq, ?lookup_insert_ne by assumption; try done.
      * intros [= <-] H2 Heq; simpl in Heq. exact (Hdistinct _ _ _ _ E H2 Heq).
      * intros H1 [= <-] Heq; simpl in Heq. exact (Hdistinct _ _ _ _ H1 E Heq).
      * apply Hdistinct.
    + intros h. destruct (decide (hashKey k = h)) as [<-|Hne]; [eauto|].
      rewrite lookup_insert_ne by exact Hne. apply Hkeys.
  - assert (forall h e, limiters st !! h = Some e -> (limiter e < length (heap st))%nat) as Hold.
    { intros h e He. destruct (Hlive _ _ He) as [_ (b & Hb & _)]. now apply lookup_lt_Some in Hb. }
    split; [|split].
    + intros h e'. destruct (decide (hashKey k = h)) as [<-|Hne].
      * rewrite lookup_insert_eq. intros [= <-]; simpl. split; [lia|].
        eexists. rewrite lookup_app_r, Nat.sub_diag by lia. split; reflexivity.
      * rewrite lookup_insert_ne by exact Hne. intros He.
        destruct (Hlive _ _ He) as [Hc (b & Hb & Hs)]. split; [exact Hc|].
        exists b. split; [|exact Hs]. rewrite lookup_app_l; [exact Hb|]. eapply Hold, He.
    + intros h1 h2 e1 e2.
      destruct (decide (hashKey k = h1)) as [<-|Hne1];
        destruct (decide (hashKey k = h2)) as [<-|Hne2];
        rewrite ?lookup_insert_eq, ?lookup_insert_ne by assumption; try done.
      * intros [= <-] H2 Heq; simpl in Heq. apply Hold in H2. lia.
      * intros H1 [= <-] Heq; simpl in Heq. apply Hold in H1. lia.
      * apply Hdistinct.
    + intros h. destruct (decide (hashKey k = h)) as [<-|Hne]; [eauto|].
      rewrite lookup_insert_ne by exact Hne. apply Hkeys.
Qed.

Lemma sound_cleanup st k : sound hashKey st -> sound hashKey (cleanup hashKey k st).
Proof.
  intros (Hlive & Hdistinct & Hkeys). unfold cleanup.
  destruct (limiters st !! hashKey k) as [e|] eqn:E; [|exact (conj Hlive (conj Hdistinct Hkeys))].
  simpl. destruct (refCount e - 1 <=? 0) eqn:Hz; unfold sound; simpl.
  - split; [|split].
    + intros h e' He'. apply lookup_delete_Some in He' as [Hne He'].
      destruct (Hlive _ _ He') as [Hc (b & Hb & Hs)]. split; [exact Hc|].
      exists b. split; [|exact Hs]. unfold stop.
      destruct (heap st !! limiter e) as [b0|]; [|exact Hb].
      rewrite list_lookup_insert_ne; [exact Hb|].
      intros Heq. apply Hne. symmetry. exact (Hdistinct _ _ _ _ He' E (eq_sym Heq)).
    + intros h1 h2 e1 e2 H1 H2. apply lookup_delete_Some in H1 as [_ H1].
      apply lookup_delete_Some in H2 as [_ H2]. exact (Hdistinct _ _ _ _ H1 H2).
    + intros h [e' He']. apply lookup_delete_Some in He' as [_ He']. apply Hkeys. eauto.
  - apply Z.leb_gt in Hz. split; [|split].
    + intros h e'. destruct (decide (hashKey k = h)) as [<-|Hne].
      * rewrite lookup_insert_eq. intros [= <-]; simpl. split; [lia|]. apply (Hlive _ _ E).
      * rewrite lookup_insert_ne by exact Hne. apply Hlive.
    + intros h1 h2 e1 e2.
      destruct (decide (hashKey k = h1)) as [<-|Hne1];
        destruct (decide (hashKey k = h2)) as [<-|Hne2];
        rewrite ?lookup_insert_eq, ?lookup_insert_ne by assumption; try done.
      * intros [= <-] H2 Heq; simpl in Heq. exact (Hdistinct _ _ _ _ E H2 Heq).
      * intros H1 [= <-] Heq; simpl in Heq. exact (Hdistinct _ _ _ _ H1 E Heq).
      * apply Hdistinct.
    + intros h. destruct (decide (hashKey k = h)) as [<-|Hne]; [eauto|].
      rewrite lookup_insert_ne by exact Hne. apply Hkeys.
Qed.

Lemma sound_run calls : sound hashKey (run hashKey calls).
Proof.
  unfold run.
  assert (forall st, sound hashKey st -> sound hashKey (fold_left (step hashKey) calls st)) as Hgen.
  { induction calls as [|c calls IH]; intros st Hst; simpl; [exact Hst|].
    apply IH. destruct c; simpl; [apply sound_getLimiter | apply sound_cleanup]; exact Hst. }
  apply Hgen, sound_empty.
Qed.

End Registry.

(** C8.  In every state the registry reaches by acquisitions and
    releases, for every credential: (1) every key of the registry is the
    hash of a credential; (2) an acquisition returns the limiter of the
    entry under the credential's hash, creating no limiter if the entry
    exists, leaves the entry with a count one higher, a running
    limiter, and the next acquisition returns the same limiter; (3) a
    release lowers the count by one, and exactly when that reaches zero
    the limiter is stopped with [dropWaitingJobs: false] and the entry
    removed; otherwise the entry stays and no limiter is touched. *)
Theorem registry_shares_and_counts (hashKey : string -> string)
    (calls : list GlobalRateLimiterRegistry.call) (apiKey : string) :
  let st := GlobalRateLimiterRegistry.run hashKey calls in
  let held := GlobalRateLimiterRegistry.limiters st !! hashKey apiKey in
  (forall h, is_Some (GlobalRateLimiterRegistry.limiters st !! h) -> exists k, h = hashKey k)
  /\ (forall r q i,
        let acquired := GlobalRateLimiterRegistry.getLimiter hashKey apiKey r q i st in
        (forall e, held = Some e ->
           acquired.1 = GlobalRateLimiterRegistry.limiter e
           /\ GlobalRateLimiterRegistry.heap acquired.2 = GlobalRateLimiterRegistry.heap st)
        /\ GlobalRateLimiterRegistry.limiters acquired.2 !! hashKey apiKey
           = Some {| GlobalRateLimiterRegistry.limiter := acquired.1;
                     GlobalRateLimiterRegistry.refCount :=
                       from_option GlobalRateLimiterRegistry.refCount 0 held + 1 |}
        /\ (exists b, GlobalRateLimiterRegistry.heap acquired.2 !! acquired.1 = Some b
                      /\ GlobalRateLimiterRegistry.stopped b = None)
        /\ (forall r' q' i',
              (GlobalRateLimiterRegistry.getLimiter hashKey apiKey r' q' i' acquired.2).1
              = acquired.1))
  /\ (forall e, held = Some e ->
        let released := GlobalRateLimiterRegistry.cleanup hashKey apiKey st in
        1 <= GlobalRateLimiterRegistry.refCount e
        /\ if GlobalRateLimiterRegistry.refCount e - 1 =? 0 then
             GlobalRateLimiterRegistry.limiters released !! hashKey apiKey = None
             /\ exists b,
                  GlobalRateLimiterRegistry.heap released !! GlobalRateLimiterRegistry.limiter e
                  = Some b
                  /\ GlobalRateLimiterRegistry.stopped b = Some false
           else
             GlobalRateLimiterRegistry.limiters released !! hashKey apiKey
             = Some {| GlobalRateLimiterRegistry.limiter := GlobalRateLimiterRegistry.limiter e;
                       GlobalRateLimiterRegistry.refCount :=
                         GlobalRateLimiterRegistry.refCount e - 1 |}
             /\ GlobalRateLimiterRegistry.heap released = GlobalRateLimiterRegistry.heap st).
Proof.
  intros st held.
  pose proof (sound_run hashKey calls) as Hsound. fold st in Hsound.
  destruct Hsound as (Hlive & Hdistinct & Hkeys).
  split; [exact Hkeys|]. split.
  - intros r q i acquired.
    pose proof (sound_getLimiter hashKey st apiKey r q i (conj Hlive (conj Hdistinct Hkeys)))
      as (Hlive' & _ & _). fold acquired in Hlive'.
    assert (GlobalRateLimiterRegistry.limiters acquired.2 !! hashKey apiKey
            = Some {| GlobalRateLimiterRegistry.limiter := acquired.1;
                      GlobalRateLimiterRegistry.refCount :=
                        from_option GlobalRateLimiterRegistry.refCount 0 held + 1 |}) as Hentry.
    { subst acquired held. unfold GlobalRateLimiterRegistry.getLimiter.
      destruct (GlobalRateLimiterRegistry.limiters st !! hashKey apiKey); simpl;
        now rewrite lookup_insert_eq. }
    split; [|split; [exact Hentry|split]].
    + intros e He. subst acquired held. unfold GlobalRateLimiterRegistry.getLimiter.
      rewrite He. simpl. split; reflexivity.
    + apply (Hlive' _ _ Hentry).
    + intros r' q' i'. unfold GlobalRateLimiterRegistry.getLimiter at 1.
      rewrite Hentry. reflexivity.
  - intros e He released. subst held.
    destruct (Hlive _ _ He) as [Hc (b & Hb & Hs)]. split; [exact Hc|].
    subst released. unfold GlobalRateLimiterRegistry.cleanup. rewrite He. simpl.
    destruct (GlobalRateLimiterRegistry.refCount e - 1 =? 0) eqn:Hz.
    + apply Z.eqb_eq in Hz.
      replace (GlobalRateLimiterRegistry.refCount e - 1 <=? 0) with true
        by (symmetry; apply Z.leb_le; lia).
      simpl. split; [apply lookup_delete_eq|].
      unfold GlobalRateLimiterRegistry.stop. rewrite Hb.
      eexists. split; [apply list_lookup_insert_eq; now apply lookup_lt_Some in Hb|reflexivity].
    + apply Z.eqb_neq in Hz.
      replace (GlobalRateLimiterRegistry.refCount e - 1 <=? 0) with false
        by (symmetry; apply Z.leb_gt; lia).
      simpl. split; [apply lookup_insert_eq|reflexivity].
Qed.

Lemma registry_shares_and_counts_two_clients :
  let hashKey := fun key => "sha256:" +:+ key in
  let st := GlobalRateLimiterRegistry.run hashKey
              [GlobalRateLimiterRegistry.Acquire "KEY" 3 100000 86400000] in
  let second := GlobalRateLimiterRegistry.getLimiter hashKey "KEY" 5 100000 86400000 st in
  GlobalRateLimiterRegistry.limiters st !! hashKey "KEY"
  = Some (GlobalRateLimiterRegistry.mkEntry 0 1)
  /\ second.1 = 0%nat
  /\ GlobalRateLimiterRegistry.heap second.2 = GlobalRateLimiterRegistry.heap st
  /\ GlobalRateLimiterRegistry.limiters
       (GlobalRateLimiterRegistry.cleanup hashKey "KEY" st) !! hashKey "KEY" = None.
Proof.
  intros hashKey st second.
  pose proof (registry_shares_and_counts hashKey
                [GlobalRateLimiterRegistry.Acquire "KEY" 3 100000 86400000] "KEY")
    as (_ & Hacquire & Hrelease).
  assert (GlobalRateLimiterRegistry.limiters st !! hashKey "KEY"
          = Some (GlobalRateLimiterRegistry.mkEntry 0 1)) as Hheld by reflexivity.
  destruct (Hacquire 5 100000 86400000) as (Hshared & _).
  destruct (Hshared _ Hheld) as [Hsame Hheap].
  destruct (Hrelease _ Hheld) as [_ Hzero]. simpl in Hzero. destruct Hzero as [Hgone _].
  split; [exact Hheld|]. split; [exact Hsame|]. split; [exact Hheap|exact Hgone].
Defined.

(** ** Retries *)

Section Retry.

Import Transport Errors.

(** [fetchWithRetry] satisfies the equation the source defines it by. *)
Lemma fetchWithRetry_unfold (tr : t) (url : string) (retries : Z) (w : World) :
  fetchWithRetry tr url retries w =
  let '(r, w1) := fetch url w in
  match r with
  | Resolves _ => (r, w1)
  | Rejects error =>
      if (retries >? 0) && isRetryable error then
        fetchWithRetry tr url (retries - 1)
          (delay (retryDelay tr * (maxRetries tr - retries + 1)) w1)
      else (r, w1)
  end.
Proof.
  unfold fetchWithRetry. destruct (Z.to_nat retries) as [|n] eqn:En; simpl.
  - destruct (network w (fetches w) url); [reflexivity|].
    replace (retries >? 0) with false; [reflexivity|].
    symmetry. rewrite Z.gtb_ltb. apply Z.ltb_ge. lia.
  - destruct (network w (fetches w) url); [reflexivity|].
    replace (Z.to_nat (retries - 1)) with n by lia. reflexivity.
Qed.

(** After [j] transient failures in a row and a final answer, the run
    made [j + 1] fetches, waited before each retry, and ends with the
    final answer. *)
Lemma fetchWithRetry_run (tr : t) (url : string) (j : nat) :
  forall (retries : Z) (w : World),
    Z.of_nat j <= retries ->
    (forall i, (i < j)%nat -> transient (network w (fetches w + i)%nat url)) ->
    final (retries - Z.of_nat j) (network w (fetches w + j)%nat url) ->
    exists w',
      fetchWithRetry tr url retries w = (network w (fetches w + j)%nat url, w')
      /\ fetches w' = (fetches w + j + 1)%nat
      /\ network w' = network w
      /\ trace w' = trace w ++ Fetch url ::
                      Spec.retrySchedule url (retryDelay tr) (maxRetries tr - retries + 1) j.
Proof.
  induction j as [|j IH]; intros retries w Hbudget Hfail Hfinal.
  - rewrite fetchWithRetry_unfold. unfold fetch. rewrite Nat.add_0_r in *.
    exists (fetch url w).2. unfold fetch; simpl.
    split; [|split; [|split]]; [|lia|reflexivity|reflexivity].
    destruct (network w (fetches w) url) as [resp|error]; [reflexivity|].
    simpl in Hfinal. destruct Hfinal as [Hnot|Hleft].
    + now rewrite Hnot, andb_false_r.
    + replace (retries >? 0) with false; [reflexivity|].
      symmetry. rewrite Z.gtb_ltb. apply Z.ltb_ge. lia.
  - rewrite fetchWithRetry_unfold. unfold fetch.
    destruct (Hfail 0%nat ltac:(lia)) as (error & Herr & Hretry).
    rewrite Nat.add_0_r in Herr. rewrite Herr, Hretry.
    replace (retries >? 0) with true by (symmetry; rewrite Z.gtb_ltb; apply Z.ltb_lt; lia). simpl.
    set (w2 := delay _ _).
    destruct (IH (retries - 1) w2) as (w' & Hrun & Hcount & Hnet & Htrace).
    + lia.
    + intros i Hi. subst w2; simpl. rewrite <- Nat.add_succ_r. apply Hfail. lia.
    + subst w2; simpl. rewrite <- Nat.add_succ_r.
      replace (retries - 1 - Z.of_nat j) with (retries - Z.of_nat (S j)) by lia. exact Hfinal.
    + exists w'. subst w2; simpl in *. rewrite <- Nat.add_succ_r in Hrun.
      split; [exact Hrun|]. split; [lia|]. split; [exact Hnet|].
      rewrite Htrace, <- !app_assoc. simpl.
      replace (maxRetries tr - (retries - 1) + 1) with (maxRetries tr - retries + 1 + 1) by lia.
      reflexivity.
Qed.

End Retry.

Lemma fetchOrFail_translates (tr : Transport.t) (url : string) (w w' : Transport.World)
    (error : Errors.thrown) :
  Transport.fetchWithRetry tr url (Transport.maxRetries tr) w = (Transport.Rejects error, w') ->
  exists e, Transport.fetchOrFail tr url w = (Errors.Throws e, w')
            /\ Spec.isNetworkOrTimeout e = true.
Proof.
  intros Hrun. unfold Transport.fetchOrFail. rewrite Hrun.
  destruct error as [name message|v]; [|eexists; split; reflexivity].
  destruct (String.eqb name "AbortError"); eexists; split; reflexivity.
Qed.

(** C5.  With a retry budget [maxRetries >= 0]: (1) when every attempt
    fails with a transient error, the transport fetches [1 + maxRetries]
    times, waits [retryDelay * k] before retry [k], and raises the typed
    timeout or network error; (2) when the budget is one at least, one
    transient failure followed by a response returns that response
    after two fetches and one wait of [retryDelay * 1]; (3) an error
    that is not transient ends the run at the attempt where it occurs,
    with the typed network error and no further fetch. *)
Theorem fetchOrFail_retries_transient_failures (tr : Transport.t) (url : string)
    (w : Transport.World) :
  0 <= Transport.maxRetries tr ->
  ((forall i, (i <= Z.to_nat (Transport.maxRetries tr))%nat ->
      Transport.transient (Transport.network w (Transport.fetches w + i)%nat url)) ->
   exists e w',
     Transport.fetchOrFail tr url w = (Errors.Throws e, w')
     /\ Spec.isNetworkOrTimeout e = true
     /\ Transport.fetches w'
        = (Transport.fetches w + 1 + Z.to_nat (Transport.maxRetries tr))%nat
     /\ Transport.trace w'
        = Transport.trace w ++ Transport.Fetch url ::
            Spec.retrySchedule url (Transport.retryDelay tr) 1
              (Z.to_nat (Transport.maxRetries tr)))
  /\ (1 <= Transport.maxRetries tr ->
      forall response,
        Transport.transient (Transport.network w (Transport.fetches w) url) ->
        Transport.network w (S (Transport.fetches w)) url = Transport.Resolves response ->
        exists w',
          Transport.fetchOrFail tr url w = (Errors.Returns response, w')
          /\ Transport.fetches w' = (Transport.fetches w + 2)%nat
          /\ Transport.trace w'
             = Transport.trace w ++
                 [Transport.Fetch url; Transport.Delay (Transport.retryDelay tr * 1);
                  Transport.Fetch url])
  /\ (forall j error,
        Z.of_nat j <= Transport.maxRetries tr ->
        (forall i, (i < j)%nat ->
           Transport.transient (Transport.network w (Transport.fetches w + i)%nat url)) ->
        Transport.network w (Transport.fetches w + j)%nat url = Transport.Rejects error ->
        Transport.isRetryable error = false ->
        exists e w',
          Transport.fetchOrFail tr url w = (Errors.Throws e, w')
          /\ Spec.isNetworkOrTimeout e = true
          /\ Transport.fetches w' = (Transport.fetches w + j + 1)%nat).
Proof.
  intros Hbudget. split; [|split].
  - intros Hall.
    destruct (Hall (Z.to_nat (Transport.maxRetries tr)) ltac:(lia)) as (error & Hlast & _).
    destruct (fetchWithRetry_run tr url (Z.to_nat (Transport.maxRetries tr))
                (Transport.maxRetries tr) w) as (w' & Hrun & Hcount & _ & Htrace).
    + lia.
    + intros i Hi. apply Hall. lia.
    + rewrite Hlast. right. lia.
    + rewrite Hlast in Hrun.
      destruct (fetchOrFail_translates tr url w w' error Hrun) as (e & He & Htyped).
      exists e, w'. split; [exact He|]. split; [exact Htyped|]. split; [lia|].
      rewrite Htrace. now replace (Transport.maxRetries tr - Transport.maxRetries tr + 1) with 1 by lia.
  - intros Hone response Hfirst Hsecond.
    destruct (fetchWithRetry_run tr url 1 (Transport.maxRetries tr) w)
      as (w' & Hrun & Hcount & _ & Htrace).
    + lia.
    + intros i Hi. replace i with 0%nat by lia. now rewrite Nat.add_0_r.
    + rewrite Nat.add_1_r, Hsecond. exact I.
    + rewrite Nat.add_1_r, Hsecond in Hrun.
      exists w'. unfold Transport.fetchOrFail. rewrite Hrun.
      split; [reflexivity|]. split; [lia|].
      rewrite Htrace. simpl.
      now replace (Transport.maxRetries tr - Transport.maxRetries tr + 1) with 1 by lia.
  - intros j error Hj Hbefore Hat Hnot.
    destruct (fetchWithRetry_run tr url j (Transport.maxRetries tr) w)
      as (w' & Hrun & Hcount & _ & _).
    + exact Hj.
    + exact Hbefore.
    + rewrite Hat. left. exact Hnot.
    + rewrite Hat in Hrun.
      destruct (fetchOrFail_translates tr url w w' error Hrun) as (e & He & Htyped).
      exists e, w'. split; [exact He|]. split; [exact Htyped|exact Hcount].
Qed.

Lemma fetchOrFail_retries_transient_failures_default_budget :
  let tr := Mock.transport 3 InterceptorManager.create in
  let reset := Transport.Rejects (Errors.ThrownError "Error" "read ECONNRESET") in
  let response := Mock.jsonResponse Mock.balanceOk in
  (exists e w', Transport.fetchOrFail tr "u" (Mock.world []) = (Errors.Throws e, w')
                /\ Transport.fetches w' = 4%nat
                /\ Transport.trace w'
                   = [Transport.Fetch "u"; Transport.Delay 1000; Transport.Fetch "u";
                      Transport.Delay 2000; Transport.Fetch "u"; Transport.Delay 3000;
                      Transport.Fetch "u"])
  /\ (exists w', Transport.fetchOrFail tr "u" (Mock.world [reset; Transport.Resolves response])
                 = (Errors.Returns response, w')
                 /\ Transport.fetches w' = 2%nat).
Proof.
  intros tr reset response. split.
  - destruct (fetchOrFail_retries_transient_failures tr "u" (Mock.world []))
      as (Hall & _ & _); [vm_compute; discriminate|].
    destruct Hall as (e & w' & Hrun & _ & Hcount & Htrace).
    + intros i _. exists (Errors.ThrownError "Error" "read ECONNRESET"). split; reflexivity.
    + exists e, w'. split; [exact Hrun|]. split; [exact Hcount|exact Htrace].
  - destruct (fetchOrFail_retries_transient_failures tr "u"
                (Mock.world [reset; Transport.Resolves response]))
      as (_ & Hone & _); [vm_compute; discriminate|].
    destruct (Hone ltac:(vm_compute; discriminate) response) as (w' & Hrun & Hcount & _).
    + exists (Errors.ThrownError "Error" "read ECONNRESET"). split; reflexivity.
    + reflexivity.
    + exists w'. split; [exact Hrun|exact Hcount].
Defined.

(** ** The envelope *)

Section Envelope.

Import Transport Errors.

Context `{Platform}.

Lemma retryLoop_withCache tr c url budget :
  forall retries w,
    retryLoop (withCache tr c) url budget retries w = retryLoop tr url budget retries w.
Proof.
  induction budget as [|budget IH]; intros retries w; simpl.
  - reflexivity.
  - destruct (network w (fetches w) url) as [response|error]; [reflexivity|].
    destruct ((retries >? 0) && isRetryable error); [apply IH|reflexivity].
Qed.

Lemma fetchOrFail_withCache tr c url w :
  fetchOrFail (withCache tr c) url w = fetchOrFail tr url w.
Proof.
  unfold fetchOrFail, fetchWithRetry. simpl. now rewrite retryLoop_withCache.
Qed.

(** On a JSON body, [handleResponse] is decided by the envelope. *)
Lemma handleResponse_jsonBody tr baseUrl schema options cacheKey response at_ data :
  jsonBody response data ->
  handleResponse tr baseUrl schema options cacheKey response at_ =
  match unwrapEnvelope baseUrl schema data with
  | inl early => (early, cache tr)
  | inr (Zod.Failure issues) =>
      (Throws (ValidationError ("Failed to parse Etherscan response: " +:+ formatIssues issues)),
       cache tr)
  | inr (Zod.Success validatedData) =>
      (Returns (InterceptorManager.applyResponseInterceptors (interceptors tr) validatedData),
       LRUCache.set at_ cacheKey validatedData None (cache tr))
  end.
Proof.
  intros (Hok & Hjson & Hdeclared & Hread & Hparse).
  unfold handleResponse. rewrite Hok. simpl negb. cbv iota.
  cbn [existsb]. rewrite Hjson. simpl negb. cbv iota.
  rewrite Hdeclared, Hread, Hparse. reflexivity.
Qed.

(** A request that is answered by an enveloped response with status
    ["0"] ends as the failure branch says. *)
Lemma get_failure_status tr params schema options w response w' data :
  answered tr params w response w' ->
  jsonBody response data ->
  Js.getProp data "status" = Some (Js.VStr "0") ->
  exists tr',
    getWithUrl tr V2_ENDPOINT params schema options w =
    (failureStatus schema (default Js.VUndefined (Js.getProp data "message"))
                          (default Js.VUndefined (Js.getProp data "result")), tr', w').
Proof.
  intros (Hallowed & (origin & Hurl) & Hmiss & Hfetch) Hbody Hstatus.
  unfold getWithUrl. rewrite Hallowed, Hurl. simpl negb. cbv iota.
  set (interceptedParams := InterceptorManager.applyRequestInterceptors _ _) in *.
  set (cacheKey := createCacheKey _ _ _) in *.
  destruct (LRUCache.get (now w) cacheKey (cache tr)) as [cached c] eqn:Hget.
  simpl in Hmiss.
  assert (requestJob (withCache tr c) V2_ENDPOINT interceptedParams schema options cacheKey w
          = (failureStatus schema (default Js.VUndefined (Js.getProp data "message"))
                                  (default Js.VUndefined (Js.getProp data "result")),
             withCache (withCache tr c) c, w')) as Hjob.
  { unfold requestJob.
    change (requestUrl (withCache tr c) V2_ENDPOINT interceptedParams)
      with (requestUrl tr V2_ENDPOINT interceptedParams).
    rewrite fetchOrFail_withCache, Hfetch.
    rewrite (handleResponse_jsonBody _ _ _ _ _ _ _ data Hbody).
    unfold unwrapEnvelope. rewrite Hstatus. reflexivity. }
  destruct cached as [[]|]; try contradiction; rewrite Hjob; eauto.
Qed.

End Envelope.

(** C3.  A request answered by an enveloped response with status ["0"]
    and the message ["No transactions found"] raises nothing: it
    returns the empty array if the schema accepts one, and [null]
    otherwise. *)
Theorem get_no_transactions_found `{Transport.Platform}
    (tr : Transport.t) (params : InterceptorManager.Params) (schema : Zod.schema)
    (options : option Transport.Options) (w w' : Transport.World)
    (response : Transport.Response) (data : Js.value) :
  Transport.answered tr params w response w' ->
  Transport.jsonBody response data ->
  Js.getProp data "status" = Some (Js.VStr "0") ->
  Js.getProp data "message" = Some (Js.VStr "No transactions found") ->
  exists tr',
    Transport.getWithUrl tr Transport.V2_ENDPOINT params schema options w =
    (Errors.Returns (if Zod.success (Zod.safeParse schema (Js.VArr []))
                     then Js.VArr [] else Js.VNull), tr', w').
Proof.
  intros Hanswered Hbody Hstatus Hmessage.
  destruct (get_failure_status tr params schema options w response w' data
              Hanswered Hbody Hstatus) as (tr' & Hget).
  exists tr'. rewrite Hget, Hmessage. unfold Transport.failureStatus. simpl.
  now destruct (Zod.success _).
Qed.

(** On the example platform, a first fetch that resolves answers the
    request. *)
Lemma mock_answered (m : InterceptorManager.t) (params : InterceptorManager.Params)
    (response : Transport.Response) :
  exists w',
    Transport.answered (Mock.transport 3 m) params
      (Mock.world [Transport.Resolves response]) response w'.
Proof.
  eexists. unfold Transport.answered. split; [reflexivity|].
  split; [eexists; reflexivity|]. split; [exact I|]. reflexivity.
Qed.

Lemma get_no_transactions_found_array_and_scalar :
  let tr := Mock.transport 3 InterceptorManager.create in
  let w := Mock.world [Transport.Resolves (Mock.jsonResponse Mock.noTransactions)] in
  (exists tr' w', Transport.getWithUrl tr Transport.V2_ENDPOINT [("module", Js.VStr "account")]
                    (Zod.array Zod.string) None w = (Errors.Returns (Js.VArr []), tr', w'))
  /\ (exists tr' w', Transport.getWithUrl tr Transport.V2_ENDPOINT [("module", Js.VStr "account")]
                       Types.BigIntSchema None w = (Errors.Returns Js.VNull, tr', w')).
Proof.
  intros tr w.
  destruct (mock_answered InterceptorManager.create [("module", Js.VStr "account")]
              (Mock.jsonResponse Mock.noTransactions)) as (w' & Hanswered).
  assert (Transport.jsonBody (Mock.jsonResponse Mock.noTransactions) Mock.noTransactions)
    as Hbody by (repeat split).
  split.
  - destruct (get_no_transactions_found tr [("module", Js.VStr "account")]
                (Zod.array Zod.string) None w w' _ _ Hanswered Hbody eq_refl eq_refl)
      as (tr' & Hget).
    exists tr', w'. exact Hget.
  - destruct (get_no_transactions_found tr [("module", Js.VStr "account")]
                Types.BigIntSchema None w w' _ _ Hanswered Hbody eq_refl eq_refl)
      as (tr' & Hget).
    exists tr', w'. exact Hget.
Defined.

(** What a string result is tested as: [String(result || '')] is the
    string itself. *)
Lemma toString_or_else_string s :
  Js.toString (Js.or_else (Js.VStr s) (Js.VStr "")) = s.
Proof.
  unfold Js.or_else, Js.truthy, Js.truthy_string.
  destruct (String.eqb s "") eqn:E; simpl; [|reflexivity].
  apply String.eqb_eq in E. now subst.
Qed.

(** C1, as the code has it.  A request answered by an enveloped
    response with status ["0"], whose message is not the empty-result
    sentinel and whose result is a string with "rate limit" in it, in
    any letter case, raises [RateLimitError]. *)
Theorem get_rate_limit_in_result `{Transport.Platform}
    (tr : Transport.t) (params : InterceptorManager.Params) (schema : Zod.schema)
    (options : option Transport.Options) (w w' : Transport.World)
    (response : Transport.Response) (data message : Js.value) (result : string) :
  Transport.answered tr params w response w' ->
  Transport.jsonBody response data ->
  Js.getProp data "status" = Some (Js.VStr "0") ->
  Js.getProp data "message" = Some message ->
  Js.strict_eq_string message "No transactions found" = false ->
  Js.getProp data "result" = Some (Js.VStr result) ->
  Js.test_literal_i "rate limit" result = true ->
  exists tr',
    Transport.getWithUrl tr Transport.V2_ENDPOINT params schema options w = (Errors.Throws Errors.RateLimitError, tr', w').
Proof.
  intros Hanswered Hbody Hstatus Hmessage Hnot Hresult Hmatch.
  destruct (get_failure_status tr params schema options w response w' data
              Hanswered Hbody Hstatus) as (tr' & Hget).
  exists tr'. rewrite Hget, Hmessage, Hresult. unfold Transport.failureStatus. simpl default.
  now rewrite Hnot, toString_or_else_string, Hmatch.
Qed.

Lemma get_rate_limit_in_result_max_rate :
  exists tr' w',
    Transport.getWithUrl (Mock.transport 3 InterceptorManager.create) Transport.V2_ENDPOINT [("module", Js.VStr "account")]
      Types.BigIntSchema None
      (Mock.world [Transport.Resolves (Mock.jsonResponse Mock.rateLimitInResult)])
    = (Errors.Throws Errors.RateLimitError, tr', w').
Proof.
  destruct (mock_answered InterceptorManager.create [("module", Js.VStr "account")]
              (Mock.jsonResponse Mock.rateLimitInResult)) as (w' & Hanswered).
  assert (Transport.jsonBody (Mock.jsonResponse Mock.rateLimitInResult) Mock.rateLimitInResult)
    as Hbody by (repeat split).
  destruct (get_rate_limit_in_result _ [("module", Js.VStr "account")] Types.BigIntSchema None
              _ w' _ _ (Js.VStr "NOTOK")
              "Max rate limit reached, please use API Key for higher rate limit"
              Hanswered Hbody eq_refl eq_refl eq_refl eq_refl eq_refl) as (tr' & Hget).
  exists tr', w'. exact Hget.
Defined.

(** C1 as stated fails: with "rate limit" in the message only, the
    error raised is the generic [APIError], not [RateLimitError]. *)
Lemma get_rate_limit_in_message_is_APIError :
  let outcome :=
    (Transport.getWithUrl (Mock.transport 3 InterceptorManager.create) Transport.V2_ENDPOINT [("module", Js.VStr "account")]
       Types.BigIntSchema None
       (Mock.world [Transport.Resolves (Mock.jsonResponse Mock.rateLimitInMessage)])).1.1 in
  Js.getProp Mock.rateLimitInMessage "status" = Some (Js.VStr "0")
  /\ Js.getProp Mock.rateLimitInMessage "message" = Some (Js.VStr "Max rate limit reached")
  /\ Js.test_literal_i "rate limit" "Max rate limit reached" = true
  /\ outcome = Errors.Throws (Errors.APIError "Max rate limit reached" (Js.VStr ""))
  /\ outcome <> Errors.Throws Errors.RateLimitError.
Proof.
  assert ((Transport.getWithUrl (Mock.transport 3 InterceptorManager.create)
             Transport.V2_ENDPOINT [("module", Js.VStr "account")] Types.BigIntSchema None
             (Mock.world [Transport.Resolves (Mock.jsonResponse Mock.rateLimitInMessage)])).1.1
          = Errors.Throws (Errors.APIError "Max rate limit reached" (Js.VStr ""))) as Hout
    by (vm_compute; reflexivity).
  cbv zeta. rewrite Hout. repeat split. discriminate.
Qed.

(** ** Response interceptors *)

(** Response interceptors run in the order of their registration. *)
Lemma applyResponseInterceptors_in_order (m : InterceptorManager.t)
    (f : Js.value -> Js.value) (v : Js.value) :
  InterceptorManager.applyResponseInterceptors
    (InterceptorManager.addResponseInterceptor f m) v
  = f (InterceptorManager.applyResponseInterceptors m v).
Proof.
  unfold InterceptorManager.applyResponseInterceptors,
    InterceptorManager.addResponseInterceptor; simpl.
  now rewrite fold_left_app.
Qed.

(** What [handleResponse] returns is a validated value put through the
    response interceptors, which it also caches, or else the empty
    array or [null] of the empty-result branch, as it is and
    uncached. *)
Lemma handleResponse_returns `{Transport.Platform}
    (tr : Transport.t) (baseUrl : string) (schema : Zod.schema)
    (options : option Transport.Options) (cacheKey : string)
    (response : Transport.Response) (at_ : Z) (v : Js.value) (c : LRUCache.t Js.value) :
  Transport.handleResponse tr baseUrl schema options cacheKey response at_
  = (Errors.Returns v, c) ->
  (exists validatedData,
     v = InterceptorManager.applyResponseInterceptors (Transport.interceptors tr) validatedData
     /\ c = LRUCache.set at_ cacheKey validatedData None (Transport.cache tr))
  \/ ((v = Js.VArr [] \/ v = Js.VNull) /\ c = Transport.cache tr
      /\ baseUrl = Transport.V2_ENDPOINT).
Proof.
  unfold Transport.handleResponse.
  repeat match goal with
         | |- context [if ?b then _ else _] => destruct b eqn:?; try discriminate
         end.
  - destruct (Zod.safeParse schema _); [|discriminate].
    intros [= <- <-]. left. eauto.
  - destruct (Transport.parseJSON _) as [data|]; [|discriminate].
    unfold Transport.unwrapEnvelope.
    destruct (String.eqb baseUrl Transport.V2_ENDPOINT) eqn:Hbase.
    + apply String.eqb_eq in Hbase.
      destruct (Js.getProp data "status") as [dataStatus|]; [|discriminate].
      destruct (Js.strict_eq_string dataStatus "0").
      * unfold Transport.failureStatus.
        repeat match goal with
               | |- context [if ?b then _ else _] => destruct b eqn:?; try discriminate
               end; intros [= <- <-]; right; auto.
      * destruct (Zod.safeParse schema _); [|discriminate].
        intros [= <- <-]. left. eauto.
    + destruct (Zod.safeParse schema data); [|discriminate].
      intros [= <- <-]. left. eauto.
Qed.

(** Every value [getWithUrl] returns is a value put through the
    response interceptors, be it validated now or read from the cache,
    or else the bare empty array or [null] of the empty-result
    branch. *)
Lemma getWithUrl_returns `{Transport.Platform}
    (tr tr' : Transport.t) (baseUrl : string) (params : InterceptorManager.Params)
    (schema : Zod.schema) (options : option Transport.Options)
    (w w' : Transport.World) (v : Js.value) :
  Transport.getWithUrl tr baseUrl params schema options w = (Errors.Returns v, tr', w') ->
  (exists underlying,
     v = InterceptorManager.applyResponseInterceptors (Transport.interceptors tr) underlying)
  \/ ((v = Js.VArr [] \/ v = Js.VNull) /\ baseUrl = Transport.V2_ENDPOINT).
Proof.
  unfold Transport.getWithUrl.
  destruct (negb (existsb _ _)); [discriminate|].
  destruct (Transport.parseURL baseUrl) as [[protocol origin]|]; [|discriminate].
  destruct (negb (String.eqb protocol "https:")); [discriminate|].
  set (interceptedParams := InterceptorManager.applyRequestInterceptors _ _).
  set (cacheKey := Transport.createCacheKey _ _ _).
  destruct (LRUCache.get _ cacheKey _) as [cached c].
  assert (Transport.requestJob (Transport.withCache tr c) baseUrl interceptedParams schema
            options cacheKey w = (Errors.Returns v, tr', w') ->
          (exists underlying,
             v = InterceptorManager.applyResponseInterceptors (Transport.interceptors tr)
                   underlying)
          \/ ((v = Js.VArr [] \/ v = Js.VNull) /\ baseUrl = Transport.V2_ENDPOINT)) as Hjob.
  { unfold Transport.requestJob.
    destruct (Transport.fetchOrFail _ _ w) as [[response|e] w1]; [|discriminate].
    destruct (Transport.handleResponse _ _ _ _ _ response _) as [r c'] eqn:Hhandle.
    intros [= -> <- <-].
    destruct (handleResponse_returns _ _ _ _ _ _ _ _ _ Hhandle)
      as [(d & -> & _)|(Hv & _ & Hbase)]; [left; eauto|right; auto]. }
  destruct cached as [hit|]; [|exact Hjob].
  destruct hit; try exact Hjob; intros [= <- <- <-]; left; eauto.
Qed.

(** C2, at the input where the transport departs from it.  With one
    response interceptor registered, a request answered by the
    empty-result envelope returns the bare empty array: not what the
    interceptor makes of it. *)
Theorem get_no_transactions_bypasses_interceptors :
  let wrap := fun v => Js.VObj [("data", v)] in
  let m := InterceptorManager.addResponseInterceptor wrap InterceptorManager.create in
  let returned :=
    (Transport.getWithUrl (Mock.transport 3 m) Transport.V2_ENDPOINT [("module", Js.VStr "account")]
       (Zod.array Zod.string) None
       (Mock.world [Transport.Resolves (Mock.jsonResponse Mock.noTransactions)])).1.1 in
  returned = Errors.Returns (Js.VArr [])
  /\ InterceptorManager.applyResponseInterceptors m (Js.VArr [])
     = Js.VObj [("data", Js.VArr [])]
  /\ returned <> Errors.Returns (InterceptorManager.applyResponseInterceptors m (Js.VArr [])).
Proof.
  intros wrap m returned.
  assert (returned = Errors.Returns (Js.VArr [])) as Hret by (vm_compute; reflexivity).
  rewrite Hret. split; [reflexivity|]. split; [reflexivity|]. discriminate.
Qed.

(** ** Numeric schemas *)

Lemma digit_value_of_digit c :
  Js.is_digit c = true -> Js.digit_value 10 c = Some (Js.code c - 48).
Proof.
  unfold Js.is_digit, Js.digit_value, Js.between. intros Hd. rewrite Hd.
  apply andb_true_iff in Hd as [_ Hhi]. apply Z.leb_le in Hhi.
  destruct (Js.code c - 48 <? 10) eqn:E; [reflexivity|].
  apply Z.ltb_ge in E. lia.
Qed.

Lemma digits_value_decimal s : forall acc,
  Types.all_chars Js.is_digit s = true ->
  Js.digits_value 10 acc s =
    Some (acc * 10 ^ Z.of_nat (String.length s) + Spec.decimalValue s).
Proof.
  induction s as [|c r IH]; intros acc Hall; simpl in *.
  - f_equal. lia.
  - apply andb_true_iff in Hall as [Hc Hr].
    rewrite (digit_value_of_digit c Hc), (IH _ Hr). f_equal.
    rewrite Nat2Z.inj_succ, Z.pow_succ_r by lia. ring.
Qed.

Lemma digit_not_space c : Js.is_digit c = true -> Js.is_space c = false.
Proof.
  unfold Js.is_digit, Js.is_space, Js.between. intros Hd.
  apply andb_true_iff in Hd as [Hlo Hhi]. apply Z.leb_le in Hlo, Hhi.
  repeat (apply orb_false_iff; split).
  - apply andb_false_iff. right. apply Z.leb_gt. lia.
  - apply Z.eqb_neq. lia.
  - apply Z.eqb_neq. lia.
Qed.

Lemma trimEnd_digits s :
  Types.all_chars Js.is_digit s = true -> Js.trimEnd s = s.
Proof.
  induction s as [|c r IH]; simpl; [reflexivity|]. intros Hall.
  apply andb_true_iff in Hall as [Hc Hr]. rewrite (IH Hr).
  destruct r; [|reflexivity]. now rewrite (digit_not_space c Hc).
Qed.

Lemma trim_digits s :
  Types.all_chars Js.is_digit s = true -> Js.trim s = s.
Proof.
  intros Hall. unfold Js.trim.
  assert (Js.trimStart s = s) as ->.
  { destruct s as [|c r]; [reflexivity|]. simpl in *.
    apply andb_true_iff in Hall as [Hc _]. now rewrite (digit_not_space c Hc). }
  now apply trimEnd_digits.
Qed.

Lemma radix_prefix_digits s :
  Types.all_chars Js.is_digit s = true -> Js.radix_prefix s = None.
Proof.
  destruct s as [|a [|c r]]; try reflexivity.
  - now destruct a as [[] [] [] [] [] [] [] []].
  - simpl. intros Hall.
    apply andb_true_iff in Hall as [_ Hall]. apply andb_true_iff in Hall as [Hc _].
    unfold Js.is_digit, Js.between in Hc.
    apply andb_true_iff in Hc as [Hlo Hhi]. apply Z.leb_le in Hlo, Hhi.
    assert (forall n, 57 < n -> (Js.code c =? n) = false) as Hne
      by (intros; apply Z.eqb_neq; lia).
    destruct a as [[] [] [] [] [] [] [] []]; try reflexivity.
    now rewrite !Hne by lia.
Qed.

(** On a non-empty string of decimal digits, [BigInt] is the value the
    digits denote. *)
Lemma BigInt_decimal s :
  Spec.isDecimal s = true -> Js.BigInt s = Some (Spec.decimalValue s).
Proof.
  unfold Spec.isDecimal. intros Hd.
  apply andb_true_iff in Hd as [Hne Hall].
  unfold Js.BigInt. rewrite (trim_digits s Hall), (radix_prefix_digits s Hall).
  destruct s as [|c r]; [discriminate|].
  assert (Js.is_digit c = true) as Hc by (simpl in Hall; now apply andb_true_iff in Hall).
  unfold Js.is_digit, Js.between in Hc.
  apply andb_true_iff in Hc as [Hlo Hhi]. apply Z.leb_le in Hlo, Hhi.
  replace (Js.code c =? 45) with false by (symmetry; apply Z.eqb_neq; lia).
  replace (Js.code c =? 43) with false by (symmetry; apply Z.eqb_neq; lia).
  unfold Js.nonempty_digits_value. rewrite (digits_value_decimal _ 0 Hall). f_equal.
Qed.

(** The monetary schema is exact on decimal digit strings of any size:
    the result is the arbitrary-precision integer the digits denote. *)
Lemma BigIntSchema_exact s :
  Spec.isDecimal s = true ->
  Zod.safeParse Types.BigIntSchema (Js.VStr s) = Zod.Success (Js.VBigInt (Spec.decimalValue s)).
Proof. intros Hd. simpl. now rewrite (BigInt_decimal s Hd). Qed.

Example BigIntSchema_above_2_53 :
  Zod.safeParse Types.BigIntSchema (Js.VStr "9007199254740993")
  = Zod.Success (Js.VBigInt (2 ^ 53 + 1)).
Proof. reflexivity. Qed.

(** Where [BigInt] throws, the monetary schema fails with one custom
    issue, and whatever is not a string is refused as such. *)
Lemma BigIntSchema_fails_where_BigInt_throws s :
  Js.BigInt s = None ->
  exists i, Zod.safeParse Types.BigIntSchema (Js.VStr s) = Zod.Failure [i]
            /\ Zod.issue_code i = "custom".
Proof. intros Hn. simpl. rewrite Hn. eauto. Qed.

Lemma digits_value_is_Some radix s acc z :
  Js.digits_value radix acc s = Some z ->
  Types.all_chars (fun c => bool_decide (is_Some (Js.digit_value radix c))) s = true.
Proof.
  revert acc. induction s as [|c r IH]; intros acc; simpl; [reflexivity|].
  destruct (Js.digit_value radix c) as [d|] eqn:E; [|discriminate].
  intros Hrest. rewrite (IH _ Hrest), andb_true_r.
  apply bool_decide_eq_true. eauto.
Qed.

Lemma decimal_digit_is_digit c :
  is_Some (Js.digit_value 10 c) -> Js.is_digit c = true.
Proof.
  unfold Js.digit_value, Js.is_digit. intros [d Hd].
  destruct (Js.between 48 57 c); [reflexivity|].
  unfold Js.between in Hd.
  destruct ((97 <=? Js.code c) && (Js.code c <=? 102)) eqn:E1.
  - apply andb_true_iff in E1 as [Hlo _]. apply Z.leb_le in Hlo.
    destruct (Js.code c - 87 <? 10) eqn:E; [|discriminate]. apply Z.ltb_lt in E. lia.
  - destruct ((65 <=? Js.code c) && (Js.code c <=? 70)) eqn:E2; [|discriminate].
    apply andb_true_iff in E2 as [Hlo _]. apply Z.leb_le in Hlo.
    destruct (Js.code c - 55 <? 10) eqn:E; [|discriminate]. apply Z.ltb_lt in E. lia.
Qed.

Lemma all_decimal_digits s :
  Types.all_chars (fun c => bool_decide (is_Some (Js.digit_value 10 c))) s = true ->
  Types.all_chars Js.is_digit s = true.
Proof.
  induction s as [|a s IH]; simpl; [reflexivity|].
  intros Hall. apply andb_true_iff in Hall as [Ha Hs].
  apply bool_decide_eq_true in Ha. now rewrite (decimal_digit_is_digit a Ha), IH.
Qed.

Lemma nonempty_digits_isDecimal s z :
  Js.nonempty_digits_value 10 s = Some z -> Spec.isDecimal s = true.
Proof.
  destruct s as [|c r]; [discriminate|]. intros Hv.
  unfold Spec.isDecimal. apply andb_true_iff. split; [reflexivity|].
  apply all_decimal_digits. exact (digits_value_is_Some 10 _ 0 z Hv).
Qed.

(** Blank strings are the only strings [BigInt] reads that are not
    integer literals, white space around them apart; it reads them as
    zero. *)
Lemma BigInt_reads_literals_and_blanks s z :
  Js.BigInt s = Some z ->
  (Js.trim s = "" /\ z = 0) \/ Spec.isIntegerLiteral (Js.trim s) = true.
Proof.
  unfold Js.BigInt, Spec.isIntegerLiteral.
  destruct (Js.trim s) as [|c r] eqn:Et; [intros [= <-]; now left|].
  intros Hv. right.
  destruct (Js.radix_prefix (String c r)) as [[radix body]|].
  - unfold Js.nonempty_digits_value in Hv. destruct body as [|b body]; [discriminate|].
    simpl negb. cbv iota. simpl andb. now apply digits_value_is_Some in Hv.
  - destruct (Js.code c =? 45); simpl orb; cbv iota.
    + destruct (Js.nonempty_digits_value 10 r) as [v|] eqn:E; [|discriminate].
      now apply nonempty_digits_isDecimal in E.
    + destruct (Js.code c =? 43); simpl orb; cbv iota;
        now apply nonempty_digits_isDecimal in Hv.
Qed.

(** C4, at the inputs where the schema departs from it.  The empty
    string and a string of blanks are not integer literals, yet
    [BigInt] reads them as [0n], so the monetary schema accepts them and
    yields zero with no issue. *)
Theorem BigIntSchema_blank_is_silent_zero :
  Zod.safeParse Types.BigIntSchema (Js.VStr "") = Zod.Success (Js.VBigInt 0)
  /\ Zod.safeParse Types.BigIntSchema (Js.VStr "   ") = Zod.Success (Js.VBigInt 0)
  /\ Spec.isIntegerLiteral "" = false /\ Spec.isIntegerLiteral "   " = false.
Proof. repeat split. Qed.

(** C10.  Where [Number(s)] is [NaN], the count-style schema succeeds
    with the number [0]; so does the [RemainingBlock] field of the block
    countdown, which uses it. *)
Theorem NumberStringSchema_NaN_is_zero (s : string) :
  Js.isNaN (Js.Number s) = true ->
  Zod.safeParse Types.NumberStringSchema (Js.VStr s) = Zod.Success (Js.VNum Js.zero)
  /\ forall cur cd est,
       Zod.safeParse Types.BlockCountdownSchema
         (Js.VObj [("CurrentBlock", Js.VStr cur); ("CountdownBlock", Js.VStr cd);
                   ("RemainingBlock", Js.VStr s); ("EstimateTimeInSec", Js.VStr est)])
       = Zod.Success
           (Js.VObj [("CurrentBlock", Js.VStr cur); ("CountdownBlock", Js.VStr cd);
                     ("RemainingBlock", Js.VNum Js.zero); ("EstimateTimeInSec", Js.VStr est)]).
Proof.
  intros Hnan. split.
  - simpl. now rewrite Hnan.
  - intros cur cd est. simpl. now rewrite Hnan.
Qed.

Lemma NumberStringSchema_NaN_is_zero_abc :
  Js.isNaN (Js.Number "abc") = true
  /\ Zod.safeParse Types.NumberStringSchema (Js.VStr "abc") = Zod.Success (Js.VNum Js.zero).
Proof.
  split; [reflexivity|].
  apply (NumberStringSchema_NaN_is_zero "abc"). reflexivity.
Defined.

(** ** The address count of [getBalance] *)

(** C9, as the code has it.  With more than twenty addresses in the
    list, [getBalance] throws a plain [Error] with the message "Cannot
    query more than 20 addresses at once"; the transport and the world
    are as they were, so no request was made. *)
Theorem getBalance_over_20_throws_plain_Error `{Transport.Platform}
    (tr : Transport.t) (addressOrParams : string + Account.BalanceParams)
    (tag : option string) (w : Transport.World) :
  20 < Z.of_nat (length (Account.splitAddresses
                           (Account.address (Account.balanceParams addressOrParams tag)))) ->
  Account.getBalance tr addressOrParams tag w
  = (Errors.Throws (Errors.Native
       (Errors.ThrownError "Error" "Cannot query more than 20 addresses at once")), tr, w).
Proof.
  intros Hmany. unfold Account.getBalance.
  destruct (Account.splitAddresses _) as [|a [|b rest]] eqn:E; simpl in Hmany; try lia.
  replace (Z.of_nat (length (a :: b :: rest)) >? 20) with true; [reflexivity|].
  symmetry. apply Z.gtb_lt. simpl. lia.
Qed.

Lemma getBalance_over_20_throws_plain_Error_21 :
  20 < Z.of_nat (length (Account.splitAddresses Mock.twentyOneAddresses))
  /\ Account.getBalance (Mock.transport 3 InterceptorManager.create)
       (inl Mock.twentyOneAddresses) None (Mock.world [])
     = (Errors.Throws (Errors.Native
          (Errors.ThrownError "Error" "Cannot query more than 20 addresses at once")),
        Mock.transport 3 InterceptorManager.create, Mock.world []).
Proof.
  split; [vm_compute; reflexivity|].
  apply (getBalance_over_20_throws_plain_Error _ (inl Mock.twentyOneAddresses) None).
  vm_compute. reflexivity.
Defined.

(** C9 as stated fails: for twenty-one addresses the error is not a
    [ValidationError], nor any of the SDK's typed errors. *)
Lemma getBalance_21_is_not_a_ValidationError :
  exists e,
    (Account.getBalance (Mock.transport 3 InterceptorManager.create)
       (inl Mock.twentyOneAddresses) None (Mock.world [])).1.1 = Errors.Throws e
    /\ Errors.isValidationError e = false
    /\ Errors.isEtherscanError e = false.
Proof.
  eexists. split; [vm_compute; reflexivity|]. split; reflexivity.
Qed.

(** The validator of address lists does raise the typed error on more
    than twenty entries; [getBalance] has its own guard and does not
    call it. *)
Lemma addressList_over_20_is_ValidationError (value fieldName : string) :
  Js.truthy_string value = true ->
  20 < Z.of_nat (length (Js.split "," value)) ->
  exists message,
    Validators.addressList (Some value) fieldName
    = Errors.Throws (Errors.ValidationError message).
Proof.
  intros Htruthy Hmany. unfold Validators.addressList. simpl. rewrite Htruthy. simpl.
  destruct (Js.strlen value >? Validators.MAX_STRING_LENGTH); [eauto|].
  rewrite length_map.
  replace (Z.of_nat (length (Js.split "," value)) >? Validators.MAX_ADDRESSES) with true;
    [eauto|].
  symmetry. rewrite Z.gtb_ltb. apply Z.ltb_lt. unfold Validators.MAX_ADDRESSES. lia.
Qed.

(** * Further properties *)

(** ** The cache: reads, expiry, switching off *)

Section CacheReads.

Import LRUCache.

Context {T : Type}.

Implicit Types (c : LRUCache.t T) (key : string).

Lemma config_set c now key (value : T) ttl' :
  config (set now key value ttl' c) = config c.
Proof.
  unfold set. destruct (negb (enabled (config c))); [reflexivity|].
  destruct (cache c !! key); [reflexivity|]. simpl.
  destruct (size c >=? maxSize (config c)); [|reflexivity].
  unfold evictInSet. destruct (OrderedSet.first (accessOrder c)); [|reflexivity].
  now destruct (Js.truthy_string _).
Qed.

Lemma lookup_set c now key (value : T) ttl' :
  enabled (config c) = true ->
  cache (set now key value ttl' c) !! key
  = Some {| data := value; timestamp := now;
            ttl := default (defaultTtl (config c)) ttl' |}.
Proof.
  intros Hon. unfold set. rewrite Hon. simpl.
  destruct (cache c !! key); simpl; apply lookup_insert_eq.
Qed.

(** On an enabled cache, a value that was set is read back until its
    time to live has passed: the given one, or the default one. *)
Theorem get_after_set c now now' key (value : T) ttl' :
  enabled (config c) = true ->
  now' - now <= default (defaultTtl (config c)) ttl' ->
  (get now' key (set now key value ttl' c)).1 = Some value.
Proof.
  intros Hon Hfresh. unfold get. rewrite config_set, Hon, (lookup_set c now key value ttl' Hon).
  simpl. unfold expired. simpl.
  replace (now' - now >? default (defaultTtl (config c)) ttl') with false; [reflexivity|].
  symmetry. rewrite Z.gtb_ltb. apply Z.ltb_ge. exact Hfresh.
Qed.

(** A read after the time to live has passed misses, and removes the
    entry from the map and from the access order; the other entries
    stay. *)
Theorem get_after_expiry c now key (entry : CacheEntry T) :
  enabled (config c) = true ->
  cache c !! key = Some entry ->
  ttl entry < now - timestamp entry ->
  let r := get now key c in
  r.1 = None
  /\ cache r.2 !! key = None
  /\ (key ∉ accessOrder (snd r))
  /\ (forall k, k <> key -> cache r.2 !! k = cache c !! k)
  /\ size r.2 = size c - 1.
Proof.
  intros Hon Hheld Hold r. subst r. unfold get. rewrite Hon, Hheld. simpl.
  replace (expired now entry) with true
    by (symmetry; unfold expired; rewrite Z.gtb_ltb; apply Z.ltb_lt; exact Hold).
  simpl. rewrite size_delete_present by eauto.
  unfold delete. rewrite Hheld. simpl.
  split; [reflexivity|]. split; [apply lookup_delete_eq|]. split.
  - rewrite elem_of_OrderedSet_delete. tauto.
  - split; [|reflexivity]. intros k Hk. apply lookup_delete_ne. congruence.
Qed.

(** Switching the cache off with [updateConfig] empties it, and from
    then on a [set] stores nothing and a [get] misses. *)
Theorem updateConfig_disable c (fuel : nat) :
  0 <= maxSize (config c) ->
  exists c',
    updateConfig fuel (mkPartial None None (Some false)) c = Some c'
    /\ cache c' = ∅ /\ accessOrder c' = [] /\ size c' = 0
    /\ maxSize (config c') = maxSize (config c)
    /\ (forall now key (value : T) ttl', set now key value ttl' c' = c')
    /\ (forall now key, get now key c' = (None, c')).
Proof.
  intros Hmax. unfold updateConfig. simpl.
  set (c' := clear _).
  assert (evictLoop fuel c' = Some c') as ->.
  { destruct fuel; simpl; (replace (size c' >? maxSize (config c)) with false; [reflexivity|]);
      symmetry; rewrite Z.gtb_ltb; apply Z.ltb_ge; unfold size; simpl;
      rewrite map_size_empty; exact Hmax. }
  exists c'. split; [reflexivity|]. split; [reflexivity|]. split; [reflexivity|].
  split; [unfold size; simpl; now rewrite map_size_empty|].
  split; [reflexivity|]. split; reflexivity.
Qed.

End CacheReads.

Section CacheReadsExamples.

Import LRUCache.

Lemma get_after_set_default_ttl :
  (get 300000 "k" (set 0 "k" 7%nat None (create noOverrides))).1 = Some 7%nat.
Proof.
  apply (get_after_set (create noOverrides) 0 300000 "k" 7%nat None); [reflexivity|].
  vm_compute. discriminate.
Defined.

Lemma get_after_expiry_50ms :
  let c := set 0 "k" 7%nat (Some 50) (create noOverrides) in
  (get 51 "k" c).1 = None /\ size (get 51 "k" c).2 = 0.
Proof.
  intros c.
  destruct (get_after_expiry c 51 "k" (mkEntry 7%nat 0 50)) as (Hmiss & _ & _ & _ & Hsize).
  - reflexivity.
  - reflexivity.
  - vm_compute. reflexivity.
  - split; [exact Hmiss|]. rewrite Hsize. reflexivity.
Defined.

Lemma updateConfig_disable_then_set :
  exists c',
    updateConfig 0 (mkPartial None None (Some false))
      (set 0 "k" 7%nat None (create noOverrides)) = Some c'
    /\ size (set 1 "j" 8%nat None c') = 0.
Proof.
  destruct (updateConfig_disable (set 0 "k" 7%nat None (create noOverrides)) 0)
    as (c' & Hrun & _ & _ & Hsize & _ & Hset & _).
  - vm_compute. discriminate.
  - exists c'. split; [exact Hrun|]. now rewrite Hset.
Defined.

End CacheReadsExamples.

Section CacheRecency.

Import LRUCache.

Context {T : Type}.

Implicit Types (c : LRUCache.t T) (key : string).

(** A hit protects the key it read.  The cache is enabled, holds no
    entry under the empty key (its access order lists the keys of the
    map, each once), and is full with two entries or more.  Then, after
    a hit on [key], the [set] of a key the cache does not hold evicts
    another key: the key that was read keeps its entry, the new key is
    held with its value, and the cache stays full. *)
Theorem read_protects_from_eviction c now now' key k' (value hit : T) ttl' :
  withinBound c -> enabled (config c) = true ->
  (get now key c).1 = Some hit ->
  size c = maxSize (config c) -> 2 <= size c ->
  cache c !! k' = None ->
  let c' := set now' k' value ttl' (get now key c).2 in
  cache c' !! key = cache c !! key
  /\ size c' = maxSize (config c')
  /\ data <$> cache c' !! k' = Some value
  /\ exists evicted,
       evicted <> key /\ is_Some (cache c !! evicted) /\ cache c' !! evicted = None.
Proof.
  intros Hb Hon Hhit Hfull Htwo Hnew c'. subst c'.
  pose proof (withinBound_get c now key Hb) as Hb1.
  unfold get in *. rewrite Hon in *. simpl in *.
  destruct (cache c !! key) as [entry|] eqn:Hheld; [|discriminate].
  destruct (expired now entry); [discriminate|]. simpl in *.
  set (c1 := {| cache := cache c |}) in *.
  assert (size c1 = size c) as Hsize1 by reflexivity.
  destruct Hb1 as (Hc1 & Hbound1 & Hmax1).
  destruct (evict_head c1 Hc1 ltac:(lia)) as (lru & rest & Horder & Hlru & _).
  assert (lru <> key) as Hne.
  { intros ->. pose proof (consistent_length c1 Hc1) as Hlen.
    destruct Hc1 as (Hnd & _). rewrite Horder in Hnd, Hlen.
    subst c1. simpl in *. unfold touch in Horder.
    rewrite OrderedSet_add_new in Horder by (rewrite elem_of_OrderedSet_delete; tauto).
    destruct (OrderedSet.delete key (accessOrder c)) as [|x xs] eqn:Hdel.
    - injection Horder as <-. unfold size in Htwo. simpl in Hlen. lia.
    - injection Horder as -> _.
      assert (key ∈ OrderedSet.delete key (accessOrder c)) as Hin by (rewrite Hdel; left).
      apply elem_of_OrderedSet_delete in Hin. tauto. }
  set (c' := set now' k' value ttl' c1).
  assert (c' = {| cache := <[k' := {| data := value; timestamp := now';
                                      ttl := default (defaultTtl (config c1)) ttl' |}]>
                             (base.delete lru (cache c1));
                  accessOrder := rest ++ [k'];
                  config := config c1 |}) as ->.
  { subst c'. apply set_at_capacity_evicts_lru; try assumption.
    split; [exact Hc1|]. split; assumption. }
  assert (lru <> k') as Hnew'
    by (intros ->; destruct Hlru as [x Hx]; simpl in Hx; congruence).
  simpl. split; [|split; [|split]].
  - rewrite lookup_insert_ne by congruence. rewrite lookup_delete_ne by exact Hne.
    exact Hheld.
  - unfold size in *. simpl in *.
    rewrite map_size_insert_None by (rewrite lookup_delete_ne; [exact Hnew|exact Hnew']).
    rewrite map_size_delete_Some by exact Hlru. lia.
  - now rewrite lookup_insert_eq.
  - exists lru. split; [exact Hne|]. split; [exact Hlru|].
    rewrite lookup_insert_ne by congruence. apply lookup_delete_eq.
Qed.

(** The cache is enabled, has a [maxSize] of one or more and holds no
    entry under the empty key (its access order lists the keys of the
    map, each once).  Then, when it is full, setting a key it does not
    hold evicts the key that was used least recently, and only that
    one: the new key is held with its value, every other entry stays,
    and the cache is as full as it was. *)
Theorem full_cache_evicts_least_recent c now key (value : T) ttl' lru rest :
  withinBound c -> enabled (config c) = true ->
  cache c !! key = None ->
  size c = maxSize (config c) ->
  accessOrder c = lru :: rest ->
  let c' := set now key value ttl' c in
  cache c' !! lru = None
  /\ data <$> cache c' !! key = Some value
  /\ (forall k, k <> lru -> k <> key -> cache c' !! k = cache c !! k)
  /\ size c' = size c
  /\ accessOrder c' = rest ++ [key].
Proof.
  intros Hb Hon Hnew Hfull Horder c'. subst c'.
  rewrite (set_at_capacity_evicts_lru c now key value ttl' lru rest Hb Hon Hnew Hfull Horder).
  destruct Hb as (Hc & _ & Hmax).
  assert (is_Some (cache c !! lru)) as Hlru
    by (apply (proj1 (proj2 Hc)); rewrite Horder; left).
  assert (lru <> key) as Hne by (intros ->; destruct Hlru as [x Hx]; congruence).
  unfold size. simpl. split; [|split; [|split; [|split]]].
  - rewrite lookup_insert_ne by congruence. apply lookup_delete_eq.
  - now rewrite lookup_insert_eq.
  - intros k Hk1 Hk2. rewrite lookup_insert_ne by congruence. now apply lookup_delete_ne.
  - rewrite map_size_insert_None by (rewrite lookup_delete_ne; [exact Hnew|exact Hne]).
    rewrite map_size_delete_Some by exact Hlru.
    assert (base.size (cache c) <> 0)%nat by (eapply map_size_ne_0_lookup_2; exact Hlru).
    lia.
  - reflexivity.
Qed.

Lemma cache_delete c key : cache (delete key c).2 = base.delete key (cache c).
Proof.
  unfold delete. destruct (cache c !! key) eqn:E; [reflexivity|].
  simpl. symmetry. now apply delete_id.
Qed.

(** [cleanup] removes the entries whose time to live has passed, and
    only those. *)
Theorem cleanup_removes_the_expired c now key :
  cache (cleanup now c) !! key
  = match cache c !! key with
    | Some e => if expired now e then None else Some e
    | None => None
    end.
Proof.
  unfold cleanup.
  assert (forall l : list (string * CacheEntry T),
            cache (fold_right
                     (fun kv acc => if expired now kv.2 then (delete kv.1 acc).2 else acc) c l)
              !! key
            = match cache c !! key with
              | Some e =>
                  if existsb (fun kv => String.eqb kv.1 key && expired now kv.2) l
                  then None else Some e
              | None => None
              end) as Hfold.
  { induction l as [|[k0 e0] l IH]; simpl.
    - now destruct (cache c !! key).
    - destruct (expired now e0) eqn:Hexp; simpl.
      + rewrite cache_delete. destruct (String.eqb k0 key) eqn:Hk; simpl.
        * apply String.eqb_eq in Hk. subst. rewrite lookup_delete_eq.
          now destruct (cache c !! key).
        * apply String.eqb_neq in Hk. now rewrite lookup_delete_ne.
      + rewrite andb_false_r. simpl. exact IH. }
  rewrite Hfold. destruct (cache c !! key) as [e|] eqn:Hheld; [|reflexivity].
  destruct (expired now e) eqn:Hexp.
  - replace (existsb _ _) with true; [reflexivity|]. symmetry.
    apply existsb_exists. exists (key, e). split.
    + apply list_elem_of_In, elem_of_map_to_list. exact Hheld.
    + simpl. now rewrite String.eqb_refl.
  - destruct (existsb _ _) eqn:Hex; [|reflexivity].
    apply existsb_exists in Hex as ([k0 e0] & Hin & Hmatch). simpl in Hmatch.
    apply andb_true_iff in Hmatch as [Hk He0]. apply String.eqb_eq in Hk. subst k0.
    apply list_elem_of_In, elem_of_map_to_list in Hin. congruence.
Qed.

End CacheRecency.

Section CacheExamples.

Import LRUCache.

Lemma threeKeys_withinBound : withinBound Mock.threeKeys.
Proof.
  unfold Mock.threeKeys. repeat apply withinBound_set; try discriminate.
  split; [exact (consistent_clear (create (mkPartial (Some 3) None None)))|].
  vm_compute. split; discriminate.
Qed.

Lemma read_protects_from_eviction_three_keys :
  let c' := set 4 "d" 4%nat None (get 3 "a" Mock.threeKeys).2 in
  cache c' !! "a" = cache Mock.threeKeys !! "a" /\ size c' = 3.
Proof.
  intros c'.
  destruct (read_protects_from_eviction Mock.threeKeys 3 4 "a" "d" 4%nat 1%nat None)
    as (Hkept & Hsize & _).
  - exact threeKeys_withinBound.
  - reflexivity.
  - reflexivity.
  - reflexivity.
  - vm_compute. discriminate.
  - reflexivity.
  - split; [exact Hkept|exact Hsize].
Defined.

Lemma LRUCache_bounded_on_nonempty_keys_run :
  exists c,
    runOps [Set_ 0 "a" 1%nat None; Set_ 1 "b" 2%nat None; Get 2 "a";
            UpdateConfig (mkPartial (Some 1) None None); Set_ 3 "c" 3%nat None]
      (create (mkPartial (Some 2) None None)) = Some c
    /\ size c <= maxSize (config c).
Proof.
  apply LRUCache_bounded_on_nonempty_keys.
  - vm_compute. discriminate.
  - repeat constructor; try discriminate. intros m [= <-]. lia.
Defined.

Lemma full_cache_evicts_least_recent_three_keys :
  let c' := set 3 "d" 4%nat None Mock.threeKeys in
  cache c' !! "a" = None /\ data <$> cache c' !! "d" = Some 4%nat /\ size c' = 3.
Proof.
  intros c'.
  destruct (full_cache_evicts_least_recent Mock.threeKeys 3 "d" 4%nat None "a" ["b"; "c"])
    as (Hgone & Hheld & _ & Hsize & _).
  - exact threeKeys_withinBound.
  - reflexivity.
  - reflexivity.
  - reflexivity.
  - reflexivity.
  - split; [exact Hgone|]. split; [exact Hheld|exact Hsize].
Defined.

Lemma updateConfig_shrinks_to_bound_three_keys :
  exists c',
    updateConfig 3 (mkPartial (Some 1) None None) Mock.threeKeys = Some c'
    /\ size c' = 1 /\ accessOrder c' = ["c"].
Proof.
  destruct (updateConfig_shrinks_to_bound Mock.threeKeys 1) as (c' & Hrun & Hsize & _ & Horder & _).
  - apply threeKeys_withinBound.
  - reflexivity.
  - vm_compute. split; discriminate.
  - exists c'. split; [exact Hrun|]. split; [exact Hsize|exact Horder].
Defined.

End CacheExamples.

(** ** The deduplicator: [clear] while a request is pending *)

Section DeduplicationCleared.

Import RequestDeduplicator.

Context {R : Type}.

Implicit Types (d : RequestDeduplicator.t R) (key : string) (p : nat) (r : R).

(** [clear()] while a request for [key] is pending forgets it: the next
    call starts a second request; when the first one settles, its
    [finally] callback deletes the entry of the second one, which is
    still pending, so a third call starts a third request. *)
Theorem clear_while_pending_duplicates d key p r :
  registered d ->
  pendingRequests d !! key = Some p ->
  let second := deduplicate key (clear d) in
  let d' := settle p r second.2 in
  second.1 <> p
  /\ invocations second.2 = invocations d ++ [key]
  /\ promises d' !! second.1 = Some (key, None)
  /\ pendingRequests d' !! key = None
  /\ invocations (deduplicate key d').2 = invocations d ++ [key; key].
Proof.
  intros Hreg Hp second d'. apply Hreg in Hp.
  assert (p < length (promises d))%nat as Hlt by (now apply lookup_lt_Some in Hp).
  assert (second = (length (promises d),
                    {| pendingRequests := <[key := length (promises d)]> ∅;
                       promises := promises d ++ [(key, None)];
                       invocations := invocations d ++ [key] |})) as Hsecond
    by (subst second; unfold deduplicate, clear; simpl; now rewrite lookup_empty).
  assert (d' = {| pendingRequests := base.delete key (<[key := length (promises d)]> ∅);
                  promises := <[p := (key, Some r)]> (promises d ++ [(key, None)]);
                  invocations := invocations d ++ [key] |}) as Hd'.
  { subst d'. rewrite Hsecond. unfold settle. simpl.
    rewrite lookup_app_l by exact Hlt. now rewrite Hp. }
  rewrite Hsecond in *. simpl. split; [lia|]. split; [reflexivity|].
  rewrite Hd'. simpl. split; [|split].
  - rewrite list_lookup_insert_ne by lia.
    now rewrite lookup_app_r, Nat.sub_diag by lia.
  - apply lookup_delete_eq.
  - unfold deduplicate. simpl. rewrite lookup_delete_eq. simpl.
    now rewrite <- app_assoc.
Qed.

End DeduplicationCleared.

Lemma clear_while_pending_duplicates_sig :
  let d := RequestDeduplicator.run (R := bool) [RequestDeduplicator.Call "sig"] in
  let second := RequestDeduplicator.deduplicate "sig" (RequestDeduplicator.clear d) in
  let d' := RequestDeduplicator.settle 0 true second.2 in
  RequestDeduplicator.promises d' !! second.1 = Some ("sig", None)
  /\ RequestDeduplicator.invocations (RequestDeduplicator.deduplicate "sig" d').2
     = ["sig"; "sig"; "sig"].
Proof.
  intros d second d'.
  destruct (clear_while_pending_duplicates d "sig" 0%nat true) as (_ & _ & Hheld & _ & Hcalls).
  - apply registered_run. repeat constructor.
  - reflexivity.
  - split; [exact Hheld|exact Hcalls].
Defined.

(** ** The limiter registry: counting and isolation *)

Section RegistryCounting.

Import GlobalRateLimiterRegistry.

Variable hashKey : string -> string.

Lemma acquire_iter st apiKey r q i (n : nat) :
  limiters st !! hashKey apiKey = None ->
  Nat.iter (S n) (fun s => (getLimiter hashKey apiKey r q i s).2) st
  = {| limiters := <[hashKey apiKey := {| limiter := length (heap st);
                                          refCount := Z.of_nat (S n) |}]> (limiters st);
       heap := heap st ++ [ {| options := {| minTime := ceilPerSecond r;
                                             maxConcurrent := 2;
                                             reservoir := q;
                                             reservoirRefreshAmount := q;
                                             reservoirRefreshInterval := i |};
                               stopped := None |} ] |}.
Proof.
  intros Hnone. induction n as [|n IH].
  - simpl. unfold getLimiter. rewrite Hnone. reflexivity.
  - change (Nat.iter (S (S n)) ?f st) with (f (Nat.iter (S n) f st)).
    rewrite IH. unfold getLimiter. simpl. rewrite lookup_insert_eq. simpl.
    rewrite insert_insert_eq. do 3 f_equal. lia.
Qed.

Lemma release_iter apiKey (held : gmap string entry) (h : list Bottleneck) (l : nat) (n m : nat) :
  (m <= n)%nat ->
  Nat.iter m (cleanup hashKey apiKey)
    {| limiters := <[hashKey apiKey := {| limiter := l; refCount := Z.of_nat (S n) |}]> held;
       heap := h |}
  = {| limiters := <[hashKey apiKey := {| limiter := l; refCount := Z.of_nat (S n - m) |}]> held;
       heap := h |}.
Proof.
  induction m as [|m IH]; intros Hm.
  - reflexivity.
  - simpl Nat.iter. rewrite IH by lia. unfold cleanup. simpl. rewrite lookup_insert_eq. simpl.
    replace (Z.of_nat (S n - m) - 1 <=? 0) with false by (symmetry; apply Z.leb_gt; lia).
    rewrite insert_insert_eq. do 3 f_equal. lia.
Qed.

(** A credential acquired [n + 1] times keeps one running limiter
    through its first [n] releases, with the count of the holders left;
    the last release stops that limiter, letting waiting jobs run, and
    puts the registry back as it was. *)
Theorem registry_counts_holders st apiKey r q i (n : nat) :
  limiters st !! hashKey apiKey = None ->
  let l := length (heap st) in
  let st1 := Nat.iter (S n) (fun s => (getLimiter hashKey apiKey r q i s).2) st in
  (forall m, (m <= n)%nat ->
     let st2 := Nat.iter m (cleanup hashKey apiKey) st1 in
     limiters st2 !! hashKey apiKey
     = Some {| limiter := l; refCount := Z.of_nat (S n - m) |}
     /\ stopped <$> heap st2 !! l = Some None)
  /\ (let st3 := Nat.iter (S n) (cleanup hashKey apiKey) st1 in
      limiters st3 = limiters st
      /\ stopped <$> heap st3 !! l = Some (Some false)
      /\ forall l', l' <> l -> heap st3 !! l' = heap st !! l').
Proof.
  intros Hnone l st1. subst st1. rewrite acquire_iter by exact Hnone. split.
  - intros m Hm st2. subst st2. rewrite release_iter by exact Hm. simpl.
    rewrite lookup_insert_eq. split; [reflexivity|].
    subst l. now rewrite lookup_app_r, Nat.sub_diag by lia.
  - intros st3. subst st3. simpl Nat.iter. rewrite release_iter by lia.
    unfold cleanup. simpl. rewrite lookup_insert_eq. simpl.
    replace (Z.of_nat (S n - n) - 1 <=? 0) with true by (symmetry; apply Z.leb_le; lia).
    simpl. split; [now apply delete_insert_id|].
    unfold stop. subst l. rewrite lookup_app_r, Nat.sub_diag by lia. simpl. split.
    + rewrite list_lookup_insert_eq by (rewrite length_app; simpl; lia). reflexivity.
    + intros l' Hl'. rewrite list_lookup_insert_ne by congruence.
      destruct (decide (l' < length (heap st))%nat) as [Hlt|Hge].
      * now rewrite lookup_app_l by exact Hlt.
      * rewrite lookup_app_r by lia.
        destruct (l' - length (heap st))%nat as [|k] eqn:Hk; [lia|].
        simpl. rewrite lookup_nil. symmetry. apply lookup_ge_None. lia.
Qed.

Lemma step_other_credential st (c : call) h :
  sound hashKey st ->
  hashKey (credential c) <> h ->
  limiters (step hashKey st c) !! h = limiters st !! h
  /\ forall e, limiters st !! h = Some e ->
       heap (step hashKey st c) !! limiter e = heap st !! limiter e.
Proof.
  intros (Hlive & Hdistinct & _) Hne. destruct c as [k r q i|k]; simpl in *.
  - unfold getLimiter. destruct (limiters st !! hashKey k) as [e0|] eqn:E; simpl.
    + split; [now rewrite lookup_insert_ne|reflexivity].
    + split; [now rewrite lookup_insert_ne|].
      intros e He. destruct (Hlive _ _ He) as [_ (b & Hb & _)].
      rewrite lookup_app_l; [reflexivity|]. now apply lookup_lt_Some in Hb.
  - unfold cleanup. destruct (limiters st !! hashKey k) as [e0|] eqn:E; [|tauto].
    simpl. destruct (refCount e0 - 1 <=? 0); simpl.
    + split; [now rewrite lookup_delete_ne|].
      intros e He. unfold stop. destruct (heap st !! limiter e0); [|reflexivity].
      apply list_lookup_insert_ne. intros Heq. apply Hne.
      exact (Hdistinct _ _ _ _ E He Heq).
    + split; [now rewrite lookup_insert_ne|reflexivity].
Qed.

(** Credentials do not interfere: whatever clients of other
    credentials acquire and release, the entry of [apiKey], its count
    and its limiter stay as they are; in particular nobody else can
    stop that limiter. *)
Theorem registry_isolates_credentials st (calls : list call) apiKey :
  sound hashKey st ->
  Forall (fun c => hashKey (credential c) <> hashKey apiKey) calls ->
  let st' := fold_left (step hashKey) calls st in
  limiters st' !! hashKey apiKey = limiters st !! hashKey apiKey
  /\ forall e, limiters st !! hashKey apiKey = Some e ->
       heap st' !! limiter e = heap st !! limiter e.
Proof.
  intros Hsound Hothers. simpl. revert st Hsound.
  induction Hothers as [|c calls Hc _ IH]; intros st Hsound; simpl; [tauto|].
  destruct (step_other_credential st c (hashKey apiKey) Hsound Hc) as [Hentry Hheap].
  assert (sound hashKey (step hashKey st c)) as Hsound'
    by (destruct c; simpl; [apply sound_getLimiter | apply sound_cleanup]; exact Hsound).
  destruct (IH _ Hsound') as [Hentry' Hheap']. split; [congruence|].
  intros e He. rewrite Hheap' by congruence. now apply Hheap.
Qed.

End RegistryCounting.

Lemma registry_counts_holders_three_clients :
  let acquire := fun s => (GlobalRateLimiterRegistry.getLimiter id "KEY" 5 100000 86400000 s).2 in
  let st1 := Nat.iter 3 acquire GlobalRateLimiterRegistry.empty in
  GlobalRateLimiterRegistry.refCount
    <$> GlobalRateLimiterRegistry.limiters
          (Nat.iter 2 (GlobalRateLimiterRegistry.cleanup id "KEY") st1) !! "KEY" = Some 1
  /\ GlobalRateLimiterRegistry.limiters
       (Nat.iter 3 (GlobalRateLimiterRegistry.cleanup id "KEY") st1) = ∅.
Proof.
  intros acquire st1.
  destruct (registry_counts_holders id GlobalRateLimiterRegistry.empty "KEY" 5 100000 86400000 2)
    as [Hheld [Hgone _]].
  - reflexivity.
  - destruct (Hheld 2%nat ltac:(lia)) as [Hentry _]. split.
    + subst st1 acquire. simpl in Hentry |- *. unfold id in *. now rewrite Hentry.
    + exact Hgone.
Defined.

Lemma registry_isolates_credentials_two_keys :
  let st := GlobalRateLimiterRegistry.run id [GlobalRateLimiterRegistry.Acquire "A" 5 10 1000] in
  let st' := fold_left (GlobalRateLimiterRegistry.step id)
               [GlobalRateLimiterRegistry.Acquire "B" 5 10 1000;
                GlobalRateLimiterRegistry.Release "B";
                GlobalRateLimiterRegistry.Release "B"] st in
  GlobalRateLimiterRegistry.limiters st' !! "A" = GlobalRateLimiterRegistry.limiters st !! "A".
Proof.
  intros st st'.
  destruct (registry_isolates_credentials id st
              [GlobalRateLimiterRegistry.Acquire "B" 5 10 1000;
               GlobalRateLimiterRegistry.Release "B";
               GlobalRateLimiterRegistry.Release "B"] "A") as [Hentry _].
  - apply sound_run.
  - repeat constructor; discriminate.
  - exact Hentry.
Defined.

(** ** The transport: attempts, endpoints, credentials *)

Section TransportFacts.

Import Transport Errors.

Context `{Platform}.

Lemma retryLoop_bounded tr url budget :
  forall retries w,
    let w' := (retryLoop tr url budget retries w).2 in
    (fetches w + 1 <= fetches w' <= fetches w + 1 + budget)%nat
    /\ network w' = network w
    /\ now w <= now w'
    /\ exists events, trace w' = trace w ++ events /\ forall u, Fetch u ∈ events -> u = url.
Proof.
  induction budget as [|budget IH]; intros retries w; simpl.
  - destruct (network w (fetches w) url); simpl;
      (split; [lia|]; split; [reflexivity|]; split; [lia|];
       exists [Fetch url]; split; [reflexivity|];
       intros u Hu; apply list_elem_of_singleton in Hu; congruence).
  - destruct (network w (fetches w) url) as [response|error]; simpl.
    + split; [lia|]. split; [reflexivity|]. split; [lia|].
      exists [Fetch url]. split; [reflexivity|].
      intros u Hu. apply list_elem_of_singleton in Hu. congruence.
    + destruct ((retries >? 0) && isRetryable error).
      * set (w2 := delay _ _).
        destruct (IH (retries - 1) w2) as (Hcount & Hnet & Hnow & events & Htrace & Hurls).
        subst w2. simpl in *. split; [lia|]. split; [exact Hnet|]. split; [lia|].
        eexists. split; [rewrite Htrace, <- !app_assoc; reflexivity|].
        intros u Hu. simpl in Hu. apply elem_of_cons in Hu as [Hu|Hu]; [congruence|].
        apply elem_of_cons in Hu as [Hu|Hu]; [discriminate|]. now apply Hurls.
      * simpl. split; [lia|]. split; [reflexivity|]. split; [lia|].
        exists [Fetch url]. split; [reflexivity|].
        intros u Hu. apply list_elem_of_singleton in Hu. congruence.
Qed.

(** Whatever the network answers, [fetchWithRetry] makes one fetch at
    least and never more than one plus [retries]; with a budget of zero
    or less it makes exactly one. *)
Theorem fetchWithRetry_attempts_bounded tr url retries w :
  let w' := (fetchWithRetry tr url retries w).2 in
  (fetches w + 1 <= fetches w' <= fetches w + 1 + Z.to_nat retries)%nat
  /\ network w' = network w.
Proof.
  unfold fetchWithRetry.
  destruct (retryLoop_bounded tr url (Z.to_nat retries) retries w) as (Hcount & Hnet & _).
  split; [exact Hcount|exact Hnet].
Qed.

Lemma requestJob_world tr baseUrl params schema options cacheKey w :
  (requestJob tr baseUrl params schema options cacheKey w).2
  = (fetchWithRetry tr (requestUrl tr baseUrl params) (maxRetries tr) w).2.
Proof.
  unfold requestJob, fetchOrFail.
  destruct (fetchWithRetry tr (requestUrl tr baseUrl params) (maxRetries tr) w)
    as [[response|error] w']; simpl; [|reflexivity].
  now destruct (handleResponse tr baseUrl schema options cacheKey response (now w')).
Qed.

(** [getWithUrl] reaches the network only for a base URL whose origin
    is that of an allowed URL and whose protocol is [https:]; every
    fetch it makes then goes to the URL built from that base and the
    intercepted parameters.  In every other case it leaves the world
    as it is. *)
Theorem getWithUrl_fetches_only_allowed tr baseUrl params schema options w :
  let w' := (getWithUrl tr baseUrl params schema options w).2 in
  w' = w
  \/ ((exists allowed, In allowed (ALLOWED_BASE_URLS tr) /\ sameOrigin baseUrl allowed = true)
      /\ (exists origin, parseURL baseUrl = Some ("https:", origin))
      /\ exists events,
           trace w' = trace w ++ events
           /\ forall u, Fetch u ∈ events ->
                u = requestUrl tr baseUrl
                      (InterceptorManager.applyRequestInterceptors (interceptors tr) params)).
Proof.
  unfold getWithUrl.
  destruct (existsb (sameOrigin baseUrl) (ALLOWED_BASE_URLS tr)) eqn:Hallowed; simpl;
    [|left; reflexivity].
  destruct (parseURL baseUrl) as [[protocol origin]|] eqn:Hurl; [|left; reflexivity].
  destruct (String.eqb protocol "https:") eqn:Hsecure; simpl; [|left; reflexivity].
  apply String.eqb_eq in Hsecure. subst protocol.
  set (interceptedParams := InterceptorManager.applyRequestInterceptors _ _).
  set (cacheKey := createCacheKey _ _ _).
  destruct (LRUCache.get (now w) cacheKey (cache tr)) as [cached c].
  assert (forall job, job = requestJob (withCache tr c) baseUrl interceptedParams schema options
                              cacheKey w ->
            job.2 = w \/
            ((exists allowed, In allowed (ALLOWED_BASE_URLS tr)
                              /\ sameOrigin baseUrl allowed = true)
             /\ (exists origin0, Some ("https:", origin) = Some ("https:", origin0))
             /\ exists events,
                  trace job.2 = trace w ++ events
                  /\ forall u, Fetch u ∈ events -> u = requestUrl tr baseUrl interceptedParams))
    as Hjob.
  { intros job ->. right. split; [now apply existsb_exists in Hallowed|].
    split; [eauto|]. rewrite requestJob_world.
    change (requestUrl (withCache tr c) baseUrl interceptedParams)
      with (requestUrl tr baseUrl interceptedParams).
    unfold fetchWithRetry.
    destruct (retryLoop_bounded (withCache tr c) (requestUrl tr baseUrl interceptedParams)
                (Z.to_nat (maxRetries (withCache tr c))) (maxRetries (withCache tr c)) w)
      as (_ & _ & _ & Hevents).
    exact Hevents. }
  destruct cached as [[]|]; try (left; reflexivity); now apply Hjob.
Qed.

End TransportFacts.

(** ** The transport and its cache *)

Section CacheEntries.

Import LRUCache.

Context {T : Type}.

Implicit Types (c : LRUCache.t T) (key : string).

Lemma config_get c now key : config (get now key c).2 = config c.
Proof.
  unfold get. destruct (negb (enabled (config c))); [reflexivity|].
  destruct (cache c !! key) as [entry|]; [|reflexivity].
  destruct (expired now entry); [|reflexivity].
  unfold delete. now destruct (cache c !! key).
Qed.

Lemma entries_get c now key k (e : CacheEntry T) :
  cache (get now key c).2 !! k = Some e -> cache c !! k = Some e.
Proof.
  unfold get. destruct (negb (enabled (config c))); [tauto|].
  destruct (cache c !! key) as [entry|] eqn:Hheld; [|tauto].
  destruct (expired now entry); [|tauto].
  cbn [snd]. rewrite cache_delete. intros He. now apply lookup_delete_Some in He as [_ He].
Qed.

Lemma entries_evictInSet c k (e : CacheEntry T) :
  cache (evictInSet c) !! k = Some e -> cache c !! k = Some e.
Proof.
  unfold evictInSet. destruct (OrderedSet.first (accessOrder c)) as [lruKey|]; [|tauto].
  destruct (Js.truthy_string lruKey); [|tauto].
  simpl. intros He. now apply lookup_delete_Some in He as [_ He].
Qed.

Lemma entries_set c now key (value : T) ttl' k (e : CacheEntry T) :
  cache (set now key value ttl' c) !! k = Some e ->
  cache c !! k = Some e \/ (k = key /\ data e = value).
Proof.
  unfold set. destruct (negb (enabled (config c))); [tauto|].
  destruct (cache c !! key) as [old|] eqn:Hheld; simpl.
  - destruct (decide (key = k)) as [<-|Hne].
    + rewrite lookup_insert_eq. intros [= <-]. right. split; reflexivity.
    + rewrite lookup_insert_ne by exact Hne. tauto.
  - destruct (decide (key = k)) as [<-|Hne].
    + rewrite lookup_insert_eq. intros [= <-]. right. split; reflexivity.
    + rewrite lookup_insert_ne by exact Hne.
      destruct (size c >=? maxSize (config c)); [|tauto].
      intros He. left. now apply entries_evictInSet.
Qed.

End CacheEntries.

Section TransportCache.

Import Transport Errors.

Context `{Platform}.

Lemma handleResponse_entries tr baseUrl schema options cacheKey response at_ k e :
  LRUCache.cache (handleResponse tr baseUrl schema options cacheKey response at_).2 !! k = Some e ->
  LRUCache.cache (cache tr) !! k = Some e
  \/ (k = cacheKey
      /\ exists input, Zod.safeParse schema input = Zod.Success (LRUCache.data e)).
Proof.
  unfold handleResponse.
  destruct (negb (ok response)); [tauto|].
  destruct (negb (existsb _ _)); [tauto|].
  destruct (_ && _); [tauto|].
  destruct (Js.strlen (text response) >? MAX_RESPONSE_SIZE); [tauto|].
  destruct (negb (headerIncludes (contentType response) "application/json")).
  - destruct (Zod.safeParse schema (Js.VStr (text response))) as [validated|issues] eqn:Hparse;
      [|tauto].
    simpl. intros He. apply entries_set in He as [He|[-> Hdata]]; [tauto|].
    right. split; [reflexivity|]. exists (Js.VStr (text response)). now rewrite Hdata.
  - destruct (parseJSON (text response)) as [data|]; [|tauto].
    unfold unwrapEnvelope. destruct (String.eqb baseUrl V2_ENDPOINT).
    + destruct (Js.getProp data "status") as [dataStatus|]; [|tauto].
      destruct (Js.strict_eq_string dataStatus "0"); [tauto|].
      destruct (Zod.safeParse schema _) as [validated|issues] eqn:Hparse; [|tauto].
      simpl. intros He. apply entries_set in He as [He|[-> Hdata]]; [tauto|].
      right. split; [reflexivity|]. eexists. rewrite Hdata. exact Hparse.
    + destruct (Zod.safeParse schema data) as [validated|issues] eqn:Hparse; [|tauto].
      simpl. intros He. apply entries_set in He as [He|[-> Hdata]]; [tauto|].
      right. split; [reflexivity|]. exists data. now rewrite Hdata.
Qed.

Lemma handleResponse_throws tr baseUrl schema options cacheKey response at_ err :
  (handleResponse tr baseUrl schema options cacheKey response at_).1 = Throws err ->
  (handleResponse tr baseUrl schema options cacheKey response at_).2 = cache tr.
Proof.
  unfold handleResponse.
  destruct (negb (ok response)); [reflexivity|].
  destruct (negb (existsb _ _)); [reflexivity|].
  destruct (_ && _); [reflexivity|].
  destruct (Js.strlen (text response) >? MAX_RESPONSE_SIZE); [reflexivity|].
  destruct (negb (headerIncludes (contentType response) "application/json")).
  - destruct (Zod.safeParse schema (Js.VStr (text response))); [discriminate|reflexivity].
  - destruct (parseJSON (text response)) as [data|]; [|reflexivity].
    destruct (unwrapEnvelope baseUrl schema data) as [early|[validated|issues]];
      [reflexivity|discriminate|reflexivity].
Qed.

(** What a call leaves in the cache: every entry was there before the
    call, or it is the entry of this request and holds a value the
    schema accepted.  After a call that throws, every entry was there
    before: an error is never cached. *)
Theorem getWithUrl_caches_validated_only tr baseUrl params schema options w k e :
  let r := getWithUrl tr baseUrl params schema options w in
  LRUCache.cache (cache r.1.2) !! k = Some e ->
  (LRUCache.cache (cache tr) !! k = Some e
   \/ (k = createCacheKey tr baseUrl
             (InterceptorManager.applyRequestInterceptors (interceptors tr) params)
       /\ exists input, Zod.safeParse schema input = Zod.Success (LRUCache.data e)))
  /\ (forall err, r.1.1 = Throws err -> LRUCache.cache (cache tr) !! k = Some e).
Proof.
  unfold getWithUrl.
  destruct (negb (existsb (sameOrigin baseUrl) (ALLOWED_BASE_URLS tr))); [simpl; tauto|].
  destruct (parseURL baseUrl) as [[protocol origin]|]; [|simpl; tauto].
  destruct (negb (String.eqb protocol "https:")); [simpl; tauto|].
  set (interceptedParams := InterceptorManager.applyRequestInterceptors _ _).
  set (cacheKey := createCacheKey _ _ _).
  destruct (LRUCache.get (now w) cacheKey (cache tr)) as [cached c] eqn:Hget.
  assert (forall k e, LRUCache.cache c !! k = Some e -> LRUCache.cache (cache tr) !! k = Some e)
    as Hold.
  { intros k0 e0 He. apply (entries_get (cache tr) (now w) cacheKey). now rewrite Hget. }
  assert (let job := requestJob (withCache tr c) baseUrl interceptedParams schema options
                       cacheKey w in
          LRUCache.cache (cache job.1.2) !! k = Some e ->
          (LRUCache.cache (cache tr) !! k = Some e
           \/ (k = cacheKey
               /\ exists input, Zod.safeParse schema input = Zod.Success (LRUCache.data e)))
          /\ (forall err, job.1.1 = Throws err -> LRUCache.cache (cache tr) !! k = Some e))
    as Hjob.
  { unfold requestJob.
    destruct (fetchOrFail (withCache tr c) (requestUrl (withCache tr c) baseUrl interceptedParams) w)
      as [[response|err0] w']; simpl.
    - destruct (handleResponse (withCache tr c) baseUrl schema options cacheKey response (now w'))
        as [r c'] eqn:Hhandle. simpl. intros He. split.
      + pose proof (handleResponse_entries (withCache tr c) baseUrl schema options cacheKey
                      response (now w') k e) as Hentries.
        rewrite Hhandle in Hentries. simpl in Hentries.
        destruct (Hentries He) as [Hc|Hnew]; [left; now apply Hold|right; exact Hnew].
      + intros err Hr.
        pose proof (handleResponse_throws (withCache tr c) baseUrl schema options cacheKey
                      response (now w') err) as Hthrows.
        rewrite Hhandle in Hthrows. simpl in Hthrows. rewrite (Hthrows Hr) in He.
        now apply Hold.
    - intros He. split; [left|intros err _]; now apply Hold. }
  destruct cached as [[]|]; try exact Hjob;
    (simpl; intros He; split; [left; now apply Hold|discriminate]).
Qed.

End TransportCache.

Lemma getWithUrl_caches_validated_only_balance :
  exists input,
    Zod.safeParse Types.BigIntSchema input = Zod.Success (Js.VBigInt 1000000000000000000).
Proof.
  destruct (getWithUrl_caches_validated_only
              (Mock.transport 3 InterceptorManager.create) Transport.V2_ENDPOINT
              [("module", Js.VStr "account")] Types.BigIntSchema None
              (Mock.world [Transport.Resolves (Mock.jsonResponse Mock.balanceOk)])
              "https://api.etherscan.io/v2/api?chainid=1&apikey=KEY&module=account"
              (LRUCache.mkEntry (Js.VBigInt 1000000000000000000) 0 300000))
    as [[Hold|[_ Hnew]] _].
  - reflexivity.
  - vm_compute in Hold. discriminate Hold.
  - exact Hnew.
Defined.

Section TransportRepeat.

Import Transport Errors.

Context `{Platform}.

(** A request that was answered with a value the schema accepts is
    answered from the cache when it is made again within the time to
    live: the second call returns the same value and makes no fetch,
    whatever the network would answer. *)
Theorem get_twice_fetches_once tr params schema options w response w' data status validated :
  answered tr params w response w' ->
  jsonBody response data ->
  Js.getProp data "status" = Some status ->
  Js.strict_eq_string status "0" = false ->
  Zod.safeParse schema (default Js.VUndefined (Js.getProp data "result"))
  = Zod.Success validated ->
  validated <> Js.VNull ->
  LRUCache.enabled (LRUCache.config (cache tr)) = true ->
  let first := get tr params schema options w in
  let value := InterceptorManager.applyResponseInterceptors (interceptors tr) validated in
  first.1.1 = Returns value
  /\ first.2 = w'
  /\ forall w2,
       now w2 - now w' <= LRUCache.defaultTtl (LRUCache.config (cache tr)) ->
       let second := get first.1.2 params schema options w2 in
       second.1.1 = Returns value /\ second.2 = w2.
Proof.
  intros (Hallowed & (origin & Hurl) & Hmiss & Hfetch) Hbody Hstatus Hnot0 Hvalid Hnotnull Hon.
  set (interceptedParams := InterceptorManager.applyRequestInterceptors _ _) in *.
  set (cacheKey := createCacheKey _ _ _) in *.
  set (c := (LRUCache.get (now w) cacheKey (cache tr)).2).
  set (c' := LRUCache.set (now w') cacheKey validated None c).
  assert (LRUCache.config c = LRUCache.config (cache tr)) as Hconfig by apply config_get.
  assert (get tr params schema options w
          = (Returns (InterceptorManager.applyResponseInterceptors (interceptors tr) validated),
             withCache (withCache tr c) c', w')) as Hfirst.
  { unfold get, getWithUrl. rewrite Hallowed, Hurl. simpl negb. cbv iota.
    fold interceptedParams. fold cacheKey. subst c' c.
    destruct (LRUCache.get (now w) cacheKey (cache tr)) as [cached c] eqn:Hget.
    simpl in Hmiss. cbn [snd].
    assert (requestJob (withCache tr c) V2_ENDPOINT interceptedParams schema options cacheKey w
            = (Returns (InterceptorManager.applyResponseInterceptors (interceptors tr) validated),
               withCache (withCache tr c)
                 (LRUCache.set (now w') cacheKey validated None c), w')) as Hjob.
    { unfold requestJob.
      change (requestUrl (withCache tr c) V2_ENDPOINT interceptedParams)
        with (requestUrl tr V2_ENDPOINT interceptedParams).
      rewrite fetchOrFail_withCache, Hfetch.
      rewrite (handleResponse_jsonBody _ _ _ _ _ _ _ data Hbody).
      unfold unwrapEnvelope. rewrite String.eqb_refl, Hstatus. simpl. rewrite Hnot0, Hvalid.
      reflexivity. }
    destruct cached as [[]|]; try contradiction; exact Hjob. }
  intros first value. subst first value. rewrite Hfirst. cbn [fst snd].
  split; [reflexivity|]. split; [reflexivity|].
  intros w2 Hfresh. unfold get, getWithUrl.
  change (ALLOWED_BASE_URLS (withCache (withCache tr c) c')) with (ALLOWED_BASE_URLS tr).
  rewrite Hallowed, Hurl. simpl negb. cbv iota.
  change (interceptors (withCache (withCache tr c) c')) with (interceptors tr).
  fold interceptedParams.
  change (createCacheKey (withCache (withCache tr c) c') V2_ENDPOINT interceptedParams)
    with cacheKey.
  change (cache (withCache (withCache tr c) c')) with c'.
  assert (LRUCache.enabled (LRUCache.config c) = true) as Hon' by (now rewrite Hconfig).
  assert ((LRUCache.get (now w2) cacheKey c').1 = Some validated) as Hhit.
  { subst c'. unfold LRUCache.get.
    rewrite config_set, Hon', (lookup_set c (now w') cacheKey validated None Hon').
    simpl. unfold LRUCache.expired. simpl. rewrite Hconfig.
    replace (now w2 - now w' >? LRUCache.defaultTtl (LRUCache.config (cache tr))) with false;
      [reflexivity|].
    symmetry. rewrite Z.gtb_ltb. apply Z.ltb_ge. exact Hfresh. }
  destruct (LRUCache.get (now w2) cacheKey c') as [cached2 c2]. simpl in Hhit. subst cached2.
  destruct validated; try (split; reflexivity). congruence.
Qed.

End TransportRepeat.

Lemma get_twice_fetches_once_balance :
  let tr := Mock.transport 3 InterceptorManager.create in
  let params := [("module", Js.VStr "account")] in
  let first := Transport.get tr params Types.BigIntSchema None
                 (Mock.world [Transport.Resolves (Mock.jsonResponse Mock.balanceOk)]) in
  let second := Transport.get first.1.2 params Types.BigIntSchema None first.2 in
  second.1.1 = Errors.Returns (Js.VBigInt 1000000000000000000)
  /\ Transport.fetches second.2 = 1%nat.
Proof.
  intros tr params first second.
  destruct (mock_answered InterceptorManager.create params (Mock.jsonResponse Mock.balanceOk))
    as (w' & Hanswered).
  assert (Transport.jsonBody (Mock.jsonResponse Mock.balanceOk) Mock.balanceOk)
    as Hbody by (repeat split).
  destruct (get_twice_fetches_once tr params Types.BigIntSchema None _ _ w' Mock.balanceOk
              (Js.VStr "1") (Js.VBigInt 1000000000000000000) Hanswered Hbody)
    as (_ & Hworld & Hsecond).
  - reflexivity.
  - reflexivity.
  - reflexivity.
  - discriminate.
  - reflexivity.
  - destruct (Hsecond first.2) as [Hvalue Hsame].
    + rewrite <- Hworld. vm_compute. discriminate.
    + split; [exact Hvalue|].
      replace second.2 with first.2 by (symmetry; exact Hsame). reflexivity.
Defined.

(** ** The transport: credentials stay on the standard endpoint *)

Section TransportCredentials.

Import Transport Errors.

Context `{Platform}.

Lemma retryLoop_withCredentials tr chain key url budget :
  forall retries w,
    retryLoop (withCredentials tr chain key) url budget retries w
    = retryLoop tr url budget retries w.
Proof.
  induction budget as [|budget IH]; intros retries w; simpl.
  - reflexivity.
  - destruct (network w (fetches w) url) as [response|error]; [reflexivity|].
    destruct ((retries >? 0) && isRetryable error); [apply IH|reflexivity].
Qed.

Lemma requestJob_withCredentials tr chain key baseUrl params schema options cacheKey w :
  String.eqb baseUrl V2_ENDPOINT = false ->
  let job := requestJob tr baseUrl params schema options cacheKey w in
  let job' := requestJob (withCredentials tr chain key) baseUrl params schema options cacheKey w in
  job'.1.1 = job.1.1 /\ job'.2 = job.2 /\ cache job'.1.2 = cache job.1.2.
Proof.
  intros Hother. unfold requestJob.
  assert (requestUrl (withCredentials tr chain key) baseUrl params
          = requestUrl tr baseUrl params) as ->
    by (unfold requestUrl, credentials; now rewrite Hother).
  assert (fetchOrFail (withCredentials tr chain key) (requestUrl tr baseUrl params) w
          = fetchOrFail tr (requestUrl tr baseUrl params) w) as ->
    by (unfold fetchOrFail, fetchWithRetry; simpl; now rewrite retryLoop_withCredentials).
  destruct (fetchOrFail tr (requestUrl tr baseUrl params) w) as [[response|e] w']; simpl.
  - change (handleResponse (withCredentials tr chain key) baseUrl schema options cacheKey
              response (now w'))
      with (handleResponse tr baseUrl schema options cacheKey response (now w')).
    destruct (handleResponse tr baseUrl schema options cacheKey response (now w')).
    simpl. tauto.
  - tauto.
Qed.

(** Off the standard endpoint the chain and the API key play no part:
    a call gives the same outcome, the same fetches of the same URLs
    and the same cache whatever they are, so the key is not sent to
    another endpoint. *)
Theorem other_endpoints_ignore_credentials tr chain key baseUrl params schema options w :
  baseUrl <> V2_ENDPOINT ->
  let r := getWithUrl tr baseUrl params schema options w in
  let r' := getWithUrl (withCredentials tr chain key) baseUrl params schema options w in
  r'.1.1 = r.1.1 /\ r'.2 = r.2 /\ cache r'.1.2 = cache r.1.2.
Proof.
  intros Hother. apply String.eqb_neq in Hother.
  unfold getWithUrl. simpl.
  destruct (negb (existsb (sameOrigin baseUrl) (ALLOWED_BASE_URLS tr))); [simpl; tauto|].
  destruct (parseURL baseUrl) as [[protocol origin]|]; [|simpl; tauto].
  destruct (negb (String.eqb protocol "https:")); [simpl; tauto|].
  set (interceptedParams := InterceptorManager.applyRequestInterceptors _ _).
  assert (createCacheKey (withCredentials tr chain key) baseUrl interceptedParams
          = createCacheKey tr baseUrl interceptedParams) as ->
    by (unfold createCacheKey, credentials; now rewrite Hother).
  set (cacheKey := createCacheKey _ _ _).
  destruct (LRUCache.get (now w) cacheKey (cache tr)) as [cached c].
  pose proof (requestJob_withCredentials (withCache tr c) chain key baseUrl interceptedParams
                schema options cacheKey w Hother) as Hjob.
  destruct cached as [[]|]; try exact Hjob; simpl; tauto.
Qed.

End TransportCredentials.

Lemma other_endpoints_ignore_credentials_chainlist :
  let tr := Mock.transport 3 InterceptorManager.create in
  let w := Mock.world [Transport.Resolves (Mock.jsonResponse Mock.balanceOk)] in
  (Transport.getWithUrl (Transport.withCredentials tr 137 "OTHER") "https://api.etherscan.io/v2/chainlist"
     [] Zod.string None w).2
  = (Transport.getWithUrl tr "https://api.etherscan.io/v2/chainlist" [] Zod.string None w).2.
Proof.
  intros tr w.
  destruct (other_endpoints_ignore_credentials tr 137 "OTHER"
              "https://api.etherscan.io/v2/chainlist" [] Zod.string None w) as (_ & Hworld & _).
  - discriminate.
  - exact Hworld.
Defined.

(** ** The cache key *)

Section CacheKey.

Import Transport.

Context `{Platform}.

Lemma insertSorted_Permutation k l : insertSorted k l ≡ₚ k :: l.
Proof.
  induction l as [|x l IH]; simpl; [reflexivity|].
  destruct (String.leb k x); [reflexivity|].
  rewrite IH. apply Permutation_swap.
Qed.

Lemma sortKeys_Permutation keys : sortKeys keys ≡ₚ keys.
Proof.
  induction keys as [|k keys IH]; simpl; [reflexivity|].
  now rewrite insertSorted_Permutation, IH.
Qed.

Lemma insertSorted_Sorted k l : Sorted String.le l -> Sorted String.le (insertSorted k l).
Proof.
  induction 1 as [|x l Hl IH Hx]; simpl.
  - repeat constructor.
  - destruct (String.leb k x) eqn:Hk.
    + constructor; [now constructor|]. constructor. unfold String.le. now rewrite Hk.
    + constructor; [exact IH|].
      assert (String.le x k) as Hxk.
      { unfold String.le. destruct (String.leb_total k x) as [Hkx|Hxk]; [congruence|].
        now rewrite Hxk. }
      destruct Hx as [|y l Hy]; simpl; [now constructor|].
      destruct (String.leb k y); now constructor.
Qed.

Lemma sortKeys_Sorted keys : Sorted String.le (sortKeys keys).
Proof.
  induction keys as [|k keys IH]; simpl; [constructor|]. now apply insertSorted_Sorted.
Qed.

Lemma sortKeys_proper keys keys' : keys ≡ₚ keys' -> sortKeys keys = sortKeys keys'.
Proof.
  intros Hperm. apply (Sorted_unique String.le); try apply sortKeys_Sorted.
  now rewrite !sortKeys_Permutation.
Qed.

Lemma assoc_None k (fields : list (string * Js.value)) :
  k ∉ fields.*1 -> Js.assoc k fields = None.
Proof.
  induction fields as [|[k' v] fields IH]; simpl; [reflexivity|].
  intros Hk. apply not_elem_of_cons in Hk as [Hne Hk].
  destruct (String.eqb k' k) eqn:E; [apply String.eqb_eq in E; congruence|]. now apply IH.
Qed.

Lemma assoc_Permutation k (fields fields' : list (string * Js.value)) :
  NoDup fields.*1 -> fields ≡ₚ fields' -> Js.assoc k fields = Js.assoc k fields'.
Proof.
  intros Hnd Hperm. induction Hperm as [|[k0 v0] l l' Hperm IH|[k1 v1] [k2 v2] l|l l' l'' H1 IH1 H2 IH2].
  - reflexivity.
  - simpl. destruct (String.eqb k0 k); [reflexivity|].
    apply IH. now apply NoDup_cons in Hnd as [_ Hnd].
  - simpl. destruct (String.eqb k2 k) eqn:E2; destruct (String.eqb k1 k) eqn:E1; try reflexivity.
    apply String.eqb_eq in E1, E2. subst. simpl in Hnd.
    apply NoDup_cons in Hnd as [Hnotin _]. exfalso. apply Hnotin. left.
  - rewrite IH1 by exact Hnd. apply IH2. now rewrite <- H1.
Qed.

(** The cache key does not depend on the order in which the caller
    lists the parameters: two parameter objects with the same entries
    give the same key. *)
Theorem createCacheKey_ignores_order tr baseUrl (params params' : InterceptorManager.Params) :
  NoDup params.*1 -> params ≡ₚ params' ->
  createCacheKey tr baseUrl params = createCacheKey tr baseUrl params'.
Proof.
  intros Hnd Hperm. unfold createCacheKey. do 2 f_equal.
  rewrite (sortKeys_proper (List.map fst params) (List.map fst params'))
    by (now apply fmap_Permutation).
  unfold definedPairs. apply flat_map_ext. intros key.
  now rewrite (assoc_Permutation key params params').
Qed.

End CacheKey.

Lemma createCacheKey_ignores_order_two_params :
  let tr := Mock.transport 3 InterceptorManager.create in
  Transport.createCacheKey tr Transport.V2_ENDPOINT
    [("module", Js.VStr "account"); ("action", Js.VStr "balance")]
  = Transport.createCacheKey tr Transport.V2_ENDPOINT
      [("action", Js.VStr "balance"); ("module", Js.VStr "account")].
Proof.
  intros tr. apply createCacheKey_ignores_order.
  - simpl. apply NoDup_cons. split; [|apply NoDup_singleton].
    intros Hin. apply list_elem_of_singleton in Hin. discriminate.
  - apply Permutation_swap.
Defined.

(** ** Chain capabilities *)

Lemma requireCapability_table (chainId : Z) (c : Types.capability) (methodName : string) :
  Types.requireCapability chainId c methodName
  = if match c with
       | Types.HasBeaconChain =>
           (chainId =? 1) || (chainId =? 11155111) || (chainId =? 17000)
       | Types.HasTokenApprovals => true
       end
    then Errors.Returns tt
    else Errors.Throws (Errors.Native (Errors.ThrownError "Error"
           ("Method " +:+ methodName +:+ " is not supported on chain " +:+
            Js.string_of_Z chainId +:+ " (missing " +:+ Types.capabilityName c
            +:+ " capability)"))).
Proof.
  unfold Types.requireCapability, Types.chainCapabilities, Types.CHAIN_CAPABILITIES,
    Types.MAINNET, Types.SEPOLIA, Types.HOLESKY.
  cbn [List.find fst snd].
  rewrite (Z.eqb_sym 1), (Z.eqb_sym 11155111), (Z.eqb_sym 17000), (Z.eqb_sym 0).
  destruct (chainId =? 1); [destruct c; reflexivity|].
  destruct (chainId =? 11155111); [destruct c; reflexivity|].
  destruct (chainId =? 17000); [destruct c; reflexivity|].
  destruct (chainId =? 0); destruct c; reflexivity.
Qed.

(** The beacon-chain endpoints are refused on every chain but mainnet,
    Sepolia and Holesky, the default entry standing in for the chains
    the table does not list; token approvals are refused nowhere.  What
    is thrown is a plain [Error], not one of the SDK's error classes. *)
Theorem requireCapability_beacon_chains (chainId : Z) (methodName : string) :
  (Types.requireCapability chainId Types.HasBeaconChain methodName = Errors.Returns tt
   <-> chainId = 1 \/ chainId = 11155111 \/ chainId = 17000)
  /\ Types.requireCapability chainId Types.HasTokenApprovals methodName = Errors.Returns tt
  /\ forall c e, Types.requireCapability chainId c methodName = Errors.Throws e ->
       Errors.isEtherscanError e = false.
Proof.
  split; [|split].
  - rewrite requireCapability_table.
    destruct (chainId =? 1) eqn:E1; [apply Z.eqb_eq in E1; tauto|apply Z.eqb_neq in E1].
    destruct (chainId =? 11155111) eqn:E2; [apply Z.eqb_eq in E2; tauto|apply Z.eqb_neq in E2].
    destruct (chainId =? 17000) eqn:E3; [apply Z.eqb_eq in E3; tauto|apply Z.eqb_neq in E3].
    simpl. split; [discriminate|lia].
  - now rewrite requireCapability_table.
  - intros c e. rewrite requireCapability_table.
    destruct (match c with Types.HasBeaconChain => _ | _ => _ end); [discriminate|].
    intros [= <-]. reflexivity.
Qed.

(** ** Address validation *)

Section AddressValidation.

Import Errors.

Lemma truthy_string_false s : Js.truthy_string s = false <-> s = "".
Proof.
  unfold Js.truthy_string. destruct (String.eqb s "") eqn:E; simpl.
  - apply String.eqb_eq in E. tauto.
  - apply String.eqb_neq in E. split; [discriminate|tauto].
Qed.

Lemma test_0x_hex_strlen n s : Types.test_0x_hex n s = true -> Js.strlen s = Z.of_nat (2 + n).
Proof.
  unfold Types.test_0x_hex, Js.strlen. intros Ht.
  apply andb_true_iff in Ht as [Ht _]. apply andb_true_iff in Ht as [_ Hlen].
  apply Nat.eqb_eq in Hlen. now rewrite Hlen.
Qed.

(** A single address passes when it is empty or absent, or is [0x] and
    forty hexadecimal digits; the test on its length refuses nothing
    the pattern accepts. *)
Lemma addressSchema_Returns value fieldName :
  Validators.addressSchema value fieldName = Returns tt
  <-> default "" value = "" \/ Types.test_0x_hex 40 (default "" value) = true.
Proof.
  unfold Validators.addressSchema.
  destruct value as [v|]; simpl; [|tauto].
  destruct (Js.truthy_string v) eqn:Ht; simpl.
  - assert (v <> "") as Hne
        by (intros Hv; apply truthy_string_false in Hv; congruence).
    destruct (Types.test_0x_hex 40 v) eqn:Htest.
    + pose proof (test_0x_hex_strlen 40 v Htest) as Hlen.
      replace (Js.strlen v >? Validators.MAX_STRING_LENGTH) with false.
      * tauto.
      * symmetry. rewrite Z.gtb_ltb. apply Z.ltb_ge. rewrite Hlen.
        unfold Validators.MAX_STRING_LENGTH. lia.
    + destruct (Js.strlen v >? Validators.MAX_STRING_LENGTH).
      * split; [discriminate|]. intros [Hv|Hv]; [contradiction|discriminate].
      * split; [discriminate|]. intros [Hv|Hv]; [contradiction|discriminate].
  - apply truthy_string_false in Ht. tauto.
Qed.

Lemma addressSchema_throws value fieldName e :
  Validators.addressSchema value fieldName = Throws e -> isValidationError e = true.
Proof.
  unfold Validators.addressSchema.
  destruct (negb (Js.truthy_opt_string value)); [discriminate|].
  destruct (Js.strlen (default "" value) >? Validators.MAX_STRING_LENGTH);
    [intros [= <-]; reflexivity|].
  destruct (Zod.safeParse Types.AddressSchema (Js.VStr (default "" value)));
    [discriminate|intros [= <-]; reflexivity].
Qed.

Lemma forEach_Returns {A : Type} (check : nat -> A -> outcome unit) (l : list A) :
  forall i,
    Validators.forEach check i l = Returns tt
    <-> forall j x, l !! j = Some x -> check (i + j)%nat x = Returns tt.
Proof.
  induction l as [|x l IH]; intros i; simpl.
  - split; [intros _ j y Hj; now rewrite lookup_nil in Hj|reflexivity].
  - destruct (check i x) as [[]|e] eqn:Hx.
    + rewrite IH. split.
      * intros Hrest [|j] y Hj; simpl in Hj.
        -- injection Hj as <-. now rewrite Nat.add_0_r.
        -- rewrite Nat.add_succ_r. now apply Hrest.
      * intros Hall j y Hj. specialize (Hall (S j) y Hj).
        now rewrite Nat.add_succ_r in Hall.
    + split; [discriminate|]. intros Hall.
      specialize (Hall 0%nat x eq_refl). rewrite Nat.add_0_r in Hall. congruence.
Qed.

Lemma forEach_throws {A : Type} (check : nat -> A -> outcome unit) (l : list A) e :
  forall i,
    Validators.forEach check i l = Throws e -> exists j x, check j x = Throws e.
Proof.
  induction l as [|x l IH]; intros i; simpl; [discriminate|].
  destruct (check i x) as [[]|e0] eqn:Hx; [apply IH|].
  intros [= <-]. eauto.
Qed.

(** A list of addresses passes exactly when it is empty or absent, or
    has ten thousand characters at most and twenty entries at most,
    each of which, white space around it apart, is blank or is [0x] and
    forty hexadecimal digits.  Whatever it refuses, it refuses with a
    [ValidationError]. *)
Theorem addressList_accepts_exactly (value : option string) (fieldName : string) :
  (Validators.addressList value fieldName = Returns tt
   <-> default "" value = ""
       \/ (Js.strlen (default "" value) <= 10000
           /\ (length (Js.split "," (default "" value)) <= 20)%nat
           /\ Forall (fun a => Js.trim a = "" \/ Types.test_0x_hex 40 (Js.trim a) = true)
                (Js.split "," (default "" value))))
  /\ forall e, Validators.addressList value fieldName = Throws e -> isValidationError e = true.
Proof.
  unfold Validators.addressList.
  destruct value as [v|]; simpl; [|split; [tauto|discriminate]].
  destruct (Js.truthy_string v) eqn:Ht; simpl.
  2: { apply truthy_string_false in Ht. split; [tauto|discriminate]. }
  assert (v <> "") as Hne by (intros Hv; apply truthy_string_false in Hv; congruence).
  unfold Validators.MAX_STRING_LENGTH, Validators.MAX_ADDRESSES.
  destruct (Js.strlen v >? 10000) eqn:Hlen.
  { rewrite Z.gtb_ltb in Hlen. apply Z.ltb_lt in Hlen.
    split; [|intros e [= <-]; reflexivity].
    split; [discriminate|]. intros [Hv|[Hle _]]; [contradiction|lia]. }
  rewrite Z.gtb_ltb in Hlen. apply Z.ltb_ge in Hlen.
  rewrite length_map.
  destruct (Z.of_nat (length (Js.split "," v)) >? 20) eqn:Hmany.
  { rewrite Z.gtb_ltb in Hmany. apply Z.ltb_lt in Hmany.
    split; [|intros e [= <-]; reflexivity].
    split; [discriminate|]. intros [Hv|(_ & Hle & _)]; [contradiction|lia]. }
  rewrite Z.gtb_ltb in Hmany. apply Z.ltb_ge in Hmany.
  split.
  - rewrite forEach_Returns. split.
    + intros Hall. right. split; [exact Hlen|]. split; [lia|].
      apply Forall_lookup. intros j a Hj.
      specialize (Hall j (Js.trim a)). rewrite list_lookup_fmap, Hj in Hall.
      specialize (Hall eq_refl). unfold Validators.address in Hall.
      now apply addressSchema_Returns in Hall.
    + intros [Hv|(_ & _ & Hall)]; [contradiction|].
      intros j x Hj. rewrite list_lookup_fmap in Hj.
      destruct (Js.split "," v !! j) as [a|] eqn:Ha; [|discriminate].
      injection Hj as <-. unfold Validators.address. apply addressSchema_Returns. simpl.
      exact (proj1 (Forall_lookup _ _) Hall j a Ha).
  - intros e He. apply forEach_throws in He as (j & x & He).
    now apply addressSchema_throws in He.
Qed.

End AddressValidation.

(** ** [getBalance] and the network *)

Section BalanceRequests.

Import Errors.

Context `{Transport.Platform}.



End BalanceRequests.

(** ** Clients and their limiter *)

Section ClientLifecycle.

Import Errors.

Variable hashKey : string -> string.

Lemma create_Returns options env st c st1 :
  EtherscanClient.create hashKey options env st = (Returns c, st1) ->
  let key := Transport.apiKey (EtherscanClient.transport c) in
  let acquired :=
    GlobalRateLimiterRegistry.getLimiter hashKey key
      (default 3 (EtherscanClient.o_rateLimit options))
      (default 100000 (EtherscanClient.o_reservoir options))
      (default (24 * 60 * 60 * 1000) (EtherscanClient.o_reservoirRefreshInterval options)) st in
  EtherscanClient.limiter c = acquired.1 /\ st1 = acquired.2
  /\ EtherscanClient.disposed c = false.
Proof.
  unfold EtherscanClient.create.
  destruct (negb (Js.truthy_opt_string _)); [discriminate|].
  destruct (GlobalRateLimiterRegistry.getLimiter _ _ _ _ _ st) as [l st'] eqn:Hget.
  intros [= <- <-]. simpl. rewrite Hget. tauto.
Qed.

Lemma dispose_again c st (n : nat) :
  EtherscanClient.disposed c = true ->
  Nat.iter n (fun p => EtherscanClient.dispose hashKey p.1 p.2) (c, st) = (c, st).
Proof.
  intros Hdone. induction n as [|n IH]; simpl; [reflexivity|].
  rewrite IH. simpl. unfold EtherscanClient.dispose. now rewrite Hdone.
Qed.

(** Two clients made with one API key share one limiter, and the rate
    options of the second play no part.  Disposing the first, once or
    many times, releases the limiter once: it keeps running for the
    second client.  When the second is disposed as well the registry
    holds for the key what it held before the two were made, and a
    limiter that was made for them is stopped. *)
Theorem clients_share_one_limiter options1 options2 env st c1 st1 c2 st2 (n : nat) :
  GlobalRateLimiterRegistry.sound hashKey st ->
  EtherscanClient.create hashKey options1 env st = (Returns c1, st1) ->
  EtherscanClient.create hashKey options2 env st1 = (Returns c2, st2) ->
  Transport.apiKey (EtherscanClient.transport c2)
  = Transport.apiKey (EtherscanClient.transport c1) ->
  let h := hashKey (Transport.apiKey (EtherscanClient.transport c1)) in
  let first := Nat.iter (S n) (fun p => EtherscanClient.dispose hashKey p.1 p.2) (c1, st2) in
  let second := EtherscanClient.dispose hashKey c2 first.2 in
  EtherscanClient.limiter c2 = EtherscanClient.limiter c1
  /\ GlobalRateLimiterRegistry.heap st2 = GlobalRateLimiterRegistry.heap st1
  /\ GlobalRateLimiterRegistry.limiters first.2 !! h
     = GlobalRateLimiterRegistry.limiters st1 !! h
  /\ (exists b, GlobalRateLimiterRegistry.heap first.2 !! EtherscanClient.limiter c2 = Some b
                /\ GlobalRateLimiterRegistry.stopped b = None)
  /\ GlobalRateLimiterRegistry.limiters second.2 !! h
     = GlobalRateLimiterRegistry.limiters st !! h
  /\ (GlobalRateLimiterRegistry.limiters st !! h = None ->
      GlobalRateLimiterRegistry.stopped
        <$> GlobalRateLimiterRegistry.heap second.2 !! EtherscanClient.limiter c2
      = Some (Some false)).
Proof.
  intros Hsound Hc1 Hc2 Hkey h first second.
  pose proof (sound_getLimiter hashKey st (Transport.apiKey (EtherscanClient.transport c1))
                (default 3 (EtherscanClient.o_rateLimit options1))
                (default 100000 (EtherscanClient.o_reservoir options1))
                (default (24 * 60 * 60 * 1000)
                   (EtherscanClient.o_reservoirRefreshInterval options1)) Hsound) as Hsound1.
  apply create_Returns in Hc1 as (Hl1 & Hst1 & Hlive1).
  apply create_Returns in Hc2 as (Hl2 & Hst2 & Hlive2).
  rewrite Hkey in Hl2, Hst2. fold h in Hl2, Hst2. rewrite <- Hst1 in Hsound1.
  assert (exists l r,
             GlobalRateLimiterRegistry.limiters st1 !! h
             = Some {| GlobalRateLimiterRegistry.limiter := l;
                       GlobalRateLimiterRegistry.refCount := r + 1 |}
             /\ EtherscanClient.limiter c1 = l
             /\ 0 <= r
             /\ (GlobalRateLimiterRegistry.limiters st !! h
                 = if r =? 0 then None
                   else Some {| GlobalRateLimiterRegistry.limiter := l;
                                GlobalRateLimiterRegistry.refCount := r |}))
    as (l & r & Hentry1 & Hlim1 & Hr & Hbefore).
  { rewrite Hst1, Hl1. unfold GlobalRateLimiterRegistry.getLimiter. fold h.
    destruct Hsound as (Hlive & _).
    destruct (GlobalRateLimiterRegistry.limiters st !! h) as [[l0 r0]|] eqn:E; simpl.
    - apply Hlive in E as [Hr0 _]. simpl in Hr0.
      exists l0, r0. rewrite lookup_insert_eq.
      replace (r0 =? 0) with false by (symmetry; apply Z.eqb_neq; lia).
      split; [reflexivity|]. split; [reflexivity|]. split; [lia|reflexivity].
    - exists (length (GlobalRateLimiterRegistry.heap st)), 0. rewrite lookup_insert_eq.
      split; [reflexivity|]. split; [reflexivity|]. split; [lia|reflexivity]. }
  assert (st2 = {| GlobalRateLimiterRegistry.limiters :=
                     <[h := {| GlobalRateLimiterRegistry.limiter := l;
                               GlobalRateLimiterRegistry.refCount := r + 1 + 1 |}]>
                       (GlobalRateLimiterRegistry.limiters st1);
                   GlobalRateLimiterRegistry.heap := GlobalRateLimiterRegistry.heap st1 |}
          /\ EtherscanClient.limiter c2 = l) as [Hst2' Hlim2].
  { rewrite Hst2, Hl2. unfold GlobalRateLimiterRegistry.getLimiter. fold h.
    rewrite Hentry1. simpl. split; reflexivity. }
  assert (exists c1',
            first = (c1',
                     {| GlobalRateLimiterRegistry.limiters :=
                          <[h := {| GlobalRateLimiterRegistry.limiter := l;
                                    GlobalRateLimiterRegistry.refCount := r + 1 |}]>
                            (GlobalRateLimiterRegistry.limiters st2);
                        GlobalRateLimiterRegistry.heap := GlobalRateLimiterRegistry.heap st1 |}))
    as (c1' & Hfirst).
  { assert (exists c1',
               EtherscanClient.disposed c1' = true
               /\ EtherscanClient.dispose hashKey c1 st2
                  = (c1',
                     {| GlobalRateLimiterRegistry.limiters :=
                          <[h := {| GlobalRateLimiterRegistry.limiter := l;
                                    GlobalRateLimiterRegistry.refCount := r + 1 |}]>
                            (GlobalRateLimiterRegistry.limiters st2);
                        GlobalRateLimiterRegistry.heap := GlobalRateLimiterRegistry.heap st1 |}))
      as (c1' & Hdone & Hdispose).
    { unfold EtherscanClient.dispose. rewrite Hlive1. eexists. split.
      2: { apply f_equal2; [reflexivity|].
           unfold GlobalRateLimiterRegistry.cleanup. fold h.
           rewrite Hst2'. cbn. rewrite lookup_insert_eq. cbn.
           replace (r + 1 + 1 - 1 <=? 0) with false by (symmetry; apply Z.leb_gt; lia).
           do 3 f_equal. lia. }
      reflexivity. }
    exists c1'. subst first. rewrite Nat.iter_succ_r. cbn [fst snd].
    rewrite Hdispose. now apply dispose_again. }
  split; [congruence|]. split; [now rewrite Hst2'|].
  rewrite Hfirst. cbn [snd GlobalRateLimiterRegistry.limiters GlobalRateLimiterRegistry.heap].
  split; [now rewrite lookup_insert_eq|]. split.
  { destruct Hsound1 as (Hlive & _). apply Hlive in Hentry1 as [_ Hb]. simpl in Hb.
    now rewrite Hlim2. }
  subst second. rewrite Hfirst. unfold EtherscanClient.dispose. rewrite Hlive2. cbn [snd].
  unfold GlobalRateLimiterRegistry.cleanup. rewrite Hkey. fold h. cbn.
  rewrite lookup_insert_eq. cbn.
  destruct (r =? 0) eqn:Hzero.
  - apply Z.eqb_eq in Hzero. subst r. change (0 + 1 - 1 <=? 0) with true. cbn.
    rewrite lookup_delete_eq. split; [now rewrite Hbefore|].
    intros _. rewrite Hlim2. unfold GlobalRateLimiterRegistry.stop.
    destruct Hsound1 as (Hlive & _). apply Hlive in Hentry1 as [_ (b & Hb & _)]. simpl in Hb.
    rewrite Hb. rewrite list_lookup_insert_eq by (now apply lookup_lt_Some in Hb). reflexivity.
  - apply Z.eqb_neq in Hzero.
    replace (r + 1 - 1 <=? 0) with false by (symmetry; apply Z.leb_gt; lia).
    cbn. rewrite lookup_insert_eq. rewrite Hbefore. split; [do 2 f_equal; lia|discriminate].
Qed.

(** A disposed client refuses its calls with [CLIENT_DISPOSED]: the
    cache methods throw, and so does a method of a module, before it
    validates or fetches anything. *)
Theorem disposed_client_refuses `{Transport.Platform} c st addressOrParams tag' w :
  let refused := EtherscanError "Client has been disposed" 500 "CLIENT_DISPOSED" in
  let c' := (EtherscanClient.dispose hashKey c st).1 in
  EtherscanClient.getCacheStats c' = Throws refused
  /\ EtherscanClient.clearCache c' = (Throws refused, c')
  /\ EtherscanClient.accountGetBalance c' addressOrParams tag' w = (Throws refused, c', w).
Proof.
  intros refused c'.
  assert (EtherscanClient.disposed c' = true) as Hdone.
  { subst c'. unfold EtherscanClient.dispose.
    destruct (EtherscanClient.disposed c) eqn:E; [exact E|reflexivity]. }
  unfold EtherscanClient.getCacheStats, EtherscanClient.clearCache,
    EtherscanClient.accountGetBalance, EtherscanClient.checkDisposed.
  rewrite Hdone. split; [reflexivity|]. split; reflexivity.
Qed.

End ClientLifecycle.

Lemma clients_share_one_limiter_two_clients :
  let options :=
    {| EtherscanClient.o_apiKey := Some "KEY"; EtherscanClient.o_chain := None;
       EtherscanClient.o_rateLimit := None; EtherscanClient.o_timeout := None;
       EtherscanClient.o_maxRetries := None; EtherscanClient.o_retryDelay := None;
       EtherscanClient.o_allowedBaseUrls := None; EtherscanClient.o_reservoir := None;
       EtherscanClient.o_reservoirRefreshInterval := None |} in
  let hurried :=
    {| EtherscanClient.o_apiKey := Some "KEY"; EtherscanClient.o_chain := None;
       EtherscanClient.o_rateLimit := Some 10; EtherscanClient.o_timeout := None;
       EtherscanClient.o_maxRetries := None; EtherscanClient.o_retryDelay := None;
       EtherscanClient.o_allowedBaseUrls := None; EtherscanClient.o_reservoir := None;
       EtherscanClient.o_reservoirRefreshInterval := None |} in
  let c :=
    {| EtherscanClient.transport := Mock.transport 3 InterceptorManager.create;
       EtherscanClient.limiter := 0;
       EtherscanClient.deduplicator := RequestDeduplicator.create;
       EtherscanClient.disposed := false |} in
  let st1 := (EtherscanClient.create id options None GlobalRateLimiterRegistry.empty).2 in
  let st2 := (EtherscanClient.create id hurried None st1).2 in
  let first := Nat.iter 2 (fun p => EtherscanClient.dispose id p.1 p.2) (c, st2) in
  GlobalRateLimiterRegistry.heap st2 = GlobalRateLimiterRegistry.heap st1
  /\ GlobalRateLimiterRegistry.limiters first.2 !! "KEY"
     = GlobalRateLimiterRegistry.limiters st1 !! "KEY"
  /\ GlobalRateLimiterRegistry.limiters (EtherscanClient.dispose id c first.2).2 !! "KEY" = None.
Proof.
  intros options hurried c st1 st2 first.
  destruct (clients_share_one_limiter id options hurried None GlobalRateLimiterRegistry.empty
              c st1 c st2 1) as (_ & Hheap & Hheld & _ & Hgone & _).
  - apply sound_empty.
  - reflexivity.
  - reflexivity.
  - reflexivity.
  - split; [exact Hheap|]. split; [exact Hheld|exact Hgone].
Defined.

Lemma BigIntSchema_exact_1000_ether :
  Zod.safeParse Types.BigIntSchema (Js.VStr "1000000000000000000000")
  = Zod.Success (Js.VBigInt 1000000000000000000000).
Proof. apply (BigIntSchema_exact "1000000000000000000000"). reflexivity. Defined.

(** ** HTTP errors *)

Section HttpErrors.

Import Transport Errors.

Context `{Platform}.

(** Only a failed fetch is tried again: when the server answers with an
    HTTP error status, the request ends after that one fetch, whatever
    the retry budget, with an [EtherscanError] that carries the status;
    nothing is cached. *)
Theorem http_error_is_not_retried tr params schema options w response :
  let interceptedParams :=
    InterceptorManager.applyRequestInterceptors (interceptors tr) params in
  let url := requestUrl tr V2_ENDPOINT interceptedParams in
  existsb (sameOrigin V2_ENDPOINT) (ALLOWED_BASE_URLS tr) = true ->
  (exists origin, parseURL V2_ENDPOINT = Some ("https:", origin)) ->
  (LRUCache.get (now w) (createCacheKey tr V2_ENDPOINT interceptedParams) (cache tr)).1 = None ->
  network w (fetches w) url = Resolves response ->
  ok response = false ->
  let r := get tr params schema options w in
  r.1.1 = Throws (EtherscanError
                    ("HTTP " +:+ Js.string_of_Z (Transport.status response) +:+ ": "
                     +:+ statusText response)
                    (Transport.status response) "UNKNOWN_ERROR")
  /\ fetches r.2 = S (fetches w)
  /\ trace r.2 = trace w ++ [Fetch url]
  /\ cache r.1.2
     = (LRUCache.get (now w) (createCacheKey tr V2_ENDPOINT interceptedParams) (cache tr)).2.
Proof.
  intros interceptedParams url Hallowed (origin & Hurl) Hmiss Hnet Hfailed.
  unfold get, getWithUrl. rewrite Hallowed, Hurl. simpl negb. cbv iota.
  fold interceptedParams.
  set (cacheKey := createCacheKey _ _ _) in *.
  destruct (LRUCache.get (now w) cacheKey (cache tr)) as [cached c] eqn:Hget.
  simpl in Hmiss. subst cached.
  unfold requestJob.
  change (requestUrl (withCache tr c) V2_ENDPOINT interceptedParams) with url.
  rewrite fetchOrFail_withCache.
  assert (fetchOrFail tr url w = (Returns response, (fetch url w).2)) as ->.
  { unfold fetchOrFail, fetchWithRetry.
    destruct (Z.to_nat (maxRetries tr)); simpl; now rewrite Hnet. }
  unfold handleResponse. rewrite Hfailed. simpl. tauto.
Qed.

End HttpErrors.

Lemma http_error_is_not_retried_503 :
  let unavailable :=
    {| Transport.ok := false; Transport.status := 503;
       Transport.statusText := "Service Unavailable";
       Transport.contentType := None; Transport.contentLength := None;
       Transport.text := "" |} in
  let r := Transport.get (Mock.transport 3 InterceptorManager.create)
             [("module", Js.VStr "account")] Types.BigIntSchema None
             (Mock.world [Transport.Resolves unavailable]) in
  r.1.1 = Errors.Throws (Errors.EtherscanError "HTTP 503: Service Unavailable" 503 "UNKNOWN_ERROR")
  /\ Transport.fetches r.2 = 1%nat.
Proof.
  intros unavailable r.
  destruct (http_error_is_not_retried (Mock.transport 3 InterceptorManager.create)
              [("module", Js.VStr "account")] Types.BigIntSchema None
              (Mock.world [Transport.Resolves unavailable]) unavailable)
    as (Hthrown & Hcount & _).
  - reflexivity.
  - eexists. reflexivity.
  - reflexivity.
  - reflexivity.
  - reflexivity.
  - split; [exact Hthrown|exact Hcount].
Defined.
